(** * reps_scheduler: a shallow embedding of [scheduler.py]

    The scheduler mixes unbounded Python integers with binary64 floats.
    Integers are [Z]; floats are modelled by their value, every float
    operation being the exact rational result rounded to the nearest
    binary64 number, ties to even, as IEEE 754 prescribes and CPython
    implements.  Exceptions are an explicit error type. *)

From Stdlib Require Import ZArith QArith Qround Qpower Qabs List Sorted Bool Lia Lqa.
Import ListNotations.
Local Open Scope Z_scope.

(** ** Exceptions *)

Inductive exn : Type :=
| ValueError
| OverflowError
| ZeroDivisionError.

Inductive result (A : Type) : Type :=
| Ok (a : A)
| Err (e : exn).
Arguments Ok {A} a.
Arguments Err {A} e.

Definition bind {A B : Type} (r : result A) (k : A -> result B) : result B :=
  match r with
  | Ok a => k a
  | Err e => Err e
  end.

Notation "x <- c ;; k" := (bind c (fun x => k))
  (at level 61, c at next level, right associativity).

Fixpoint mapM {A B : Type} (f : A -> result B) (l : list A) : result (list B) :=
  match l with
  | [] => Ok []
  | a :: l' => b <- f a ;; bs <- mapM f l' ;; Ok (b :: bs)
  end.

(** ** Binary64 floats *)

Module Float.

(** [FFin m e] is the number [m * 2^e].  The sign of zero is not kept:
    nothing in the scheduler observes it. *)
Inductive float : Type :=
| FFin (m e : Z)
| FInf (neg : bool)
| FNaN.

Definition prec : Z := 53.
Definition emax : Z := 1024.
Definition emin : Z := 3 - emax - prec.

Definition pow2Q (e : Z) : Q :=
  if 0 <=? e then inject_Z (2 ^ e) else 1 # Z.to_pos (2 ^ (- e)).

Definition F2Q (m e : Z) : Q := inject_Z m * pow2Q e.

(** floor (log2 (a / b)) *)
Definition ilog2 (a b : positive) : Z :=
  let k := Z.log2 (Zpos a) - Z.log2 (Zpos b) in
  if Zpos b * 2 ^ Z.max 0 k <=? Zpos a * 2 ^ Z.max 0 (- k) then k else k - 1.

(** [n / d] rounded to the nearest integer, ties to even ([0 < d]). *)
Definition rne (n d : Z) : Z :=
  let q := n / d in
  match 2 * (n mod d) ?= d with
  | Lt => q
  | Gt => q + 1
  | Eq => if Z.even q then q else q + 1
  end.

(** The exponent of the binary64 grid around a nonzero [q]. *)
Definition cexp (q : Q) : Z :=
  Z.max (ilog2 (Z.to_pos (Z.abs (Qnum q))) (Qden q) - (prec - 1)) emin.

(** Round to nearest, ties to even, overflowing to infinity. *)
Definition RN (q : Q) : float :=
  if Qnum q =? 0 then FFin 0 0
  else
    let e := cexp q in
    let m := rne (Qnum q * 2 ^ Z.max 0 (- e)) (Zpos (Qden q) * 2 ^ Z.max 0 e) in
    if emax <=? Z.log2 (Z.abs m) + e then FInf (m <? 0) else FFin m e.

Definition of_Z (z : Z) : float := RN (inject_Z z).

Definition is_zero (x : float) : bool :=
  match x with FFin 0 _ => true | _ => false end.

Definition is_neg (x : float) : bool :=
  match x with FFin m _ => m <? 0 | FInf s => s | FNaN => false end.

Definition opp (x : float) : float :=
  match x with
  | FFin m e => FFin (- m) e
  | FInf s => FInf (negb s)
  | FNaN => FNaN
  end.

Definition mul (x y : float) : float :=
  match x, y with
  | FNaN, _ | _, FNaN => FNaN
  | FFin m1 e1, FFin m2 e2 => RN (F2Q m1 e1 * F2Q m2 e2)
  | FInf s, z | z, FInf s =>
      if is_zero z then FNaN else FInf (xorb s (is_neg z))
  end.

Definition add (x y : float) : float :=
  match x, y with
  | FNaN, _ | _, FNaN => FNaN
  | FFin m1 e1, FFin m2 e2 => RN (F2Q m1 e1 + F2Q m2 e2)
  | FInf s1, FInf s2 => if Bool.eqb s1 s2 then x else FNaN
  | FInf _, _ => x
  | _, FInf _ => y
  end.

Definition sub (x y : float) : float := add x (opp y).

(** Division by a nonzero float (Python raises before dividing by zero). *)
Definition div (x y : float) : float :=
  match x, y with
  | FNaN, _ | _, FNaN => FNaN
  | FFin m1 e1, FFin m2 e2 => RN (F2Q m1 e1 / F2Q m2 e2)
  | FInf _, FInf _ => FNaN
  | FInf s, _ => FInf (xorb s (is_neg y))
  | _, FInf _ => FFin 0 0
  end.

(** Comparisons; anything against NaN is false. *)
Definition compare (x y : float) : option comparison :=
  match x, y with
  | FNaN, _ | _, FNaN => None
  | FFin m1 e1, FFin m2 e2 => Some (F2Q m1 e1 ?= F2Q m2 e2)%Q
  | FInf s1, FInf s2 =>
      Some (if Bool.eqb s1 s2 then Eq else if s1 then Lt else Gt)
  | FInf s, _ => Some (if s then Lt else Gt)
  | _, FInf s => Some (if s then Gt else Lt)
  end.

Definition leb (x y : float) : bool :=
  match compare x y with Some (Lt | Eq) => true | _ => false end.

Definition ltb (x y : float) : bool :=
  match compare x y with Some Lt => true | _ => false end.

End Float.

(** ** Python numbers *)

Import Float.

Inductive pynum : Type :=
| PInt (z : Z)
| PFloat (f : float).

(** [float(z)]: "int too large to convert to float" on overflow. *)
Definition int_to_float (z : Z) : result float :=
  match of_Z z with
  | FInf _ => Err OverflowError
  | f => Ok f
  end.

Definition to_float (v : pynum) : result float :=
  match v with
  | PInt z => int_to_float z
  | PFloat f => Ok f
  end.

(** [a / b] on two ints: the correctly rounded quotient. *)
Definition int_truediv (a b : Z) : result float :=
  if b =? 0 then Err ZeroDivisionError
  else
    match RN (inject_Z a / inject_Z b) with
    | FInf _ => Err OverflowError
    | f => Ok f
    end.

Definition float_truediv (x y : float) : result float :=
  if is_zero y then Err ZeroDivisionError else Ok (div x y).

(** [v * w], [v / w] with Python's int/float coercion. *)
Definition py_mul (v w : pynum) : result pynum :=
  match v, w with
  | PInt a, PInt b => Ok (PInt (a * b))
  | _, _ => x <- to_float v ;; y <- to_float w ;; Ok (PFloat (mul x y))
  end.

Definition py_truediv (v w : pynum) : result float :=
  match v, w with
  | PInt a, PInt b => int_truediv a b
  | _, _ => x <- to_float v ;; y <- to_float w ;; float_truediv x y
  end.

(** [round(x)] with no digits: nearest integer, ties to even. *)
Definition round_float (x : float) : result Z :=
  match x with
  | FFin m e => Ok (rne (m * 2 ^ Z.max 0 e) (2 ^ Z.max 0 (- e)))
  | FInf _ => Err OverflowError
  | FNaN => Err ValueError
  end.

Definition py_round (v : pynum) : result Z :=
  match v with
  | PInt z => Ok z
  | PFloat f => round_float f
  end.

(** [math.ceil(x)] *)
Definition math_ceil (x : float) : result Z :=
  match x with
  | FFin m e => Ok (- ((- (m * 2 ^ Z.max 0 e)) / 2 ^ Z.max 0 (- e)))
  | FInf _ => Err OverflowError
  | FNaN => Err ValueError
  end.

(** [v <= 0] and [v < 0] as the guard of [schedule_by_shape] evaluates them. *)
Definition py_le0 (v : pynum) : bool :=
  match v with
  | PInt z => z <=? 0
  | PFloat f => leb f (FFin 0 0)
  end.

Definition py_lt0 (v : pynum) : bool :=
  match v with
  | PInt z => z <? 0
  | PFloat f => ltb f (FFin 0 0)
  end.

(** ** Distribution shapes *)

Definition F2 : float := FFin 2 0.
Definition F4 : float := FFin 4 0.
Definition F6 : float := FFin 6 0.
Definition F8 : float := FFin 8 0.
Definition F12 : float := FFin 12 0.

Definition peak_in_middle_function (x : float) : float :=
  let piecewise_edge := FFin 2 0 in
  if leb x piecewise_edge then sub (mul F2 x) F2
  else sub F6 (mul F2 x).

Definition peak_toward_front_function (x : float) : float :=
  let piecewise_edge := FFin 2 0 in
  if leb x piecewise_edge then mul F2 x
  else sub F12 (mul F4 x).

Definition front_load_function (x : float) : float :=
  let piecewise_edge := FFin 1 0 in
  if ltb x piecewise_edge then sub F8 x
  else sub F4 (mul F2 x).

Definition DISTRO_SHAPE_FUNCTIONS : list (float -> float) :=
  [peak_in_middle_function; peak_toward_front_function; front_load_function].

(** ** Lists of counts *)

Definition sum (l : list Z) : Z := fold_right Z.add 0 l.

(** [max(values)] and [min(values)] of a non-empty list. *)
Definition list_max (l : list Z) : Z :=
  match l with
  | [] => 0
  | a :: l' => fold_left Z.max l' a
  end.

Definition list_min (l : list Z) : Z :=
  match l with
  | [] => 0
  | a :: l' => fold_left Z.min l' a
  end.

(** [values.index(v)]: the first position holding [v]. *)
Fixpoint index (v : Z) (values : list Z) : nat :=
  match values with
  | [] => O
  | a :: l => if a =? v then O else S (index v l)
  end.

Definition argmax (values : list Z) : nat := index (list_max values) values.

(** [l[i] += d] *)
Fixpoint add_at (i : nat) (d : Z) (l : list Z) : list Z :=
  match l, i with
  | [], _ => []
  | a :: l', O => (a + d) :: l'
  | a :: l', S i' => a :: add_at i' d l'
  end.

Definition range (n : Z) : list Z := map Z.of_nat (seq 0 (Z.to_nat n)).

(** ** schedule_by_shape *)

Definition schedule_ints (distro_shape : float -> float) (num_set total : Z)
  : result (list Z) :=
  if num_set =? 1 then Ok [total]
  else
    x_values <- mapM (fun i => int_truediv (i * 4) (num_set - 1)) (range num_set) ;;
    let unscaled_diffs_from_average := map distro_shape x_values in
    set_average <- int_truediv total num_set ;;
    diff_scale <- float_truediv set_average (FFin 20 0) ;;
    let diffs_from_average := map (mul diff_scale) unscaled_diffs_from_average in
    sets <- mapM (fun diff => round_float (add diff set_average)) diffs_from_average ;;
    let rounding_error := total - sum sets in
    if rounding_error <? 0
    then Ok (add_at (length sets - 1) rounding_error sets)
    else Ok (add_at (argmax sets) rounding_error sets).

Definition schedule_by_shape (distro_shape : float -> float) (num_set total : pynum)
  : result (list Z) :=
  if py_le0 num_set || py_lt0 total then Err ValueError
  else
    match num_set, total with
    | PInt n, PInt t => schedule_ints distro_shape n t
    | _, _ => Err ValueError
    end.

Definition day1_schedule := schedule_by_shape peak_in_middle_function.
Definition day2_schedule := schedule_by_shape peak_toward_front_function.
Definition day3_schedule := schedule_by_shape front_load_function.

(** ** Progressions *)

Definition DAY_SCHEDULES : list (pynum -> pynum -> result (list Z)) :=
  [day1_schedule; day2_schedule; day3_schedule].
Definition N_SETS : Z := 5.
Definition RATIO_OF_MAX_FOR_N_SETS : float := RN (6 # 10).
Definition DAY_INCREASES : list float := [RN (113 # 100); RN (11 # 10); RN (11 # 10)].
Definition DAYS_PER_WEEK : Z := Z.of_nat (length DAY_INCREASES).

(** [math.prod]: a left fold of [*] from the int [1]. *)
Definition math_prod (l : list pynum) : result pynum :=
  fold_left (fun acc x => a <- acc ;; py_mul a x) l (Ok (PInt 1)).

(** [more_itertools.take(n, itertools.cycle(l))] *)
Definition take_cycle {A : Type} (n : nat) (l : list A) : list A :=
  flat_map (fun i => match nth_error l (i mod length l) with
                     | Some a => [a]
                     | None => []
                     end) (seq 0 n).

(** [sys.maxsize] of a 64-bit CPython: the largest count that
    [itertools.islice], and so [more_itertools.take], accepts. *)
Definition sys_maxsize : Z := 2 ^ 63 - 1.

Definition get_total_increase_after_days (num_days : Z) : result pynum :=
  if (num_days <? 0) || (sys_maxsize <? num_days) then Err ValueError
  else
    let endless_increases := fun n => take_cycle n (map PFloat DAY_INCREASES) in
    math_prod (endless_increases (Z.to_nat num_days)).

(** The module constant [WEEKLY_INCREASE = math.prod(DAY_INCREASES)]. *)
Definition WEEKLY_INCREASE : float :=
  Eval vm_compute in
    match math_prod (map PFloat DAY_INCREASES) with
    | Ok (PFloat f) => f
    | _ => FNaN
    end.

Section Progression.

(** [math.log] hands positive finite arguments to the platform's libm,
    whose last bit C does not fix: the planner is parametric in it. *)
Variable libm_log : float -> float.

Definition math_log (x : float) : result float :=
  match x with
  | FNaN => Ok FNaN
  | FInf false => Ok (FInf false)
  | FInf true => Err ValueError
  | FFin m e => if 0 <? m then Ok (libm_log x) else Err ValueError
  end.

(** [math.ceil(math.log(est_required_inc) / math.log(WEEKLY_INCREASE))] *)
Definition estimate_weeks (est_required_inc : float) : result Z :=
  num <- math_log est_required_inc ;;
  den <- math_log WEEKLY_INCREASE ;;
  quo <- float_truediv num den ;;
  math_ceil quo.

(** One element of the generator expression over [day]. *)
Definition day_schedule (n_sets starting_total day : Z) : result (list Z) :=
  increase <- get_total_increase_after_days day ;;
  scaled <- py_mul increase (PInt starting_total) ;;
  total <- py_round scaled ;;
  match nth_error DAY_SCHEDULES (Z.to_nat (day mod DAYS_PER_WEEK)) with
  | Some schedule_fn => schedule_fn (PInt n_sets) (PInt total)
  | None => Err ValueError
  end.

(** [itertools.takewhile] over the lazy generator: days are produced one
    at a time and none is computed after the first that fails the test. *)
Fixpoint takewhile_days (n_sets starting_total single_set_goal : Z) (days : list Z)
  : result (list (list Z)) :=
  match days with
  | [] => Ok []
  | day :: rest =>
      sets <- day_schedule n_sets starting_total day ;;
      if list_max sets <? single_set_goal
      then
        later <- takewhile_days n_sets starting_total single_set_goal rest ;;
        Ok (sets :: later)
      else Ok []
  end.

Definition get_progression (starting_max : pynum) (single_set_goal : Z)
  : result (list (list Z)) :=
  let n_sets := N_SETS in
  sa <- py_mul (PFloat RATIO_OF_MAX_FOR_N_SETS) starting_max ;;
  starting_average <- to_float sa ;;
  est_required_inc <- py_truediv (PInt single_set_goal) (PFloat starting_average) ;;
  est_weeks <- estimate_weeks est_required_inc ;;
  scaled <- py_mul (PFloat starting_average) (PInt n_sets) ;;
  starting_total <- py_round scaled ;;
  schedule <- takewhile_days n_sets starting_total single_set_goal
                (range (DAYS_PER_WEEK * est_weeks)) ;;
  Ok (schedule ++ [[single_set_goal]]).

End Progression.

(** ** A reference logarithm

    A stand-in for libm used to run the planner on concrete inputs:
    [ln x = k ln 2 + 2 atanh ((y - 1) / (y + 1))] with [x = y 2^k],
    [1 <= y < 2], summed in fixed point with [fixed_bits] fractional bits
    and then rounded to binary64. *)
Module RefLog.

Definition fixed_bits : Z := 200.

Fixpoint atanh_series (fuel : nat) (j pw t2 acc : Z) : Z :=
  match fuel with
  | O => acc
  | S fuel' =>
      atanh_series fuel' (j + 2) (pw * t2 / 2 ^ fixed_bits) t2 (acc + pw / j)
  end.

(** [atanh (n / d)] scaled by [2 ^ fixed_bits], for [0 <= n / d <= 1/3]. *)
Definition atanh_fixed (n d : Z) : Z :=
  let t := n * 2 ^ fixed_bits / d in
  atanh_series 70 1 t (t * t / 2 ^ fixed_bits) 0.

Definition ln2_fixed : Z := 2 * atanh_fixed 1 3.

Definition ref_log (x : float) : float :=
  match x with
  | FFin m e =>
      let q := F2Q m e in
      let a := Qnum q in
      let b := Zpos (Qden q) in
      let k := ilog2 (Z.to_pos a) (Qden q) in
      let yn := a * 2 ^ Z.max 0 (- k) in
      let yd := b * 2 ^ Z.max 0 k in
      RN (Qmake (k * ln2_fixed + 2 * atanh_fixed (yn - yd) (yn + yd))
                (Z.to_pos (2 ^ fixed_bits)))
  | _ => x
  end.

End RefLog.

(** * Rounding to nearest

    The facts about [rne] and [RN] that the scheduler's properties rest on:
    rounding is monotone, fixes the numbers of the grid, and is symmetric. *)

Module Rounding.
Import Float.

(** ** [rne] on fractions *)

Lemma rne_spec (n d : Z) :
  0 < d ->
  2 * Z.abs (rne n d * d - n) <= d
  /\ (2 * Z.abs (rne n d * d - n) = d -> Z.even (rne n d) = true).
Proof.
  intros Hd. unfold rne.
  pose proof (Z.div_mod n d ltac:(lia)) as E.
  pose proof (Z.mod_pos_bound n d Hd) as B.
  set (q := n / d) in *. set (r := n mod d) in *.
  destruct (Z.compare_spec (2 * r) d) as [C|C|C].
  - destruct (Z.even q) eqn:Ev.
    + split; [nia|]. intros _; exact Ev.
    + split; [nia|]. intros _.
      rewrite Z.even_add, Ev. reflexivity.
  - split; [nia|]. intros H; nia.
  - split; [nia|]. intros H; nia.
Qed.

Lemma rne_mono (n1 d1 n2 d2 : Z) :
  0 < d1 -> 0 < d2 -> n1 * d2 <= n2 * d1 -> rne n1 d1 <= rne n2 d2.
Proof.
  intros H1 H2 H.
  destruct (rne_spec n1 d1 H1) as [A1 E1].
  destruct (rne_spec n2 d2 H2) as [A2 E2].
  set (r1 := rne n1 d1) in *. set (r2 := rne n2 d2) in *.
  destruct (Z_le_gt_dec r1 r2) as [|G]; [assumption|exfalso].
  assert (K1 : 2 * (r1 * d1 - n1) <= d1) by lia.
  assert (K2 : 2 * (n2 - r2 * d2) <= d2) by lia.
  assert (T : r1 = r2 + 1 /\ 2 * (r1 * d1 - n1) = d1 /\ 2 * (n2 - r2 * d2) = d2).
  { assert (2 * r1 * d1 * d2 - d1 * d2 <= 2 * n1 * d2) by nia.
    assert (2 * n2 * d1 <= 2 * r2 * d1 * d2 + d1 * d2) by nia.
    assert (D : 0 < d1 * d2) by nia.
    assert ((2 * r1 - 1) * (d1 * d2) <= (2 * r2 + 1) * (d1 * d2)) by nia.
    assert (r1 = r2 + 1) by nia.
    subst r1. repeat split; nia. }
  destruct T as (T0 & T1 & T2).
  assert (Ev1 : Z.even r1 = true) by (apply E1; lia).
  assert (Ev2 : Z.even r2 = true) by (apply E2; lia).
  rewrite T0, Z.even_add, Ev2 in Ev1. discriminate.
Qed.

Lemma rne_exact (k d : Z) : 0 < d -> rne (k * d) d = k.
Proof.
  intros Hd. unfold rne.
  rewrite Z.div_mul, Z.mod_mul by lia.
  replace (2 * 0 ?= d) with Lt by (symmetry; apply Z.compare_lt_iff; lia).
  reflexivity.
Qed.

Lemma rne_opp (n d : Z) : 0 < d -> rne (- n) d = - rne n d.
Proof.
  intros Hd.
  destruct (rne_spec n d Hd) as [A E].
  destruct (rne_spec (- n) d Hd) as [A' E'].
  set (r := rne n d) in *. set (r' := rne (- n) d) in *.
  assert (C : r' = - r \/ (r' <> - r /\ 2 * Z.abs (r * d - n) = d
                           /\ 2 * Z.abs (r' * d + n) = d
                           /\ (r' = - r + 1 \/ r' = - r - 1))) by nia.
  destruct C as [C|(C0 & C1 & C2 & C3)]; [assumption|exfalso].
  specialize (E C1). assert (Ev' : Z.even r' = true) by (apply E'; lia).
  destruct C3 as [-> | ->].
  - rewrite Z.even_add, Z.even_opp, E in Ev'. discriminate.
  - rewrite Z.even_sub, Z.even_opp, E in Ev'. discriminate.
Qed.

(** ** Powers of two *)

Lemma pow2Q_Qpower (e : Z) : (pow2Q e == inject_Z 2 ^ e)%Q.
Proof.
  unfold pow2Q. destruct (Z.leb_spec 0 e) as [H|H].
  - now apply Zpower_Qpower.
  - remember (- e) as p eqn:Ep. replace e with (- p) by lia.
    rewrite Qmake_Qdiv, Z2Pos.id by (apply Z.pow_pos_nonneg; lia).
    rewrite Zpower_Qpower by lia.
    rewrite Qpower_opp. unfold Qdiv. now rewrite Qmult_1_l.
Qed.

Lemma pow2Q_pos (e : Z) : (0 < pow2Q e)%Q.
Proof. rewrite pow2Q_Qpower. now apply Qpower_0_lt. Qed.

Lemma pow2Q_add (a b : Z) : (pow2Q (a + b) == pow2Q a * pow2Q b)%Q.
Proof. rewrite !pow2Q_Qpower. now apply Qpower_plus. Qed.

Lemma pow2Q_le (a b : Z) : a <= b -> (pow2Q a <= pow2Q b)%Q.
Proof.
  intros H. rewrite !pow2Q_Qpower. apply Qpower_le_compat_l; [assumption|].
  discriminate.
Qed.

Lemma pow2Q_lt (a b : Z) : a < b -> (pow2Q a < pow2Q b)%Q.
Proof.
  intros H. rewrite !pow2Q_Qpower. apply Qpower_lt_compat_l; [assumption|].
  reflexivity.
Qed.

Lemma pow2Q_le_inv (a b : Z) : (pow2Q a <= pow2Q b)%Q -> a <= b.
Proof.
  intros H. destruct (Z_le_gt_dec a b) as [|G]; [assumption|exfalso].
  apply (Qlt_not_le _ _ (pow2Q_lt b a ltac:(lia))), H.
Qed.

Lemma pow2Q_nonneg (e : Z) : 0 <= e -> (pow2Q e == inject_Z (2 ^ e))%Q.
Proof.
  intros H. unfold pow2Q.
  destruct (Z.leb_spec 0 e); [reflexivity | lia].
Qed.

Lemma pow2Q_0 : (pow2Q 0 == 1)%Q.
Proof. reflexivity. Qed.

Lemma pow2Q_succ (e : Z) : (pow2Q (e + 1) == 2 * pow2Q e)%Q.
Proof. rewrite pow2Q_add. change (pow2Q 1) with 2%Q. ring. Qed.

(** A power of two as a quotient of two natural powers. *)
Lemma pow2Q_split (e : Z) :
  (pow2Q e * inject_Z (2 ^ Z.max 0 (- e)) == inject_Z (2 ^ Z.max 0 e))%Q.
Proof.
  rewrite <- !pow2Q_nonneg by lia. rewrite <- pow2Q_add.
  replace (e + Z.max 0 (- e)) with (Z.max 0 e) by lia. reflexivity.
Qed.

(** ** The binary logarithm of a fraction *)

Lemma log2_bounds (a : positive) :
  (pow2Q (Z.log2 (Zpos a)) <= inject_Z (Zpos a)
   /\ inject_Z (Zpos a) < pow2Q (Z.log2 (Zpos a) + 1))%Q.
Proof.
  pose proof (Z.log2_spec (Zpos a) ltac:(lia)) as [L U].
  pose proof (Z.log2_nonneg (Zpos a)) as N.
  rewrite !pow2Q_nonneg by lia. split.
  - rewrite <- Zle_Qle. exact L.
  - rewrite <- Zlt_Qlt. exact U.
Qed.

Lemma ilog2_spec (a b : positive) :
  (pow2Q (ilog2 a b) * inject_Z (Zpos b) <= inject_Z (Zpos a)
   /\ inject_Z (Zpos a) < pow2Q (ilog2 a b + 1) * inject_Z (Zpos b))%Q.
Proof.
  destruct (log2_bounds a) as [La Ua]. destruct (log2_bounds b) as [Lb Ub].
  unfold ilog2.
  set (la := Z.log2 (Zpos a)) in *. set (lb := Z.log2 (Zpos b)) in *.
  set (k := la - lb).
  assert (Ek : (pow2Q la == pow2Q k * pow2Q lb)%Q).
  { rewrite <- pow2Q_add. now replace (k + lb) with la by (unfold k; lia). }
  assert (Ek1 : (pow2Q (la + 1) == pow2Q (k + 1) * pow2Q lb)%Q).
  { rewrite <- pow2Q_add. now replace (k + 1 + lb) with (la + 1) by (unfold k; lia). }
  pose proof (pow2Q_succ lb) as Slb. pose proof (pow2Q_succ k) as Sk.
  pose proof (pow2Q_succ (k - 1)) as Sk'.
  replace (k - 1 + 1) with k in * by lia.
  pose proof (pow2Q_pos lb) as Plb. pose proof (pow2Q_pos k) as Pk.
  pose proof (pow2Q_pos (k - 1)) as Pk'.
  pose proof (pow2Q_split k) as Sp.
  pose proof (pow2Q_pos (Z.max 0 (- k))) as Pn.
  rewrite <- (pow2Q_nonneg (Z.max 0 (- k))) in Sp by lia.
  rewrite <- (pow2Q_nonneg (Z.max 0 k)) in Sp by lia.
  set (A := inject_Z (Zpos a)) in *. set (B := inject_Z (Zpos b)) in *.
  assert (PB : (0 < B)%Q) by (unfold B; rewrite <- (Zlt_Qlt 0); lia).
  destruct (Z.leb_spec (Zpos b * 2 ^ Z.max 0 k) (Zpos a * 2 ^ Z.max 0 (- k))) as [T|T].
  - assert (TQ : (B * pow2Q (Z.max 0 k) <= A * pow2Q (Z.max 0 (- k)))%Q).
    { rewrite !pow2Q_nonneg by lia. unfold A, B.
      rewrite <- !inject_Z_mult, <- Zle_Qle. exact T. }
    split.
    + rewrite <- Sp in TQ. nra.
    + nra.
  - assert (TQ : (A * pow2Q (Z.max 0 (- k)) < B * pow2Q (Z.max 0 k))%Q).
    { rewrite !pow2Q_nonneg by lia. unfold A, B.
      rewrite <- !inject_Z_mult, <- Zlt_Qlt. exact T. }
    split.
    + nra.
    + replace (k - 1 + 1) with k by lia. rewrite <- Sp in TQ. nra.
Qed.

(** ** Rounding a rational to an integer *)

Definition Qrne (x : Q) : Z := rne (Qnum x) (Zpos (Qden x)).

Lemma Qrne_mono (x y : Q) : (x <= y)%Q -> Qrne x <= Qrne y.
Proof. intros H. apply rne_mono; [lia | lia | exact H]. Qed.

Lemma Qrne_compat (x y : Q) : (x == y)%Q -> Qrne x = Qrne y.
Proof.
  intros H. apply Z.le_antisymm; apply Qrne_mono; rewrite H; apply Qle_refl.
Qed.

Lemma Qrne_Z (k : Z) : Qrne (inject_Z k) = k.
Proof.
  unfold Qrne; simpl. pose proof (rne_exact k 1 ltac:(lia)) as H.
  now rewrite Z.mul_1_r in H.
Qed.

Lemma Qrne_opp (x : Q) : Qrne (- x) = - Qrne x.
Proof. destruct x as [n d]. unfold Qrne; simpl. apply rne_opp; lia. Qed.

Lemma Qrne_ge (k : Z) (x : Q) : (inject_Z k <= x)%Q -> k <= Qrne x.
Proof. intros H. rewrite <- (Qrne_Z k). now apply Qrne_mono. Qed.

Lemma Qrne_le (k : Z) (x : Q) : (x <= inject_Z k)%Q -> Qrne x <= k.
Proof. intros H. rewrite <- (Qrne_Z k). now apply Qrne_mono. Qed.

Lemma rne_Qrne (n d : Z) : 0 < d -> rne n d = Qrne (n # Z.to_pos d).
Proof. intros H. unfold Qrne; simpl. now rewrite Z2Pos.id. Qed.

(** [q / 2^e] as the fraction [RN] rounds. *)
Definition scaled (q : Q) (e : Z) : Q :=
  (Qnum q * 2 ^ Z.max 0 (- e)) # Z.to_pos (Zpos (Qden q) * 2 ^ Z.max 0 e).

Lemma scaled_spec (q : Q) (e : Z) : (scaled q e * pow2Q e == q)%Q.
Proof.
  unfold scaled.
  assert (P : 0 < 2 ^ Z.max 0 e) by (apply Z.pow_pos_nonneg; lia).
  rewrite Qmake_Qdiv, Z2Pos.id by lia.
  rewrite !inject_Z_mult.
  pose proof (pow2Q_split e) as Sp.
  pose proof (pow2Q_pos e) as Pe.
  destruct q as [n d]; simpl. rewrite (Qmake_Qdiv n d).
  set (X := inject_Z (2 ^ Z.max 0 (- e))) in *.
  set (Y := inject_Z (2 ^ Z.max 0 e)) in *.
  assert (PY : (0 < Y)%Q) by (unfold Y; rewrite <- (Zlt_Qlt 0); lia).
  assert (PD : (0 < inject_Z (Zpos d))%Q) by (rewrite <- (Zlt_Qlt 0); lia).
  assert (PX : (0 < X)%Q) by (unfold X; rewrite <- (Zlt_Qlt 0); lia).
  rewrite <- Sp. field.
  repeat split; intros Z0; rewrite Z0 in *; now apply Qlt_irrefl in PD + apply Qlt_irrefl in PX + apply Qlt_irrefl in Pe.
Qed.

Lemma mant_is_Qrne (q : Q) (e : Z) :
  rne (Qnum q * 2 ^ Z.max 0 (- e)) (Zpos (Qden q) * 2 ^ Z.max 0 e)
  = Qrne (scaled q e).
Proof.
  apply rne_Qrne.
  assert (P : 0 < 2 ^ Z.max 0 e) by (apply Z.pow_pos_nonneg; lia). lia.
Qed.

Lemma scaled_le (q1 q2 : Q) (e : Z) :
  (q1 <= q2)%Q -> (scaled q1 e <= scaled q2 e)%Q.
Proof.
  intros H. apply (Qmult_le_r _ _ (pow2Q e)); [apply pow2Q_pos|].
  now rewrite !scaled_spec.
Qed.

Lemma scaled_eq (q : Q) (e : Z) : (scaled q e == q * pow2Q (- e))%Q.
Proof.
  pose proof (scaled_spec q e) as H. pose proof (pow2Q_add e (- e)) as A.
  replace (e + - e) with 0 in A by lia. rewrite pow2Q_0 in A.
  rewrite <- H at 2. rewrite <- Qmult_assoc, <- A. ring.
Qed.

(** ** The grid exponent and the rounded mantissa *)

Definition mant (q : Q) : Z := Qrne (scaled q (cexp q)).

(** The value [RN q] denotes when it does not overflow. *)
Definition rval (q : Q) : Q := F2Q (mant q) (cexp q).

Lemma RN_unfold (q : Q) :
  Qnum q <> 0 ->
  RN q = if emax <=? Z.log2 (Z.abs (mant q)) + cexp q
         then FInf (mant q <? 0) else FFin (mant q) (cexp q).
Proof.
  intros H. unfold RN. destruct (Z.eqb_spec (Qnum q) 0); [contradiction|].
  cbv zeta. rewrite mant_is_Qrne. reflexivity.
Qed.

Lemma Qnum_pos (q : Q) : (0 < q)%Q <-> 0 < Qnum q.
Proof. unfold Qlt; simpl. lia. Qed.

Lemma Qnum_nonneg (q : Q) : (0 <= q)%Q <-> 0 <= Qnum q.
Proof. unfold Qle; simpl. lia. Qed.

Lemma ilog2_Q (q : Q) :
  (0 < q)%Q ->
  let k := ilog2 (Z.to_pos (Z.abs (Qnum q))) (Qden q) in
  (pow2Q k <= q /\ q < pow2Q (k + 1))%Q.
Proof.
  intros Hq k. apply Qnum_pos in Hq.
  destruct (ilog2_spec (Z.to_pos (Z.abs (Qnum q))) (Qden q)) as [L U].
  fold k in L, U. rewrite Z2Pos.id, Z.abs_eq in L, U by lia.
  destruct q as [n d]; simpl in *. rewrite (Qmake_Qdiv n d).
  assert (PD : (0 < inject_Z (Zpos d))%Q) by (rewrite <- (Zlt_Qlt 0); lia).
  split.
  - apply Qle_shift_div_l; assumption.
  - apply Qlt_shift_div_r; assumption.
Qed.

Lemma cexp_bounds (q : Q) :
  (0 < q)%Q ->
  emin <= cexp q
  /\ (q < pow2Q (cexp q + prec))%Q
  /\ (emin < cexp q -> (pow2Q (cexp q + (prec - 1)) <= q)%Q).
Proof.
  intros Hq. destruct (ilog2_Q q Hq) as [L U]. unfold cexp.
  set (k := ilog2 _ _) in *. split; [lia|]. split.
  - eapply Qlt_le_trans; [exact U|]. apply pow2Q_le. lia.
  - intros H. replace (Z.max (k - (prec - 1)) emin + (prec - 1)) with k by lia.
    exact L.
Qed.

Lemma cexp_mono (q1 q2 : Q) :
  (0 < q1)%Q -> (q1 <= q2)%Q -> cexp q1 <= cexp q2.
Proof.
  intros H1 H. assert (H2 : (0 < q2)%Q) by (eapply Qlt_le_trans; eassumption).
  destruct (ilog2_Q q1 H1) as [L1 _]. destruct (ilog2_Q q2 H2) as [_ U2].
  unfold cexp. cbv zeta in L1, U2.
  set (k1 := ilog2 (Z.to_pos (Z.abs (Qnum q1))) (Qden q1)) in *.
  set (k2 := ilog2 (Z.to_pos (Z.abs (Qnum q2))) (Qden q2)) in *.
  assert (k1 < k2 + 1); [|lia].
  destruct (Z_lt_ge_dec k1 (k2 + 1)) as [|G]; [assumption|exfalso].
  pose proof (pow2Q_le (k2 + 1) k1 ltac:(lia)). lra.
Qed.

Lemma pow2Q_prec : (pow2Q prec == inject_Z (2 ^ prec))%Q.
Proof. reflexivity. Qed.

Lemma mant_bounds (q : Q) :
  (0 < q)%Q ->
  0 <= mant q <= 2 ^ prec /\ (emin < cexp q -> 2 ^ (prec - 1) <= mant q).
Proof.
  intros Hq. destruct (cexp_bounds q Hq) as (_ & U & L).
  unfold mant. set (e := cexp q) in *.
  pose proof (scaled_spec q e) as S. pose proof (pow2Q_pos e) as Pe.
  rewrite pow2Q_add in U.
  split; [split|].
  - apply Qrne_ge. change (inject_Z 0) with 0%Q. nra.
  - apply Qrne_le. rewrite <- pow2Q_prec. nra.
  - intros H. specialize (L H). rewrite pow2Q_add in L.
    apply Qrne_ge. change (inject_Z (2 ^ (prec - 1))) with (pow2Q (prec - 1)). nra.
Qed.

Lemma F2Q_mono (m1 m2 e : Z) : m1 <= m2 -> (F2Q m1 e <= F2Q m2 e)%Q.
Proof.
  intros H. unfold F2Q. apply Qmult_le_compat_r.
  - now rewrite <- Zle_Qle.
  - apply Qlt_le_weak, pow2Q_pos.
Qed.

Lemma rval_mono_pos (q1 q2 : Q) :
  (0 < q1)%Q -> (q1 <= q2)%Q -> (rval q1 <= rval q2)%Q.
Proof.
  intros H1 H. assert (H2 : (0 < q2)%Q) by (eapply Qlt_le_trans; eassumption).
  pose proof (cexp_mono q1 q2 H1 H) as He. unfold rval.
  destruct (Z.eq_dec (cexp q1) (cexp q2)) as [E|N].
  - unfold mant. rewrite E. apply F2Q_mono, Qrne_mono, scaled_le, H.
  - destruct (mant_bounds q1 H1) as [[_ U1] _].
    destruct (mant_bounds q2 H2) as [_ L2]. specialize (L2 ltac:(
      pose proof (cexp_bounds q1 H1); lia)).
    apply Qle_trans with (F2Q (2 ^ prec) (cexp q1)); [now apply F2Q_mono|].
    apply Qle_trans with (F2Q (2 ^ (prec - 1)) (cexp q2)); [|now apply F2Q_mono].
    unfold F2Q. rewrite <- !pow2Q_nonneg by (unfold prec; lia).
    rewrite <- !pow2Q_add. apply pow2Q_le. lia.
Qed.

(** ** Overflow *)

Lemma F2Q_0 (e : Z) : (F2Q 0 e == 0)%Q.
Proof. unfold F2Q. ring. Qed.

Lemma F2Q_opp (m e : Z) : (F2Q (- m) e == - F2Q m e)%Q.
Proof. unfold F2Q. rewrite inject_Z_opp. ring. Qed.

Lemma overflow_iff (m e : Z) :
  0 < m ->
  (emax <=? Z.log2 (Z.abs m) + e) = true <-> (pow2Q emax <= F2Q m e)%Q.
Proof.
  intros Hm. rewrite Z.abs_eq by lia.
  destruct (log2_bounds (Z.to_pos m)) as [L U].
  rewrite Z2Pos.id in L, U by lia. set (l := Z.log2 m) in *.
  pose proof (pow2Q_pos e) as Pe. unfold F2Q.
  rewrite Z.leb_le. split; intros H.
  - apply Qle_trans with (pow2Q (l + e)); [apply pow2Q_le; lia|].
    rewrite pow2Q_add. nra.
  - destruct (Z_le_gt_dec emax (l + e)) as [|G]; [assumption|exfalso].
    pose proof (pow2Q_le (l + 1 + e) emax ltac:(lia)) as K.
    rewrite pow2Q_add in K. nra.
Qed.

Lemma RN_pos_cases (q : Q) :
  (0 < q)%Q ->
  (RN q = FFin (mant q) (cexp q) /\ 0 <= mant q /\ (rval q < pow2Q emax)%Q)
  \/ (RN q = FInf false /\ (pow2Q emax <= rval q)%Q).
Proof.
  intros Hq. destruct (mant_bounds q Hq) as [[M0 M1] ML].
  destruct (cexp_bounds q Hq) as (E0 & _ & _).
  rewrite RN_unfold by (apply Qnum_pos in Hq; lia). unfold rval.
  destruct (Z.eq_dec (mant q) 0) as [Z0|NZ].
  - assert (E : cexp q = emin).
    { destruct (Z.eq_dec (cexp q) emin); [assumption|].
      specialize (ML ltac:(lia)).
      assert (0 < 2 ^ (prec - 1)) by (apply Z.pow_pos_nonneg; unfold prec; lia).
      lia. }
    rewrite Z0, E. left. split; [reflexivity|]. split; [lia|].
    rewrite F2Q_0. apply pow2Q_pos.
  - pose proof (overflow_iff (mant q) (cexp q) ltac:(lia)) as O.
    destruct (emax <=? Z.log2 (Z.abs (mant q)) + cexp q).
    + right. split; [|now apply O].
      destruct (Z.ltb_spec (mant q) 0); [lia | reflexivity].
    + left. split; [reflexivity|]. split; [assumption|].
      apply Qnot_le_lt. intros K.
      apply O in K. discriminate.
Qed.

Lemma cexp_opp (q : Q) : cexp (- q) = cexp q.
Proof. destruct q as [n d]. unfold cexp; simpl. now rewrite Z.abs_opp. Qed.

Lemma scaled_opp (q : Q) (e : Z) : scaled (- q) e = (- scaled q e)%Q.
Proof.
  destruct q as [n d]. unfold scaled; simpl. unfold Qopp; simpl.
  now rewrite Z.mul_opp_l.
Qed.

Lemma mant_opp (q : Q) : mant (- q) = - mant q.
Proof. unfold mant. now rewrite cexp_opp, scaled_opp, Qrne_opp. Qed.

Lemma opp_involutive (x : float) : opp (opp x) = x.
Proof.
  destruct x as [m e|s|]; simpl; [|now rewrite negb_involutive | reflexivity].
  now rewrite Z.opp_involutive.
Qed.

Lemma RN_opp_pos (q : Q) : (0 < q)%Q -> RN (- q) = opp (RN q).
Proof.
  intros Hq. pose proof (proj1 (Qnum_pos q) Hq) as Hn.
  destruct (mant_bounds q Hq) as [[M0 M1] ML].
  destruct (cexp_bounds q Hq) as (E0 & _ & _).
  rewrite (RN_unfold q) by lia.
  rewrite RN_unfold by (destruct q; simpl in *; lia).
  rewrite mant_opp, cexp_opp, Z.abs_opp.
  destruct (Z.leb_spec emax (Z.log2 (Z.abs (mant q)) + cexp q)) as [O|O];
    [|reflexivity].
  simpl. f_equal.
  assert (0 < mant q).
  { destruct (Z.eq_dec (cexp q) emin) as [E|N].
    - rewrite E in O.
      assert (K : Z.log2 (Z.abs (mant q)) <= Z.log2 (2 ^ prec))
        by (apply Z.log2_le_mono; lia).
      rewrite Z.log2_pow2 in K by (unfold prec; lia).
      unfold emin, emax, prec in *. lia.
    - specialize (ML ltac:(lia)).
      assert (0 < 2 ^ (prec - 1)) by (apply Z.pow_pos_nonneg; unfold prec; lia).
      lia. }
  destruct (Z.ltb_spec (- mant q) 0), (Z.ltb_spec (mant q) 0); simpl; lia || reflexivity.
Qed.

Lemma Qopp_involutive' (q : Q) : (- - q)%Q = q.
Proof. destruct q as [n d]. unfold Qopp; simpl. now rewrite Z.opp_involutive. Qed.

Lemma RN_opp (q : Q) : RN (- q) = opp (RN q).
Proof.
  destruct (Z.compare_spec (Qnum q) 0) as [E|L|G].
  - destruct q as [n d]; simpl in E; subst. reflexivity.
  - assert (H : (0 < - q)%Q) by (apply Qnum_pos; destruct q; simpl in *; lia).
    pose proof (RN_opp_pos _ H) as K. rewrite Qopp_involutive' in K.
    rewrite K. now rewrite opp_involutive.
  - apply RN_opp_pos, Qnum_pos. lia.
Qed.

(** ** The order on floats *)

(** [fle x y]: neither is NaN and [x <= y] on the extended line. *)
Definition fle (x y : float) : Prop :=
  match x, y with
  | FNaN, _ | _, FNaN => False
  | FInf true, _ => True
  | _, FInf false => True
  | FFin m1 e1, FFin m2 e2 => (F2Q m1 e1 <= F2Q m2 e2)%Q
  | _, _ => False
  end.

Lemma fle_refl (x : float) : x <> FNaN -> fle x x.
Proof.
  destruct x as [m e|[|]|]; simpl; intros H; auto using Qle_refl; congruence.
Qed.

Lemma fle_trans (x y z : float) : fle x y -> fle y z -> fle x z.
Proof.
  destruct x as [m1 e1|[|]|], y as [m2 e2|[|]|], z as [m3 e3|[|]|];
    simpl; try tauto.
  apply Qle_trans.
Qed.

Lemma fle_opp (x y : float) : fle x y -> fle (opp y) (opp x).
Proof.
  destruct x as [m1 e1|[|]|], y as [m2 e2|[|]|]; simpl; try tauto.
  rewrite !F2Q_opp. intros H. lra.
Qed.

Lemma fle_FFin (m1 e1 m2 e2 : Z) :
  fle (FFin m1 e1) (FFin m2 e2) <-> (F2Q m1 e1 <= F2Q m2 e2)%Q.
Proof. reflexivity. Qed.

(** ** Rounding is monotone *)

Lemma RN_zero (q : Q) : Qnum q = 0 -> RN q = FFin 0 0.
Proof. intros H. unfold RN. now rewrite H. Qed.

Lemma RN_nonneg (q : Q) : (0 <= q)%Q -> fle (FFin 0 0) (RN q).
Proof.
  intros H. destruct (Z.eq_dec (Qnum q) 0) as [E|N].
  - rewrite (RN_zero q E). simpl. apply Qle_refl.
  - assert (Hq : (0 < q)%Q) by (apply Qnum_pos; apply Qnum_nonneg in H; lia).
    destruct (RN_pos_cases q Hq) as [(-> & M & _)|(-> & _)]; simpl; [|exact I].
    rewrite F2Q_0, <- (F2Q_0 (cexp q)). now apply F2Q_mono.
Qed.

Lemma RN_mono_pos (q1 q2 : Q) :
  (0 < q1)%Q -> (q1 <= q2)%Q -> fle (RN q1) (RN q2).
Proof.
  intros H1 H. assert (H2 : (0 < q2)%Q) by (eapply Qlt_le_trans; eassumption).
  pose proof (rval_mono_pos q1 q2 H1 H) as R.
  destruct (RN_pos_cases q1 H1) as [(-> & _ & B1)|(-> & B1)];
    destruct (RN_pos_cases q2 H2) as [(-> & _ & B2)|(-> & B2)]; simpl;
    try exact I.
  - exact R.
  - lra.
Qed.

Theorem RN_mono (q1 q2 : Q) : (q1 <= q2)%Q -> fle (RN q1) (RN q2).
Proof.
  intros H. destruct (Qlt_le_dec 0 q1) as [P1|N1].
  - now apply RN_mono_pos.
  - destruct (Qlt_le_dec q2 0) as [N2|P2].
    + assert (K : fle (RN (- q2)) (RN (- q1))) by (apply RN_mono_pos; lra).
      rewrite !RN_opp in K. apply fle_opp in K. now rewrite !opp_involutive in K.
    + apply fle_trans with (FFin 0 0); [|now apply RN_nonneg].
      assert (K : fle (FFin 0 0) (RN (- q1))) by (apply RN_nonneg; lra).
      rewrite RN_opp in K. apply fle_opp in K.
      now rewrite opp_involutive in K.
Qed.

(** Rounding depends on the value of the fraction only. *)
Lemma RN_compat_pos (q1 q2 : Q) :
  (0 < q1)%Q -> (q1 == q2)%Q -> RN q1 = RN q2.
Proof.
  intros H1 E. assert (H2 : (0 < q2)%Q) by now rewrite <- E.
  assert (Ec : cexp q1 = cexp q2).
  { apply Z.le_antisymm; apply cexp_mono; try assumption; rewrite E; apply Qle_refl. }
  assert (Em : mant q1 = mant q2).
  { unfold mant. rewrite Ec. apply Qrne_compat. now rewrite !scaled_eq, E. }
  rewrite !RN_unfold by (apply Qnum_pos in H1, H2; lia).
  now rewrite Ec, Em.
Qed.

Theorem RN_compat (q1 q2 : Q) : (q1 == q2)%Q -> RN q1 = RN q2.
Proof.
  intros E. destruct (Q_dec 0 q1) as [[P|N]|Z0].
  - now apply RN_compat_pos.
  - assert (K : RN (- q1) = RN (- q2)) by (apply RN_compat_pos; [lra | now rewrite E]).
    rewrite !RN_opp in K.
    rewrite <- (opp_involutive (RN q1)), K. apply opp_involutive.
  - assert (Z1 : Qnum q1 = 0).
    { assert (A : (0 <= q1)%Q) by (rewrite <- Z0; apply Qle_refl).
      assert (B : (q1 <= 0)%Q) by (rewrite <- Z0; apply Qle_refl).
      unfold Qle in A, B; simpl in A, B. lia. }
    assert (Z2 : Qnum q2 = 0).
    { assert (A : (0 <= q2)%Q) by (rewrite <- E, <- Z0; apply Qle_refl).
      assert (B : (q2 <= 0)%Q) by (rewrite <- E, <- Z0; apply Qle_refl).
      unfold Qle in A, B; simpl in A, B. lia. }
    now rewrite !RN_zero.
Qed.

(** ** Finite floats within bounds *)

(** [q] is a binary64 number. *)
Definition repr (q : Q) : Prop :=
  exists m e, RN q = FFin m e /\ (F2Q m e == q)%Q.

(** [x] is finite and its value lies in [[lo, hi]]. *)
Definition in_range (lo hi : Q) (x : float) : Prop :=
  exists m e, x = FFin m e /\ (lo <= F2Q m e <= hi)%Q.

Lemma RN_not_nan (q : Q) : RN q <> FNaN.
Proof.
  unfold RN. destruct (Qnum q =? 0); [discriminate|]. cbv zeta.
  destruct (emax <=? _); discriminate.
Qed.

Lemma RN_in_range (lo hi q : Q) :
  repr lo -> repr hi -> (lo <= q <= hi)%Q -> in_range lo hi (RN q).
Proof.
  intros (ml & el & Rl & Vl) (mh & eh & Rh & Vh) [L H].
  pose proof (RN_mono lo q L) as A. pose proof (RN_mono q hi H) as B.
  rewrite Rl in A. rewrite Rh in B.
  destruct (RN q) as [m e|[|]|]; simpl in A, B; try contradiction.
  exists m, e. split; [reflexivity|]. rewrite <- Vl, <- Vh. now split.
Qed.

Lemma in_range_weaken (lo hi lo' hi' : Q) (x : float) :
  in_range lo hi x -> (lo' <= lo)%Q -> (hi <= hi')%Q -> in_range lo' hi' x.
Proof.
  intros (m & e & -> & [A B]) L H. exists m, e. split; [reflexivity|].
  split; lra.
Qed.

Lemma mul_in_range (a b c d lo hi : Q) (x y : float) :
  in_range a b x -> in_range c d y -> repr lo -> repr hi ->
  (forall u v : Q, a <= u <= b -> c <= v <= d -> lo <= u * v <= hi)%Q ->
  in_range lo hi (mul x y).
Proof.
  intros (m1 & e1 & -> & Hx) (m2 & e2 & -> & Hy) Rl Rh K. simpl.
  apply RN_in_range; auto.
Qed.

Lemma add_in_range (a b c d lo hi : Q) (x y : float) :
  in_range a b x -> in_range c d y -> repr lo -> repr hi ->
  (lo <= a + c)%Q -> (b + d <= hi)%Q ->
  in_range lo hi (add x y).
Proof.
  intros (m1 & e1 & -> & Hx) (m2 & e2 & -> & Hy) Rl Rh L H. simpl.
  apply RN_in_range; auto. split; lra.
Qed.

Lemma opp_in_range (a b : Q) (x : float) :
  in_range a b x -> in_range (- b) (- a) (opp x).
Proof.
  intros (m & e & -> & Hx). exists (- m), e. split; [reflexivity|].
  rewrite F2Q_opp. split; lra.
Qed.

Lemma sub_in_range (a b c d lo hi : Q) (x y : float) :
  in_range a b x -> in_range c d y -> repr lo -> repr hi ->
  (lo <= a - d)%Q -> (b - c <= hi)%Q ->
  in_range lo hi (sub x y).
Proof.
  intros Hx Hy Rl Rh L H. unfold sub.
  apply (add_in_range a b (- d) (- c)); auto using opp_in_range; lra.
Qed.

Lemma in_range_exact (m e : Z) : in_range (F2Q m e) (F2Q m e) (FFin m e).
Proof. exists m, e. split; [reflexivity|]. split; apply Qle_refl. Qed.

(** ** Monotonicity of the operations *)

Lemma mul_mono_r (s es a ea b eb : Z) :
  (0 <= F2Q s es)%Q -> (F2Q a ea <= F2Q b eb)%Q ->
  fle (mul (FFin s es) (FFin a ea)) (mul (FFin s es) (FFin b eb)).
Proof. intros Hs H. simpl. apply RN_mono. nra. Qed.

Lemma add_mono_l (x y : float) (c ec : Z) :
  fle x y -> fle (add x (FFin c ec)) (add y (FFin c ec)).
Proof.
  destruct x as [m1 e1|[|]|], y as [m2 e2|[|]|]; simpl; try tauto.
  - intros H. apply RN_mono. lra.
  - intros _. destruct (RN _) as [m e|[|]|] eqn:E; simpl; auto.
    now apply RN_not_nan in E.
  - intros _. destruct (RN _) as [m e|[|]|] eqn:E; simpl; auto.
    now apply RN_not_nan in E.
Qed.

Lemma F2Q_frac (m e : Z) :
  ((m * 2 ^ Z.max 0 e) # Z.to_pos (2 ^ Z.max 0 (- e)) == F2Q m e)%Q.
Proof.
  assert (P : 0 < 2 ^ Z.max 0 (- e)) by (apply Z.pow_pos_nonneg; lia).
  rewrite Qmake_Qdiv, Z2Pos.id by lia. rewrite inject_Z_mult. unfold F2Q.
  pose proof (pow2Q_split e) as Sp.
  set (X := inject_Z (2 ^ Z.max 0 (- e))) in *.
  assert (PX : (0 < X)%Q) by (unfold X; rewrite <- (Zlt_Qlt 0); lia).
  rewrite <- Sp. field. intros Z0. rewrite Z0 in PX. now apply Qlt_irrefl in PX.
Qed.

Lemma round_float_FFin (m e : Z) : round_float (FFin m e) = Ok (Qrne (F2Q m e)).
Proof.
  simpl. f_equal. rewrite rne_Qrne by (apply Z.pow_pos_nonneg; lia).
  apply Qrne_compat, F2Q_frac.
Qed.

Lemma round_float_mono (x y : float) (rx ry : Z) :
  fle x y -> round_float x = Ok rx -> round_float y = Ok ry -> rx <= ry.
Proof.
  destruct x as [m1 e1|s1|], y as [m2 e2|s2|]; try discriminate.
  rewrite !round_float_FFin. intros H Hx Hy.
  inversion Hx; inversion Hy; subst. now apply Qrne_mono.
Qed.

Lemma round_float_nonneg (x : float) (r : Z) :
  fle (FFin 0 0) x -> round_float x = Ok r -> 0 <= r.
Proof.
  intros H. apply (round_float_mono (FFin 0 0) x 0 r H). reflexivity.
Qed.

(** ** Rounding fixes the grid *)

Lemma cexp_of_log (q : Q) (k : Z) :
  (pow2Q k <= q)%Q -> (q < pow2Q (k + 1))%Q ->
  cexp q = Z.max (k - (prec - 1)) emin.
Proof.
  intros L U.
  assert (Hq : (0 < q)%Q) by (pose proof (pow2Q_pos k); lra).
  destruct (ilog2_Q q Hq) as [L0 U0]. unfold cexp.
  set (k0 := ilog2 (Z.to_pos (Z.abs (Qnum q))) (Qden q)) in *.
  assert (k0 = k); [|now subst].
  destruct (Z.lt_trichotomy k0 k) as [H|[H|H]]; [exfalso|assumption|exfalso].
  - pose proof (pow2Q_le (k0 + 1) k ltac:(lia)). lra.
  - pose proof (pow2Q_le (k + 1) k0 ltac:(lia)). lra.
Qed.

(** A value that is an integer multiple of its own grid step is kept. *)
Lemma rval_on_grid (q : Q) (k : Z) :
  (q == F2Q k (cexp q))%Q -> (rval q == q)%Q.
Proof.
  intros H. unfold rval, mant.
  assert (E : (scaled q (cexp q) == inject_Z k)%Q).
  { rewrite scaled_eq. rewrite H at 1. unfold F2Q.
    rewrite <- Qmult_assoc, <- pow2Q_add.
    replace (cexp q + - cexp q) with 0 by lia. rewrite pow2Q_0. ring. }
  rewrite (Qrne_compat _ _ E), Qrne_Z. now symmetry.
Qed.

Lemma F2Q_shift (m e c : Z) :
  c <= e -> (F2Q m e == F2Q (m * 2 ^ (e - c)) c)%Q.
Proof.
  intros H. unfold F2Q. rewrite inject_Z_mult, <- pow2Q_nonneg by lia.
  rewrite <- Qmult_assoc, <- pow2Q_add. now replace (e - c + c) with e by lia.
Qed.

Lemma rval_grid (m e : Z) :
  0 < m <= 2 ^ prec -> emin <= e -> (rval (F2Q m e) == F2Q m e)%Q.
Proof.
  intros [M0 M1] He.
  destruct (log2_bounds (Z.to_pos m)) as [L U]. rewrite Z2Pos.id in L, U by lia.
  set (l := Z.log2 m) in *.
  pose proof (pow2Q_pos e) as Pe.
  assert (Lv : (pow2Q (l + e) <= F2Q m e)%Q) by (rewrite pow2Q_add; unfold F2Q; nra).
  assert (Uv : (F2Q m e < pow2Q (l + e + 1))%Q).
  { replace (l + e + 1) with (l + 1 + e) by lia. rewrite pow2Q_add. unfold F2Q. nra. }
  pose proof (cexp_of_log _ _ Lv Uv) as Ec.
  assert (Hl : l <= prec).
  { unfold l. rewrite <- (Z.log2_pow2 prec) by (unfold prec; lia).
    apply Z.log2_le_mono. lia. }
  destruct (Z.eq_dec m (2 ^ prec)) as [Em|Nm].
  - assert (l = prec) by (unfold l; rewrite Em; apply Z.log2_pow2; unfold prec; lia).
    apply (rval_on_grid _ (2 ^ (prec - 1))). rewrite Ec.
    replace (Z.max (l + e - (prec - 1)) emin) with (e + 1) by lia.
    rewrite Em. unfold F2Q. rewrite <- !pow2Q_nonneg by (unfold prec; lia).
    rewrite <- !pow2Q_add. now replace (prec - 1 + (e + 1)) with (prec + e) by lia.
  - assert (l < prec).
    { destruct (Z.eq_dec l prec) as [E|]; [|lia]. exfalso.
      rewrite E in L. rewrite pow2Q_prec, <- Zle_Qle in L. lia. }
    apply (rval_on_grid _ (m * 2 ^ (e - cexp (F2Q m e)))).
    apply F2Q_shift. rewrite Ec. lia.
Qed.

Lemma repr_grid (m e : Z) :
  0 <= m <= 2 ^ prec -> emin <= e -> (F2Q m e < pow2Q emax)%Q ->
  repr (F2Q m e).
Proof.
  intros [M0 M1] He Hb. destruct (Z.eq_dec m 0) as [->|Nm].
  - exists 0, 0. split; [|now rewrite !F2Q_0].
    apply RN_zero. unfold F2Q; simpl. lia.
  - pose proof (rval_grid m e ltac:(lia) He) as R.
    assert (Hv : (0 < F2Q m e)%Q).
    { unfold F2Q. pose proof (pow2Q_pos e).
      assert ((0 < inject_Z m)%Q) by (rewrite <- (Zlt_Qlt 0); lia). nra. }
    destruct (RN_pos_cases _ Hv) as [(E & _ & _)|(_ & B)].
    + eexists _, _. split; [exact E|exact R].
    + lra.
Qed.

Lemma repr_opp (q : Q) : repr q -> repr (- q).
Proof.
  intros (m & e & R & V). exists (- m), e. split.
  - now rewrite RN_opp, R.
  - rewrite F2Q_opp. now rewrite V.
Qed.

Lemma repr_compat (q1 q2 : Q) : (q1 == q2)%Q -> repr q1 -> repr q2.
Proof.
  intros E (m & e & R & V). exists m, e. split.
  - now rewrite <- (RN_compat _ _ E).
  - now rewrite <- E.
Qed.

(** Every finite result of [RN] is a binary64 number below [2^emax]. *)
Lemma RN_repr_pos (q : Q) (m e : Z) :
  (0 < q)%Q -> RN q = FFin m e ->
  repr (F2Q m e) /\ (0 <= F2Q m e < pow2Q emax)%Q.
Proof.
  intros Hq H. destruct (mant_bounds q Hq) as [[M0 M1] _].
  destruct (cexp_bounds q Hq) as (E0 & _ & _).
  destruct (RN_pos_cases q Hq) as [(E & _ & B)|(E & _)]; rewrite E in H;
    [|discriminate].
  inversion H; subst. unfold rval in B. split.
  - apply repr_grid; auto.
  - split; [|assumption]. rewrite <- (F2Q_0 (cexp q)). now apply F2Q_mono.
Qed.

Theorem RN_repr (q : Q) (m e : Z) : RN q = FFin m e -> repr (F2Q m e).
Proof.
  intros H. destruct (Q_dec 0 q) as [[P|N]|Z0].
  - now apply (RN_repr_pos q).
  - assert (K : RN (- q) = FFin (- m) e) by (rewrite RN_opp, H; reflexivity).
    apply RN_repr_pos in K; [|lra]. destruct K as [K _].
    apply repr_opp in K. eapply repr_compat; [|exact K].
    rewrite F2Q_opp. ring.
  - rewrite (RN_compat q 0) in H by now symmetry.
    inversion H; subst. exists 0, 0. split; reflexivity.
Qed.

Theorem RN_bounded (q : Q) (m e : Z) :
  RN q = FFin m e -> (- pow2Q emax < F2Q m e < pow2Q emax)%Q.
Proof.
  intros H. pose proof (pow2Q_pos emax) as P.
  destruct (Q_dec 0 q) as [[Pq|N]|Z0].
  - apply RN_repr_pos in H; [|assumption]. lra.
  - assert (K : RN (- q) = FFin (- m) e) by (rewrite RN_opp, H; reflexivity).
    apply RN_repr_pos in K; [|lra]. destruct K as [_ K].
    rewrite F2Q_opp in K. lra.
  - rewrite (RN_compat q 0) in H by now symmetry.
    inversion H; subst. rewrite F2Q_0. lra.
Qed.

(** A float below the exact result is below the rounded result. *)
Lemma RN_lower (m e : Z) (q : Q) :
  repr (F2Q m e) -> (F2Q m e <= q)%Q -> fle (FFin m e) (RN q).
Proof.
  intros (m' & e' & R & V) H. pose proof (RN_mono _ _ H) as K.
  rewrite R in K. destruct (RN q) as [mq eq|[|]|]; simpl in *; auto. lra.
Qed.

Lemma RN_upper (m e : Z) (q : Q) :
  repr (F2Q m e) -> (q <= F2Q m e)%Q -> fle (RN q) (FFin m e).
Proof.
  intros (m' & e' & R & V) H. pose proof (RN_mono _ _ H) as K.
  rewrite R in K. destruct (RN q) as [mq eq|[|]|]; simpl in *; auto. lra.
Qed.

(** ** Rounding at most doubles *)




(** ** The relative error of rounding *)

Lemma Qrne_near_lower (x : Q) : (x - (1 # 2) <= inject_Z (Qrne x))%Q.
Proof.
  destruct x as [n d]. unfold Qrne; simpl.
  destruct (rne_spec n (Zpos d) ltac:(lia)) as [A _].
  set (r := rne n (Zpos d)) in *.
  unfold Qle, Qminus, Qplus, Qopp; cbn. lia.
Qed.

Lemma cexp_normal (q : Q) : (1 <= q)%Q -> emin < cexp q.
Proof.
  intros H. assert (Hq : (0 < q)%Q) by lra.
  destruct (ilog2_Q q Hq) as [_ U]. unfold cexp.
  set (k := ilog2 (Z.to_pos (Z.abs (Qnum q))) (Qden q)) in *.
  assert (0 <= k).
  { destruct (Z_le_gt_dec 0 k) as [|G]; [assumption|exfalso].
    pose proof (pow2Q_le (k + 1) 0 ltac:(lia)) as K. rewrite pow2Q_0 in K. lra. }
  unfold emin, emax, prec. lia.
Qed.

(** From [1] on, rounding loses less than a thousandth. *)
Lemma RN_rel_lower (q : Q) (m e : Z) :
  (1 <= q)%Q -> RN q = FFin m e -> ((1023 # 1024) * q <= F2Q m e)%Q.
Proof.
  intros H1 H. assert (Hq : (0 < q)%Q) by lra.
  pose proof (cexp_normal q H1) as Hn.
  destruct (cexp_bounds q Hq) as (_ & _ & L). specialize (L Hn).
  rewrite RN_unfold in H by (apply Qnum_pos in Hq; lia).
  destruct (emax <=? _); [discriminate|]. inversion H; subst. clear H.
  pose proof (scaled_spec q (cexp q)) as S. pose proof (pow2Q_pos (cexp q)) as P.
  rewrite pow2Q_add in L.
  assert (E52 : (pow2Q (prec - 1) == inject_Z (2 ^ 52))%Q) by reflexivity.
  assert (B : (512 <= inject_Z (2 ^ 52))%Q) by (vm_compute; discriminate).
  pose proof (Qrne_near_lower (scaled q (cexp q))) as K.
  unfold mant, F2Q.
  set (x := scaled q (cexp q)) in *. set (p := pow2Q (cexp q)) in *.
  set (c := inject_Z (2 ^ 52)) in *. set (r := inject_Z (Qrne x)) in *.
  rewrite E52 in L.
  assert (X : (c <= x)%Q) by nra.
  rewrite <- S. nra.
Qed.

End Rounding.

(** * Properties *)

(** ** The error monad and list helpers *)

Lemma bind_Ok {A B : Type} (r : result A) (k : A -> result B) (b : B) :
  bind r k = Ok b -> exists a, r = Ok a /\ k a = Ok b.
Proof. destruct r as [a|e]; simpl; [eauto | discriminate]. Qed.

Ltac bind_inv H :=
  let a := fresh "v" in
  let Ha := fresh "Hv" in
  apply bind_Ok in H; destruct H as (a & Ha & H).

Lemma mapM_length {A B : Type} (f : A -> result B) (l : list A) (l' : list B) :
  mapM f l = Ok l' -> length l' = length l.
Proof.
  revert l'; induction l as [|a l IH]; simpl; intros l' H.
  - inversion H; reflexivity.
  - bind_inv H. bind_inv H. inversion H; subst; simpl.
    f_equal; apply IH; assumption.
Qed.

Lemma mapM_Forall2 {A B : Type} (f : A -> result B) (l : list A) (l' : list B) :
  mapM f l = Ok l' -> Forall2 (fun a b => f a = Ok b) l l'.
Proof.
  revert l'; induction l as [|a l IH]; simpl; intros l' H.
  - inversion H; constructor.
  - bind_inv H. bind_inv H. inversion H; subst. constructor; auto.
Qed.

Lemma range_length (n : Z) : length (range n) = Z.to_nat n.
Proof. unfold range. now rewrite length_map, length_seq. Qed.

Lemma add_at_length (i : nat) (d : Z) (l : list Z) :
  length (add_at i d l) = length l.
Proof.
  revert i; induction l as [|a l IH]; intros [|i]; simpl; auto.
Qed.

Lemma add_at_sum (i : nat) (d : Z) (l : list Z) :
  (i < length l)%nat -> sum (add_at i d l) = sum l + d.
Proof.
  revert i; induction l as [|a l IH]; intros [|i]; simpl; intros H; try lia.
  unfold sum in *; simpl. rewrite IH by lia. lia.
Qed.

Lemma fold_max_ge (l : list Z) (a : Z) : a <= fold_left Z.max l a.
Proof.
  revert a; induction l as [|b l IH]; simpl; intros a; [lia|].
  specialize (IH (Z.max a b)); lia.
Qed.

Lemma fold_max_In (l : list Z) (a : Z) :
  fold_left Z.max l a = a \/ In (fold_left Z.max l a) l.
Proof.
  revert a; induction l as [|b l IH]; simpl; intros a; [auto|].
  destruct (IH (Z.max a b)) as [H|H]; [|auto].
  rewrite H. destruct (Z.max_spec a b) as [[_ E]|[_ E]]; rewrite E; auto.
Qed.

Lemma fold_max_upper (l : list Z) (a x : Z) :
  In x l -> x <= fold_left Z.max l a.
Proof.
  revert a; induction l as [|b l IH]; simpl; intros a H; [contradiction|].
  destruct H as [H|H]; [|auto].
  subst. pose proof (fold_max_ge l (Z.max a x)); lia.
Qed.

Lemma list_max_In (l : list Z) : l <> [] -> In (list_max l) l.
Proof.
  destruct l as [|a l]; [congruence|]; intros _; simpl.
  destruct (fold_max_In l a) as [H|H]; [left; congruence | right; exact H].
Qed.

Lemma list_max_upper (l : list Z) (x : Z) : In x l -> x <= list_max l.
Proof.
  destruct l as [|a l]; simpl; [tauto|]; intros [H|H].
  - subst; apply fold_max_ge.
  - now apply fold_max_upper.
Qed.

Lemma index_lt (v : Z) (l : list Z) : In v l -> (index v l < length l)%nat.
Proof.
  induction l as [|a l IH]; simpl; [tauto|]; intros H.
  destruct (Z.eqb_spec a v); [lia|].
  destruct H as [H|H]; [congruence|]. specialize (IH H); lia.
Qed.

Lemma argmax_lt (l : list Z) : l <> [] -> (argmax l < length l)%nat.
Proof. intros H; apply index_lt, list_max_In, H. Qed.

(** ** schedule_by_shape: shape of the result *)

Lemma schedule_ints_length_sum (f : float -> float) (n t : Z) (l : list Z) :
  0 < n -> schedule_ints f n t = Ok l ->
  length l = Z.to_nat n /\ sum l = t.
Proof.
  intros Hn H. unfold schedule_ints in H.
  destruct (Z.eqb_spec n 1) as [->|Hn1].
  - inversion H; subst; simpl; split; [reflexivity | unfold sum; simpl; lia].
  - bind_inv H. bind_inv H. bind_inv H. bind_inv H.
    apply mapM_length in Hv, Hv2.
    rewrite range_length in Hv. rewrite !length_map, Hv in Hv2.
    assert (Hne : v2 <> []) by (intros ->; simpl in Hv2; lia).
    destruct (t - sum v2 <? 0); inversion H; subst; clear H;
      rewrite add_at_length; (split; [assumption|]);
      rewrite add_at_sum; try lia.
    apply argmax_lt, Hne.
Qed.

(** ** More on lists of counts *)

Lemma mapM_app {A B : Type} (f : A -> result B) (l1 l2 : list A) (r : list B) :
  mapM f (l1 ++ l2) = Ok r ->
  exists r1 r2, mapM f l1 = Ok r1 /\ mapM f l2 = Ok r2 /\ r = r1 ++ r2.
Proof.
  revert r; induction l1 as [|a l1 IH]; simpl; intros r H.
  - exists [], r. auto.
  - bind_inv H. bind_inv H. inversion H; subst; clear H.
    destruct (IH _ Hv0) as (r1 & r2 & E1 & E2 & ->).
    exists (v :: r1), r2. rewrite Hv, E1. simpl. auto.
Qed.

Lemma mapM_map {A B C : Type} (g : B -> result C) (h : A -> B) (l : list A) :
  mapM g (map h l) = mapM (fun a => g (h a)) l.
Proof. induction l as [|a l IH]; simpl; [reflexivity|]. now rewrite IH. Qed.

Lemma mapM_In {A B : Type} (f : A -> result B) (l : list A) (r : list B) (b : B) :
  mapM f l = Ok r -> In b r -> exists a, In a l /\ f a = Ok b.
Proof.
  revert r; induction l as [|a l IH]; simpl; intros r H Hb.
  - inversion H; subst. destruct Hb.
  - bind_inv H. bind_inv H. inversion H; subst; clear H.
    destruct Hb as [->|Hb]; [eauto|].
    destruct (IH _ Hv0 Hb) as (a' & Ha & E). eauto.
Qed.

Lemma mapM_total {A B : Type} (f : A -> result B) (l : list A) :
  (forall a, In a l -> exists b, f a = Ok b) -> exists r, mapM f l = Ok r.
Proof.
  induction l as [|a l IH]; simpl; intros H; [eauto|].
  destruct (H a (or_introl eq_refl)) as (b & Eb).
  destruct IH as (r & Er); [auto|]. rewrite Eb, Er. simpl. eauto.
Qed.

Lemma range_snoc (n : Z) : 0 < n -> range n = range (n - 1) ++ [n - 1].
Proof.
  intros H. unfold range.
  replace (Z.to_nat n) with (S (Z.to_nat (n - 1))) by lia.
  rewrite seq_S, map_app. simpl. f_equal. f_equal. lia.
Qed.

Lemma range_In (n i : Z) : In i (range n) <-> 0 <= i < n.
Proof.
  unfold range. rewrite in_map_iff. split.
  - intros (k & <- & Hk). apply in_seq in Hk. lia.
  - intros H. exists (Z.to_nat i). split; [lia|]. apply in_seq. lia.
Qed.

Lemma fold_min_le (l : list Z) (a : Z) : fold_left Z.min l a <= a.
Proof.
  revert a; induction l as [|b l IH]; simpl; intros a; [lia|].
  specialize (IH (Z.min a b)); lia.
Qed.

Lemma fold_min_In (l : list Z) (a : Z) :
  fold_left Z.min l a = a \/ In (fold_left Z.min l a) l.
Proof.
  revert a; induction l as [|b l IH]; simpl; intros a; [auto|].
  destruct (IH (Z.min a b)) as [H|H]; [|auto].
  rewrite H. destruct (Z.min_spec a b) as [[_ E]|[_ E]]; rewrite E; auto.
Qed.

Lemma fold_min_lower (l : list Z) (a x : Z) :
  In x l -> fold_left Z.min l a <= x.
Proof.
  revert a; induction l as [|b l IH]; simpl; intros a H; [contradiction|].
  destruct H as [H|H]; [|auto].
  subst. pose proof (fold_min_le l (Z.min a x)); lia.
Qed.

Lemma list_min_In (l : list Z) : l <> [] -> In (list_min l) l.
Proof.
  destruct l as [|a l]; [congruence|]; intros _; simpl.
  destruct (fold_min_In l a) as [H|H]; [left; congruence | right; exact H].
Qed.

Lemma list_min_lower (l : list Z) (x : Z) : In x l -> list_min l <= x.
Proof.
  destruct l as [|a l]; simpl; [tauto|]; intros [H|H].
  - subst; apply fold_min_le.
  - now apply fold_min_lower.
Qed.

(** The minimum is the one element below all others. *)
Lemma list_min_unique (l : list Z) (s : Z) :
  In s l -> (forall x, In x l -> s <= x) -> list_min l = s.
Proof.
  intros Hs Hl. apply Z.le_antisymm.
  - now apply list_min_lower.
  - apply Hl, list_min_In. intros ->. contradiction.
Qed.

Lemma add_at_snoc_last (l : list Z) (s d : Z) :
  add_at (length (l ++ [s]) - 1) d (l ++ [s]) = l ++ [s + d].
Proof.
  rewrite length_app. simpl. replace (length l + 1 - 1)%nat with (length l) by lia.
  induction l as [|a l IH]; simpl; [reflexivity|]. now rewrite IH.
Qed.

Lemma add_at_app_l (i : nat) (d : Z) (l1 l2 : list Z) :
  (i < length l1)%nat -> add_at i d (l1 ++ l2) = add_at i d l1 ++ l2.
Proof.
  revert i; induction l1 as [|a l1 IH]; simpl; intros i H; [lia|].
  destruct i as [|i]; simpl; [reflexivity|]. rewrite IH by lia. reflexivity.
Qed.

Lemma add_at_In (i : nat) (d x : Z) (l : list Z) :
  In x (add_at i d l) -> exists y, In y l /\ (x = y \/ x = y + d).
Proof.
  revert i; induction l as [|a l IH]; intros i H;
    [destruct i; simpl in H; contradiction|].
  destruct i as [|i]; simpl in H.
  - destruct H as [H|H].
    + exists a. simpl. auto.
    + exists x. simpl. auto.
  - destruct H as [H|H].
    + exists a. simpl. auto.
    + destruct (IH _ H) as (y & Hy & E). exists y. simpl. auto.
Qed.

Lemma index_app_l (v : Z) (l1 l2 : list Z) :
  In v l1 -> index v (l1 ++ l2) = index v l1.
Proof.
  induction l1 as [|a l1 IH]; simpl; [tauto|]; intros H.
  destruct (Z.eqb_spec a v); [reflexivity|].
  destruct H as [H|H]; [congruence|]. now rewrite IH.
Qed.

(** The first maximum of [l ++ [s]] lies in [l] when [s] is below all of [l]. *)
Lemma argmax_snoc_low (l : list Z) (s : Z) :
  l <> [] -> (forall x, In x l -> s <= x) ->
  (argmax (l ++ [s]) < length l)%nat.
Proof.
  intros Hne Hl. unfold argmax.
  assert (Hm : In (list_max (l ++ [s])) l).
  { destruct (in_app_or _ _ _ (list_max_In (l ++ [s]) ltac:(destruct l; discriminate)))
      as [H|[H|[]]]; [assumption|].
    destruct l as [|a l]; [congruence|].
    pose proof (list_max_upper ((a :: l) ++ [s]) a ltac:(left; reflexivity)) as U.
    pose proof (Hl a ltac:(left; reflexivity)) as L.
    rewrite <- H in *. assert (a = s) by lia. subst a. left. reflexivity. }
  rewrite index_app_l by assumption. now apply index_lt.
Qed.

(** The rounding-error fix keeps the last count the smallest when it was. *)
Lemma fix_keeps_last_min (l : list Z) (s err : Z) :
  l <> [] -> (forall x, In x l -> s <= x) ->
  let sets := l ++ [s] in
  let fixed := if err <? 0 then add_at (length sets - 1) err sets
               else add_at (argmax sets) err sets in
  list_min fixed = last fixed 0.
Proof.
  intros Hne Hl sets fixed. subst sets fixed.
  destruct (Z.ltb_spec err 0) as [Neg|Pos].
  - rewrite add_at_snoc_last, last_last.
    apply list_min_unique; [apply in_or_app; right; left; reflexivity|].
    intros x Hx. apply in_app_or in Hx. destruct Hx as [Hx|[<-|[]]]; [|lia].
    specialize (Hl x Hx). lia.
  - rewrite add_at_app_l by now apply argmax_snoc_low.
    rewrite last_last.
    apply list_min_unique; [apply in_or_app; right; left; reflexivity|].
    intros x Hx. apply in_app_or in Hx. destruct Hx as [Hx|[<-|[]]]; [|lia].
    apply add_at_In in Hx. destruct Hx as (y & Hy & [->| ->]);
      specialize (Hl y Hy); lia.
Qed.

(** * The shape distributor *)

Import Rounding.

Ltac prove_repr :=
  match goal with
  | |- repr ?q =>
      let r := eval vm_compute in (RN q) in
      match r with
      | FFin ?m ?e =>
          exists m, e; split; [vm_compute; reflexivity | vm_compute; reflexivity]
      end
  end.

Lemma repr_0 : repr 0.
Proof. prove_repr. Qed.
Lemma repr_4 : repr 4.
Proof. prove_repr. Qed.
Lemma repr_8 : repr 8.
Proof. prove_repr. Qed.
Lemma repr_12 : repr 12.
Proof. prove_repr. Qed.
Lemma repr_16 : repr 16.
Proof. prove_repr. Qed.
Lemma repr_m2 : repr (- (2)).
Proof. prove_repr. Qed.
Lemma repr_m4 : repr (- (4)).
Proof. prove_repr. Qed.

(** ** The sample points *)

Lemma int_truediv_Ok (a b : Z) (x : float) :
  int_truediv a b = Ok x -> b <> 0 /\ x = RN (inject_Z a / inject_Z b).
Proof.
  unfold int_truediv. destruct (Z.eqb_spec b 0); [discriminate|].
  destruct (RN _) as [m e|s|]; intros H; inversion H; auto.
Qed.

(** The fourth of the interval [[0, 4]] that sample [i] of [n] marks. *)
Lemma sample_bounds (n i : Z) :
  1 < n -> 0 <= i < n ->
  (0 <= inject_Z (i * 4) / inject_Z (n - 1) <= 4)%Q.
Proof.
  intros Hn Hi.
  assert (B : (0 < inject_Z (n - 1))%Q) by (rewrite <- (Zlt_Qlt 0); lia).
  split.
  - apply Qle_shift_div_l; [assumption|]. rewrite Qmult_0_l.
    rewrite <- (Zle_Qle 0). lia.
  - apply Qle_shift_div_r; [assumption|].
    change 4%Q with (inject_Z 4). rewrite <- inject_Z_mult, <- Zle_Qle. lia.
Qed.

Lemma sample_in_range (n i : Z) (x : float) :
  1 < n -> 0 <= i < n ->
  int_truediv (i * 4) (n - 1) = Ok x -> in_range 0 4 x.
Proof.
  intros Hn Hi H. apply int_truediv_Ok in H. destruct H as [_ ->].
  apply RN_in_range; [apply repr_0 | apply repr_4 | now apply sample_bounds].
Qed.

(** The last sample is exactly [4.0]. *)
Lemma sample_last (n : Z) (x : float) :
  1 < n -> int_truediv ((n - 1) * 4) (n - 1) = Ok x -> x = RN 4.
Proof.
  intros Hn H. apply int_truediv_Ok in H. destruct H as [_ ->].
  apply RN_compat. rewrite inject_Z_mult. change (inject_Z 4) with 4%Q.
  assert (B : (0 < inject_Z (n - 1))%Q) by (rewrite <- (Zlt_Qlt 0); lia).
  field. intros Z0. rewrite Z0 in B. now apply Qlt_irrefl in B.
Qed.

Lemma sample_total (n i : Z) :
  1 < n -> 0 <= i < n -> exists x, int_truediv (i * 4) (n - 1) = Ok x.
Proof.
  intros Hn Hi. unfold int_truediv.
  destruct (Z.eqb_spec (n - 1) 0); [lia|].
  destruct (RN_in_range 0 4 _ repr_0 repr_4 (sample_bounds n i Hn Hi))
    as (m & e & -> & _). eauto.
Qed.

(** ** The three shapes on [[0, 4]] *)

Lemma F_in_range (k : Z) : in_range (inject_Z k) (inject_Z k) (FFin k 0).
Proof.
  exists k, 0. split; [reflexivity|]. unfold F2Q.
  change (pow2Q 0) with 1%Q. rewrite Qmult_1_r. split; apply Qle_refl.
Qed.

Lemma double_in_range (x : float) :
  in_range 0 4 x -> in_range 0 8 (mul F2 x).
Proof.
  intros H. apply (mul_in_range 2 2 0 4); auto using repr_0, repr_8.
  - apply (F_in_range 2).
  - intros u v Hu Hv. split; nra.
Qed.

Lemma quadruple_in_range (x : float) :
  in_range 0 4 x -> in_range 0 16 (mul F4 x).
Proof.
  intros H. apply (mul_in_range 4 4 0 4); auto using repr_0, repr_16.
  - apply (F_in_range 4).
  - intros u v Hu Hv. split; nra.
Qed.

Lemma peak_in_middle_range (x : float) :
  in_range 0 4 x -> in_range (- (2)) 12 (peak_in_middle_function x).
Proof.
  intros H. unfold peak_in_middle_function. cbv zeta.
  pose proof (double_in_range x H) as D.
  destruct (leb x (FFin 2 0)).
  - apply (sub_in_range 0 8 2 2); auto using repr_m2, repr_12; try lra.
    apply (F_in_range 2).
  - apply (sub_in_range 6 6 0 8); auto using repr_m2, repr_12; try lra.
    apply (F_in_range 6).
Qed.

Lemma peak_toward_front_range (x : float) :
  in_range 0 4 x -> in_range (- (4)) 12 (peak_toward_front_function x).
Proof.
  intros H. unfold peak_toward_front_function. cbv zeta.
  destruct (leb x (FFin 2 0)).
  - apply in_range_weaken with 0%Q 8%Q; [now apply double_in_range | lra | lra].
  - apply (sub_in_range 12 12 0 16); auto using repr_m4, repr_12; try lra.
    + apply (F_in_range 12).
    + now apply quadruple_in_range.
Qed.

Lemma front_load_range (x : float) :
  in_range 0 4 x -> in_range (- (4)) 12 (front_load_function x).
Proof.
  intros H. unfold front_load_function. cbv zeta.
  destruct (ltb x (FFin 1 0)).
  - apply (sub_in_range 8 8 0 4); auto using repr_m4, repr_12; try lra.
    apply (F_in_range 8).
  - apply (sub_in_range 4 4 0 8); auto using repr_m4, repr_12; try lra.
    + apply (F_in_range 4).
    + now apply double_in_range.
Qed.

(** What a shape needs for the analysis below: on [[0, 4]] it stays
    finite, within [[floor, 12]], and it takes the value [floor] at [4.0]. *)
Record bounded_shape (f : float -> float) (floor : Q) : Prop := {
  shape_floor_nonpos : (- (4) <= floor <= 0)%Q;
  shape_range : forall x, in_range 0 4 x -> in_range floor 12 (f x);
  shape_at_4 : in_range floor floor (f (RN 4))
}.

Lemma peak_in_middle_bounded : bounded_shape peak_in_middle_function (- (2)).
Proof.
  split; [lra | apply peak_in_middle_range |].
  vm_compute. eexists _, _. split; [reflexivity|]. split; discriminate.
Qed.

Lemma peak_toward_front_bounded : bounded_shape peak_toward_front_function (- (4)).
Proof.
  split; [lra | apply peak_toward_front_range |].
  vm_compute. eexists _, _. split; [reflexivity|]. split; discriminate.
Qed.

Lemma front_load_bounded : bounded_shape front_load_function (- (4)).
Proof.
  split; [lra | apply front_load_range |].
  vm_compute. eexists _, _. split; [reflexivity|]. split; discriminate.
Qed.

Lemma builtin_shapes_bounded (f : float -> float) :
  In f DISTRO_SHAPE_FUNCTIONS -> exists floor, bounded_shape f floor.
Proof.
  intros [<-|[<-|[<-|[]]]];
    eauto using peak_in_middle_bounded, peak_toward_front_bounded, front_load_bounded.
Qed.

(** ** The raw counts *)

Lemma int_truediv_finite (a b : Z) (x : float) :
  int_truediv a b = Ok x -> exists m e, x = FFin m e.
Proof.
  unfold int_truediv. destruct (Z.eqb_spec b 0); [discriminate|].
  destruct (RN _) as [m e|s|] eqn:E; intros H; inversion H; subst; eauto.
  now apply RN_not_nan in E.
Qed.

Lemma average_nonneg (t n m e : Z) :
  0 < n -> 0 <= t -> int_truediv t n = Ok (FFin m e) -> (0 <= F2Q m e)%Q.
Proof.
  intros Hn Ht H. apply int_truediv_Ok in H. destruct H as [_ E].
  assert (Q0 : (0 <= inject_Z t / inject_Z n)%Q).
  { apply Qle_shift_div_l; [rewrite <- (Zlt_Qlt 0); lia|].
    rewrite Qmult_0_l, <- (Zle_Qle 0). lia. }
  pose proof (RN_nonneg _ Q0) as K. rewrite <- E in K. simpl in K.
  now rewrite F2Q_0 in K.
Qed.

Lemma F2Q_20 : (F2Q 20 0 == 20)%Q.
Proof. reflexivity. Qed.

(** [set_average / 20] is never negative. *)
Lemma scale_nonneg (m e : Z) (scale : float) :
  (0 <= F2Q m e)%Q -> float_truediv (FFin m e) (FFin 20 0) = Ok scale ->
  fle (FFin 0 0) scale.
Proof.
  intros H0 H. unfold float_truediv in H. simpl in H. inversion H; subst.
  apply RN_nonneg. rewrite F2Q_20. apply Qle_shift_div_l; lra.
Qed.

(** One raw count: [round(diff_scale * distro_shape(x) + set_average)]. *)
Definition raw_count (f : float -> float) (scale avg x : float) : result Z :=
  round_float (add (mul scale (f x)) avg).

Lemma schedule_ints_unfold (f : float -> float) (n t : Z) (l : list Z) :
  n <> 1 -> schedule_ints f n t = Ok l ->
  exists xs avg scale sets,
    mapM (fun i => int_truediv (i * 4) (n - 1)) (range n) = Ok xs
    /\ int_truediv t n = Ok avg
    /\ float_truediv avg (FFin 20 0) = Ok scale
    /\ mapM (raw_count f scale avg) xs = Ok sets
    /\ l = (if t - sum sets <? 0
            then add_at (length sets - 1) (t - sum sets) sets
            else add_at (argmax sets) (t - sum sets) sets).
Proof.
  intros Hn H. unfold schedule_ints in H.
  destruct (Z.eqb_spec n 1); [contradiction|].
  bind_inv H. bind_inv H. bind_inv H. bind_inv H.
  rewrite !mapM_map in Hv2.
  exists v, v0, v1, v2. repeat split; try assumption.
  destruct (t - sum v2 <? 0); now inversion H.
Qed.

(** With a finite non-negative scale, a larger shape value gives a count at
    least as large. *)
Lemma raw_count_mono (f : float -> float) (floor : Q) (sc es a ea : Z)
      (x4 x : float) (s y : Z) :
  in_range floor floor (f x4) -> in_range floor 12 (f x) ->
  (0 <= F2Q sc es)%Q ->
  raw_count f (FFin sc es) (FFin a ea) x4 = Ok s ->
  raw_count f (FFin sc es) (FFin a ea) x = Ok y ->
  s <= y.
Proof.
  intros (m4 & e4 & E4 & V4) (mx & ex & Ex & Vx) Hs H4 Hx.
  unfold raw_count in *. rewrite E4 in H4. rewrite Ex in Hx.
  eapply round_float_mono; [|exact H4|exact Hx].
  apply add_mono_l, mul_mono_r; [assumption|]. lra.
Qed.

(** An infinite scale would make the count at [4.0] fail. *)
Lemma scale_finite (f : float -> float) (floor : Q) (scale : float) (a ea s : Z) :
  in_range floor floor (f (RN 4)) ->
  fle (FFin 0 0) scale ->
  raw_count f scale (FFin a ea) (RN 4) = Ok s ->
  exists sc es, scale = FFin sc es /\ (0 <= F2Q sc es)%Q.
Proof.
  intros (m4 & e4 & E4 & V4) H0 H. unfold raw_count in H. rewrite E4 in H.
  destruct scale as [sc es|[|]|]; simpl in H0; try contradiction.
  - exists sc, es. split; [reflexivity|]. now rewrite F2Q_0 in H0.
  - destruct m4; simpl in H; discriminate.
Qed.

(** The raw counts end with their smallest element. *)
Lemma raw_counts_last_min (f : float -> float) (floor : Q) (n t : Z)
      (xs : list float) (avg scale : float) (sets : list Z) :
  bounded_shape f floor -> 1 < n -> 0 <= t ->
  mapM (fun i => int_truediv (i * 4) (n - 1)) (range n) = Ok xs ->
  int_truediv t n = Ok avg ->
  float_truediv avg (FFin 20 0) = Ok scale ->
  mapM (raw_count f scale avg) xs = Ok sets ->
  exists sets' s, sets = sets' ++ [s] /\ sets' <> []
                  /\ forall y, In y sets' -> s <= y.
Proof.
  intros [Hfl Hrange H4] Hn Ht Hxs Havg Hscale Hsets.
  rewrite (range_snoc n) in Hxs by lia.
  apply mapM_app in Hxs. destruct Hxs as (xs' & xl & Hxs' & Hxl & ->).
  simpl in Hxl. bind_inv Hxl. inversion Hxl; subst xl; clear Hxl.
  apply sample_last in Hv; [|assumption]. subst v.
  apply mapM_app in Hsets. destruct Hsets as (sets' & sl & Hsets' & Hsl & ->).
  simpl in Hsl. bind_inv Hsl. inversion Hsl; subst sl; clear Hsl.
  rename v into s, Hv into Hs.
  destruct (int_truediv_finite _ _ _ Havg) as (a & ea & ->).
  pose proof (average_nonneg t n a ea ltac:(lia) Ht Havg) as Ha.
  pose proof (scale_nonneg a ea scale Ha Hscale) as Hsc0.
  destruct (scale_finite f floor scale a ea s H4 Hsc0 Hs) as (sc & es & -> & Hsc).
  exists sets', s. split; [reflexivity|]. split.
  - apply mapM_length in Hxs', Hsets'. rewrite range_length in Hxs'.
    intros ->. simpl in Hsets'. lia.
  - intros y Hy.
    destruct (mapM_In _ _ _ _ Hsets' Hy) as (x & Hx & Ey).
    destruct (mapM_In _ _ _ _ Hxs' Hx) as (i & Hi & Ex).
    apply range_In in Hi.
    assert (Rx : in_range 0 4 x) by (apply (sample_in_range n i); [lia | lia | exact Ex]).
    eapply raw_count_mono; eauto.
Qed.

(** ** When the distributor returns *)

Lemma repr_p1000 : repr (inject_Z (2 ^ 1000)).
Proof. prove_repr. Qed.
Lemma repr_p1001 : repr (inject_Z (2 ^ 1001)).
Proof. prove_repr. Qed.
Lemma repr_p996 : repr (inject_Z (2 ^ 996)).
Proof. prove_repr. Qed.
Lemma repr_m1000 : repr (- inject_Z (2 ^ 1000)).
Proof. apply repr_opp, repr_p1000. Qed.

Lemma int_truediv_in_range (a b : Z) (lo hi : Q) :
  b <> 0 -> repr lo -> repr hi ->
  (lo <= inject_Z a / inject_Z b <= hi)%Q ->
  exists x, int_truediv a b = Ok x /\ in_range lo hi x.
Proof.
  intros Hb Rl Rh H. unfold int_truediv.
  destruct (Z.eqb_spec b 0); [contradiction|].
  pose proof (RN_in_range lo hi _ Rl Rh H) as K.
  destruct K as (m & e & E & V). rewrite E.
  exists (FFin m e). split; [reflexivity|]. exists m, e. auto.
Qed.

Lemma schedule_ints_fold (f : float -> float) (n t : Z)
      (xs : list float) (avg scale : float) (sets : list Z) :
  n <> 1 ->
  mapM (fun i => int_truediv (i * 4) (n - 1)) (range n) = Ok xs ->
  int_truediv t n = Ok avg ->
  float_truediv avg (FFin 20 0) = Ok scale ->
  mapM (raw_count f scale avg) xs = Ok sets ->
  schedule_ints f n t
  = Ok (if t - sum sets <? 0
        then add_at (length sets - 1) (t - sum sets) sets
        else add_at (argmax sets) (t - sum sets) sets).
Proof.
  intros Hn Hxs Havg Hscale Hsets. unfold schedule_ints.
  destruct (Z.eqb_spec n 1); [contradiction|].
  rewrite Hxs. cbn [bind]. rewrite Havg. cbn [bind]. rewrite Hscale. cbn [bind].
  rewrite !mapM_map. unfold raw_count in Hsets. rewrite Hsets. cbn [bind].
  destruct (t - sum sets <? 0); reflexivity.
Qed.

Lemma average_in_range (n t : Z) :
  0 < n -> 0 <= t <= 2 ^ 1000 ->
  (0 <= inject_Z t / inject_Z n <= inject_Z (2 ^ 1000))%Q.
Proof.
  intros Hn Ht.
  assert (B : (0 < inject_Z n)%Q) by (rewrite <- (Zlt_Qlt 0); lia).
  split.
  - apply Qle_shift_div_l; [assumption|]. rewrite Qmult_0_l, <- (Zle_Qle 0). lia.
  - apply Qle_shift_div_r; [assumption|].
    rewrite <- inject_Z_mult, <- Zle_Qle. nia.
Qed.

Lemma scale_in_range (a ea : Z) :
  (0 <= F2Q a ea <= inject_Z (2 ^ 1000))%Q ->
  in_range 0 (inject_Z (2 ^ 996)) (div (FFin a ea) (FFin 20 0)).
Proof.
  intros H. cbn [div]. apply RN_in_range; [apply repr_0 | apply repr_p996 |].
  rewrite F2Q_20.
  assert (E : (inject_Z (2 ^ 1000) == 16 * inject_Z (2 ^ 996))%Q)
    by (vm_compute; reflexivity).
  set (A := inject_Z (2 ^ 996)) in *. set (B := inject_Z (2 ^ 1000)) in *.
  set (v := F2Q a ea) in *.
  split.
  - apply Qle_shift_div_l; lra.
  - apply Qle_shift_div_r; lra.
Qed.

Lemma raw_count_total (f : float -> float) (floor : Q)
      (scale avg x : float) :
  (- (4) <= floor <= 0)%Q ->
  in_range floor 12 (f x) ->
  in_range 0 (inject_Z (2 ^ 996)) scale ->
  in_range 0 (inject_Z (2 ^ 1000)) avg ->
  exists r, raw_count f scale avg x = Ok r.
Proof.
  intros Hfl Hf Hs Ha. unfold raw_count.
  assert (E : (inject_Z (2 ^ 1000) == 16 * inject_Z (2 ^ 996))%Q)
    by (vm_compute; reflexivity).
  assert (E1 : (inject_Z (2 ^ 1001) == 32 * inject_Z (2 ^ 996))%Q)
    by (vm_compute; reflexivity).
  assert (P : (0 < inject_Z (2 ^ 996))%Q) by (vm_compute; reflexivity).
  pose proof repr_m1000 as Rm. pose proof repr_p1000 as Rp.
  pose proof repr_p1001 as Rp1.
  set (A := inject_Z (2 ^ 996)) in *. set (B := inject_Z (2 ^ 1000)) in *.
  set (C := inject_Z (2 ^ 1001)) in *.
  assert (M : in_range (- B) B (mul scale (f x))).
  { apply (mul_in_range 0 A floor 12); auto.
    intros u v Hu Hv. split; nra. }
  assert (S : in_range (- B) C (add (mul scale (f x)) avg)).
  { apply (add_in_range _ _ _ _ _ _ _ _ M Ha); auto; lra. }
  destruct S as (m & e & -> & _). rewrite round_float_FFin. eauto.
Qed.

Lemma schedule_ints_total (f : float -> float) (floor : Q) (n t : Z) :
  bounded_shape f floor -> 0 < n -> 0 <= t <= 2 ^ 1000 ->
  exists l, schedule_ints f n t = Ok l.
Proof.
  intros [Hfl Hrange _] Hn Ht.
  destruct (Z.eq_dec n 1) as [->|N1]; [exists [t]; reflexivity|].
  destruct (mapM_total (fun i => int_truediv (i * 4) (n - 1)) (range n))
    as (xs & Hxs).
  { intros i Hi. apply range_In in Hi. apply sample_total; lia. }
  destruct (int_truediv_in_range t n 0 (inject_Z (2 ^ 1000)))
    as (avg & Havg & Ra); auto using repr_0, repr_p1000, average_in_range; [lia|].
  destruct Ra as (a & ea & -> & Va).
  assert (Hscale : float_truediv (FFin a ea) (FFin 20 0)
                   = Ok (div (FFin a ea) (FFin 20 0))) by reflexivity.
  pose proof (scale_in_range a ea Va) as Rs.
  destruct (mapM_total (raw_count f (div (FFin a ea) (FFin 20 0)) (FFin a ea)) xs)
    as (sets & Hsets).
  { intros x Hx. destruct (mapM_In _ _ _ _ Hxs Hx) as (i & Hi & Ex).
    apply range_In in Hi.
    apply (raw_count_total f floor); auto.
    - apply Hrange. apply (sample_in_range n i); [lia | lia | exact Ex].
    - exists a, ea. auto. }
  rewrite (schedule_ints_fold f n t xs _ _ sets N1 Hxs Havg Hscale Hsets). eauto.
Qed.

(** ** The three canonical days *)

(** C7: the ideal five-set days are reproduced exactly:
    [schedule_by_shape] on (peak_in_middle, 5, 98), (peak_toward_front, 5, 102)
    and (front_load, 5, 100) returns [18,20,22,20,18], [20,22,24,20,16] and
    [28,22,20,18,12]. *)
Theorem canonical_days :
  schedule_by_shape peak_in_middle_function (PInt 5) (PInt 98)
    = Ok [18; 20; 22; 20; 18]
  /\ schedule_by_shape peak_toward_front_function (PInt 5) (PInt 102)
    = Ok [20; 22; 24; 20; 16]
  /\ schedule_by_shape front_load_function (PInt 5) (PInt 100)
    = Ok [28; 22; 20; 18; 12].
Proof.
  split; [|split].
  - (* x = 0,1,2,3,4; average 19.6, scale 0.98 *)
    vm_compute. reflexivity.
  - vm_compute. reflexivity.
  - (* the raw counts sum to 104; the last set gives the 4 back *)
    vm_compute. reflexivity.
Qed.

(** ** Growth accumulation *)

(** The rate of day [i] in the endlessly repeated sequence. *)
Definition day_rate (i : nat) : float :=
  nth (i mod length DAY_INCREASES) DAY_INCREASES FNaN.

(** [r_0 * r_1 * ... * r_(n-1)], multiplied left to right as floats. *)
Definition rate_product (n : nat) : pynum :=
  match n with
  | O => PInt 1
  | S n' => PFloat (fold_left mul (map day_rate (seq 1 n')) (day_rate 0))
  end.

Lemma take_cycle_snoc {A : Type} (n : nat) (l : list A) (a : A) :
  nth_error l (n mod length l) = Some a ->
  take_cycle (S n) l = take_cycle n l ++ [a].
Proof.
  intros H. unfold take_cycle. rewrite seq_S, flat_map_app. simpl.
  now rewrite H.
Qed.

Lemma day_rate_nth (n : nat) :
  nth_error (map PFloat DAY_INCREASES) (n mod length (map PFloat DAY_INCREASES))
  = Some (PFloat (day_rate n)).
Proof.
  unfold day_rate. rewrite length_map.
  assert (H : (n mod length DAY_INCREASES < length DAY_INCREASES)%nat)
    by (apply Nat.mod_upper_bound; discriminate).
  rewrite nth_error_map.
  rewrite (nth_error_nth' DAY_INCREASES FNaN H). reflexivity.
Qed.

Lemma math_prod_snoc (l : list pynum) (x : pynum) :
  math_prod (l ++ [x]) = (a <- math_prod l ;; py_mul a x).
Proof. unfold math_prod. now rewrite fold_left_app. Qed.

Lemma math_prod_rates (n : nat) :
  math_prod (take_cycle n (map PFloat DAY_INCREASES)) = Ok (rate_product n).
Proof.
  induction n as [|n IH]; [reflexivity|].
  rewrite (take_cycle_snoc _ _ _ (day_rate_nth n)), math_prod_snoc, IH.
  destruct n as [|n]; [vm_compute; reflexivity|].
  unfold rate_product. rewrite seq_S, map_app, fold_left_app. reflexivity.
Qed.

Lemma total_increase_after_nat (n : nat) :
  Z.of_nat n <= sys_maxsize ->
  get_total_increase_after_days (Z.of_nat n) = Ok (rate_product n).
Proof.
  intros Hn. unfold get_total_increase_after_days.
  destruct (Z.ltb_spec (Z.of_nat n) 0) as [H|_]; [lia|].
  destruct (Z.ltb_spec sys_maxsize (Z.of_nat n)) as [H|_]; [lia|].
  cbn [orb]. rewrite Nat2Z.id. apply math_prod_rates.
Qed.

(** A day count is accepted exactly between [0] and [sys.maxsize]. *)
Lemma total_increase_rejects (d : Z) :
  d < 0 \/ sys_maxsize < d -> get_total_increase_after_days d = Err ValueError.
Proof.
  intros H. unfold get_total_increase_after_days.
  destruct (Z.ltb_spec d 0); [reflexivity|].
  destruct (Z.ltb_spec sys_maxsize d); [reflexivity|lia].
Qed.

Lemma total_increase_Ok (d : Z) (v : pynum) :
  get_total_increase_after_days d = Ok v -> 0 <= d <= sys_maxsize.
Proof.
  unfold get_total_increase_after_days.
  destruct (Z.ltb_spec d 0); [discriminate|].
  destruct (Z.ltb_spec sys_maxsize d); [discriminate|]. lia.
Qed.

(** C9 as stated fails for day counts no list can hold: past [sys.maxsize]
    the call raises [ValueError] instead of returning a product. *)
Lemma day_count_beyond_maxsize :
  get_total_increase_after_days (2 ^ 63) = Err ValueError.
Proof. vm_compute. reflexivity. Qed.

(** C9, amended: for every day count [n] up to [sys.maxsize] the increase
    after [n] days is the product of the first [n] rates of the cycled
    sequence; after 4 days it is r0*r1*r2*r0 and after 8 days
    r0*r1*r2*r0*r1*r2*r0*r1. *)
Theorem total_increase_is_cyclic_product :
  (forall n : nat, Z.of_nat n <= sys_maxsize ->
      get_total_increase_after_days (Z.of_nat n) = Ok (rate_product n))
  /\ (forall r0 r1 r2 : float, DAY_INCREASES = [r0; r1; r2] ->
      get_total_increase_after_days 4
        = Ok (PFloat (mul (mul (mul r0 r1) r2) r0))
      /\ get_total_increase_after_days 8
        = Ok (PFloat (mul (mul (mul (mul (mul (mul (mul r0 r1) r2) r0) r1) r2) r0) r1))).
Proof.
  pose proof total_increase_after_nat as G.
  split; [exact G|].
  intros r0 r1 r2 E. split.
  - rewrite (G 4%nat ltac:(vm_compute; discriminate)
             : get_total_increase_after_days 4 = _).
    unfold rate_product, day_rate. rewrite E. reflexivity.
  - rewrite (G 8%nat ltac:(vm_compute; discriminate)
             : get_total_increase_after_days 8 = _).
    unfold rate_product, day_rate. rewrite E. reflexivity.
Qed.

(** * The claims about schedule_by_shape *)

Lemma schedule_by_shape_ints (f : float -> float) (n t : Z) :
  0 < n -> 0 <= t ->
  schedule_by_shape f (PInt n) (PInt t) = schedule_ints f n t.
Proof.
  intros Hn Ht. unfold schedule_by_shape, py_le0, py_lt0.
  destruct (Z.leb_spec n 0); [lia|]. destruct (Z.ltb_spec t 0); [lia|].
  reflexivity.
Qed.

(** C8: for each built-in shape and every valid pair [(num_set, total)],
    the minimum of the list [schedule_by_shape] returns equals its last
    element: the final set is never harder than any other. *)
Theorem last_set_is_easiest (f : float -> float) (n t : Z) (l : list Z) :
  In f DISTRO_SHAPE_FUNCTIONS -> 0 < n -> 0 <= t ->
  schedule_by_shape f (PInt n) (PInt t) = Ok l ->
  list_min l = last l 0.
Proof.
  intros Hf Hn Ht H. rewrite schedule_by_shape_ints in H by assumption.
  destruct (builtin_shapes_bounded f Hf) as (floor & Hb).
  destruct (Z.eq_dec n 1) as [->|N1].
  - (* a single set: the list is [total] *)
    unfold schedule_ints in H. simpl in H. inversion H. reflexivity.
  - destruct (schedule_ints_unfold f n t l N1 H)
      as (xs & avg & scale & sets & Hxs & Havg & Hscale & Hsets & ->).
    destruct (raw_counts_last_min f floor n t xs avg scale sets Hb ltac:(lia) Ht
                Hxs Havg Hscale Hsets)
      as (sets' & s & -> & Hne & Hmin).
    exact (fix_keeps_last_min sets' s (t - sum (sets' ++ [s])) Hne Hmin).
Qed.

Lemma last_set_is_easiest_witness :
  list_min [18; 20; 22; 20; 18] = last [18; 20; 22; 20; 18] 0.
Proof.
  apply (last_set_is_easiest peak_in_middle_function 5 98).
  - left. reflexivity.
  - lia.
  - lia.
  - vm_compute. reflexivity.
Defined.

(** C1 as stated fails: a total too large for a float makes the average
    overflow, and [schedule_by_shape] raises instead of returning. *)
Lemma huge_total_overflows :
  schedule_by_shape peak_in_middle_function (PInt 2) (PInt (2 ^ 1025))
  = Err OverflowError.
Proof. vm_compute. reflexivity. Qed.

(** C1, amended: for each built-in shape, every [num_set > 0] and every
    [total >= 0], a single set gives [[total]]; up to [total = 2^1000] a list
    is returned; and every list returned has [num_set] entries that sum to
    [total]. *)
Theorem distribution_length_and_sum (f : float -> float) (n t : Z) :
  In f DISTRO_SHAPE_FUNCTIONS -> 0 < n -> 0 <= t ->
  (n = 1 -> schedule_by_shape f (PInt n) (PInt t) = Ok [t])
  /\ (t <= 2 ^ 1000 -> exists l, schedule_by_shape f (PInt n) (PInt t) = Ok l)
  /\ (forall l, schedule_by_shape f (PInt n) (PInt t) = Ok l ->
      length l = Z.to_nat n /\ sum l = t).
Proof.
  intros Hf Hn Ht. rewrite schedule_by_shape_ints by assumption.
  destruct (builtin_shapes_bounded f Hf) as (floor & Hb).
  split; [|split].
  - intros ->. reflexivity.
  - intros Hbig. apply (schedule_ints_total f floor); auto.
  - intros l H. now apply (schedule_ints_length_sum f).
Qed.

Lemma distribution_length_and_sum_witness :
  (5 = 1 -> schedule_by_shape front_load_function (PInt 5) (PInt 100) = Ok [100])
  /\ (100 <= 2 ^ 1000 ->
      exists l, schedule_by_shape front_load_function (PInt 5) (PInt 100) = Ok l)
  /\ (forall l, schedule_by_shape front_load_function (PInt 5) (PInt 100) = Ok l ->
      length l = Z.to_nat 5 /\ sum l = 100).
Proof.
  apply (distribution_length_and_sum front_load_function 5 100).
  - right. right. left. reflexivity.
  - lia.
  - lia.
Defined.

(** ** Which exceptions a valid call can raise *)

Lemma bind_Err {A B : Type} (r : result A) (k : A -> result B) (e : exn) :
  bind r k = Err e -> r = Err e \/ exists a, r = Ok a /\ k a = Err e.
Proof. destruct r as [a|e']; simpl; intros H; [eauto | left; congruence]. Qed.

Lemma mapM_Err {A B : Type} (f : A -> result B) (l : list A) (e : exn) :
  mapM f l = Err e -> exists a, In a l /\ f a = Err e.
Proof.
  induction l as [|a l IH]; simpl; intros H; [discriminate|].
  apply bind_Err in H. destruct H as [H|(b & Hb & H)].
  - exists a. auto.
  - apply bind_Err in H. destruct H as [H|(bs & Hbs & H)]; [|discriminate].
    destruct (IH H) as (a' & Ha & E). eauto.
Qed.

Lemma int_truediv_Err (a b : Z) (e : exn) :
  b <> 0 -> int_truediv a b = Err e -> e = OverflowError.
Proof.
  intros Hb. unfold int_truediv. destruct (Z.eqb_spec b 0); [contradiction|].
  destruct (RN _); intros H; inversion H; reflexivity.
Qed.

Lemma repr_p1020 : repr (inject_Z (2 ^ 1020)).
Proof. prove_repr. Qed.

(** The scale [set_average / 20] is finite whatever the average. *)
Lemma scale_always_finite (t n a ea : Z) :
  0 < n -> 0 <= t -> int_truediv t n = Ok (FFin a ea) ->
  in_range 0 (inject_Z (2 ^ 1020)) (div (FFin a ea) (FFin 20 0)).
Proof.
  intros Hn Ht H. pose proof (average_nonneg t n a ea Hn Ht H) as H0.
  apply int_truediv_Ok in H. destruct H as [_ E]. symmetry in E.
  apply RN_bounded in E. destruct E as [_ U].
  change (pow2Q emax) with (inject_Z (2 ^ 1024)) in U.
  cbn [div]. apply RN_in_range; [apply repr_0 | apply repr_p1020 |].
  rewrite F2Q_20.
  assert (E : (inject_Z (2 ^ 1024) == 16 * inject_Z (2 ^ 1020))%Q)
    by (vm_compute; reflexivity).
  set (A := inject_Z (2 ^ 1020)) in *. set (B := inject_Z (2 ^ 1024)) in *.
  set (v := F2Q a ea) in *.
  split.
  - apply Qle_shift_div_l; lra.
  - apply Qle_shift_div_r; lra.
Qed.

Lemma raw_count_Err (f : float -> float) (floor : Q) (sc es a ea : Z)
      (x : float) (e : exn) :
  in_range floor 12 (f x) ->
  raw_count f (FFin sc es) (FFin a ea) x = Err e -> e = OverflowError.
Proof.
  unfold raw_count. intros (m & ex & -> & _). cbn [mul].
  destruct (RN (F2Q sc es * F2Q m ex)) as [p ep|s|] eqn:E.
  - cbn [add].
    destruct (RN (F2Q p ep + F2Q a ea)) as [r er|s|] eqn:E'; simpl; intros H;
      inversion H; [reflexivity|]. now apply RN_not_nan in E'.
  - simpl. intros H. inversion H. reflexivity.
  - now apply RN_not_nan in E.
Qed.

(** A call with valid integers either returns or raises [OverflowError]. *)
Lemma schedule_ints_Err (f : float -> float) (floor : Q) (n t : Z) (e : exn) :
  bounded_shape f floor -> 0 < n -> 0 <= t ->
  schedule_ints f n t = Err e -> e = OverflowError.
Proof.
  intros [Hfl Hrange _] Hn Ht H. unfold schedule_ints in H.
  destruct (Z.eqb_spec n 1); [discriminate|].
  apply bind_Err in H. destruct H as [H|(xs & Hxs & H)].
  { apply mapM_Err in H. destruct H as (i & Hi & H).
    eapply int_truediv_Err; [|exact H]. lia. }
  apply bind_Err in H. destruct H as [H|(avg & Havg & H)].
  { eapply int_truediv_Err; [|exact H]. lia. }
  destruct (int_truediv_finite _ _ _ Havg) as (a & ea & ->).
  pose proof (scale_always_finite t n a ea Hn Ht Havg) as (sc & es & Esc & _).
  assert (Hs : float_truediv (FFin a ea) (FFin 20 0)
               = Ok (div (FFin a ea) (FFin 20 0))) by reflexivity.
  rewrite Hs, Esc in H. cbn [bind] in H.
  apply bind_Err in H. destruct H as [H|(sets & Hsets & H)].
  - rewrite !mapM_map in H. apply mapM_Err in H. destruct H as (x & Hx & H).
    destruct (mapM_In _ _ _ _ Hxs Hx) as (i & Hi & Ex). apply range_In in Hi.
    apply (raw_count_Err f floor sc es a ea x); [|exact H].
    apply Hrange. apply (sample_in_range n i); [lia | lia | exact Ex].
  - destruct (t - sum sets <? 0); discriminate.
Qed.

(** * The argument check *)

Definition is_int (v : pynum) : bool :=
  match v with PInt _ => true | PFloat _ => false end.

(** The arguments the spec calls invalid: a set count [<= 0], a total [< 0],
    or either one not an integer. *)
Definition rejected (num_set total : pynum) : Prop :=
  py_le0 num_set = true \/ py_lt0 total = true
  \/ is_int num_set = false \/ is_int total = false.

Lemma rejected_raises (f : float -> float) (num_set total : pynum) :
  rejected num_set total -> schedule_by_shape f num_set total = Err ValueError.
Proof.
  unfold rejected, schedule_by_shape. intros H.
  destruct (py_le0 num_set) eqn:E1; [reflexivity|].
  destruct (py_lt0 total) eqn:E2; [reflexivity|]. simpl.
  destruct num_set, total; try reflexivity.
  simpl in H. destruct H as [H|[H|[H|H]]]; discriminate.
Qed.

Lemma accepted_are_valid_ints (num_set total : pynum) :
  ~ rejected num_set total ->
  exists n t, num_set = PInt n /\ total = PInt t /\ 0 < n /\ 0 <= t.
Proof.
  unfold rejected. intros H. destruct num_set as [n|x], total as [t|y];
    try (exfalso; apply H; simpl; auto; fail).
  exists n, t. simpl in H.
  destruct (Z.leb_spec n 0); [tauto|]. destruct (Z.ltb_spec t 0); [tauto|].
  repeat split; auto.
Qed.

(** C5 as stated fails: valid integers are not always answered with a
    list, because the float average can overflow. *)
Lemma valid_call_can_overflow :
  schedule_by_shape front_load_function (PInt 3) (PInt (2 ^ 1030))
  = Err OverflowError.
Proof. vm_compute. reflexivity. Qed.

(** C5, amended: for each built-in shape, [schedule_by_shape] raises
    [ValueError] exactly when [num_set <= 0], or [total < 0], or either is not
    an integer; other calls return a list whenever [total <= 2^1000], and the
    only exception they can raise is [OverflowError]. *)
Theorem argument_check (f : float -> float) (num_set total : pynum) :
  In f DISTRO_SHAPE_FUNCTIONS ->
  (schedule_by_shape f num_set total = Err ValueError <-> rejected num_set total)
  /\ (forall n t, num_set = PInt n -> total = PInt t ->
      0 < n -> 0 <= t <= 2 ^ 1000 ->
      exists l, schedule_by_shape f num_set total = Ok l)
  /\ (forall e, ~ rejected num_set total ->
      schedule_by_shape f num_set total = Err e -> e = OverflowError).
Proof.
  intros Hf. destruct (builtin_shapes_bounded f Hf) as (floor & Hb).
  assert (Only : forall e, ~ rejected num_set total ->
            schedule_by_shape f num_set total = Err e -> e = OverflowError).
  { intros e Hv H.
    destruct (accepted_are_valid_ints _ _ Hv) as (n & t & -> & -> & Hn & Ht).
    rewrite schedule_by_shape_ints in H by assumption.
    now apply (schedule_ints_Err f floor n t). }
  split; [split|split].
  - intros H.
    destruct (py_le0 num_set) eqn:E1; [left; assumption|].
    destruct (py_lt0 total) eqn:E2; [right; left; assumption|].
    destruct (is_int num_set) eqn:E3; [|right; right; left; assumption].
    destruct (is_int total) eqn:E4; [|right; right; right; assumption].
    exfalso.
    assert (Hv : ~ rejected num_set total).
    { unfold rejected. rewrite E1, E2, E3, E4. intuition discriminate. }
    specialize (Only _ Hv H). discriminate.
  - apply rejected_raises.
  - intros n t -> -> Hn [Ht Hbig].
    rewrite schedule_by_shape_ints by assumption.
    apply (schedule_ints_total f floor); auto.
  - exact Only.
Qed.

Lemma argument_check_witness :
  (schedule_by_shape peak_toward_front_function (PFloat (FFin 11 (-1))) (PInt 20)
   = Err ValueError <-> rejected (PFloat (FFin 11 (-1))) (PInt 20))
  /\ (forall n t, PFloat (FFin 11 (-1)) = PInt n -> PInt 20 = PInt t ->
      0 < n -> 0 <= t <= 2 ^ 1000 ->
      exists l, schedule_by_shape peak_toward_front_function
                  (PFloat (FFin 11 (-1))) (PInt 20) = Ok l)
  /\ (forall e, ~ rejected (PFloat (FFin 11 (-1))) (PInt 20) ->
      schedule_by_shape peak_toward_front_function (PFloat (FFin 11 (-1))) (PInt 20)
      = Err e -> e = OverflowError).
Proof.
  apply (argument_check peak_toward_front_function).
  right. left. reflexivity.
Defined.

(** * Signs of the counts *)






(** * The progression planner *)

Section ProgressionFacts.

Variable libm_log : float -> float.

Lemma get_progression_inv (starting_max : pynum) (goal : Z) (l : list (list Z)) :
  get_progression libm_log starting_max goal = Ok l ->
  exists starting_average est_required_inc est_weeks starting_total days,
    (sa <- py_mul (PFloat RATIO_OF_MAX_FOR_N_SETS) starting_max ;; to_float sa)
      = Ok starting_average
    /\ py_truediv (PInt goal) (PFloat starting_average) = Ok est_required_inc
    /\ estimate_weeks libm_log est_required_inc = Ok est_weeks
    /\ (scaled <- py_mul (PFloat starting_average) (PInt N_SETS) ;; py_round scaled)
       = Ok starting_total
    /\ takewhile_days N_SETS starting_total goal (range (DAYS_PER_WEEK * est_weeks))
       = Ok days
    /\ l = days ++ [[goal]].
Proof.
  unfold get_progression. intros H.
  bind_inv H. bind_inv H. bind_inv H. bind_inv H. bind_inv H. bind_inv H.
  bind_inv H. inversion H; subst; clear H.
  exists v0, v1, v2, v4, v5. rewrite Hv, Hv3. cbn [bind]. repeat split; assumption.
Qed.

(** What [takewhile] keeps: a prefix of the candidate days, each below the
    goal, and stopped by the first day that is not. *)
Lemma takewhile_days_spec (n_sets total goal : Z) (cands : list Z)
      (days : list (list Z)) :
  takewhile_days n_sets total goal cands = Ok days ->
  Forall2 (fun d sets => day_schedule n_sets total d = Ok sets
                         /\ list_max sets < goal)
          (firstn (length days) cands) days
  /\ (length days <= length cands)%nat
  /\ (forall d, nth_error cands (length days) = Some d ->
      exists sets, day_schedule n_sets total d = Ok sets /\ goal <= list_max sets).
Proof.
  revert days; induction cands as [|d cands IH]; simpl; intros days H.
  - inversion H; subst; simpl. split; [constructor|]. split; [lia|].
    intros d Hd. discriminate.
  - bind_inv H. destruct (Z.ltb_spec (list_max v) goal) as [Lt|Ge].
    + bind_inv H. inversion H; subst; clear H.
      destruct (IH _ Hv0) as (F & L & S). simpl. split; [|split].
      * constructor; auto.
      * lia.
      * exact S.
    + inversion H; subst; clear H. simpl. split; [constructor|]. split; [lia|].
      intros d' Hd'. inversion Hd'; subst. eauto.
Qed.

End ProgressionFacts.

Lemma Forall2_right {A B : Type} (P : A -> B -> Prop) (Q : B -> Prop)
      (l : list A) (r : list B) :
  (forall a b, P a b -> Q b) -> Forall2 P l r -> Forall Q r.
Proof. intros H F. induction F; constructor; eauto. Qed.

(** C4: the last element of a returned progression is the single-element
    schedule [[goal]], every training day before it has its maximum strictly
    below [goal], and the candidate day that stopped the list, if there is
    one, has a maximum of at least [goal] and is left out. *)
Theorem goal_day_closes_progression (libm_log : float -> float)
        (starting_max : pynum) (goal : Z) (l : list (list Z)) :
  get_progression libm_log starting_max goal = Ok l ->
  exists days starting_total est_weeks,
    l = days ++ [[goal]]
    /\ last l [] = [goal]
    /\ Forall (fun sets => list_max sets < goal) days
    /\ takewhile_days N_SETS starting_total goal
         (range (DAYS_PER_WEEK * est_weeks)) = Ok days
    /\ forall d, nth_error (range (DAYS_PER_WEEK * est_weeks)) (length days)
                 = Some d ->
        exists sets, day_schedule N_SETS starting_total d = Ok sets
                     /\ goal <= list_max sets.
Proof.
  intros H.
  destruct (get_progression_inv libm_log starting_max goal l H)
    as (sa & inc & w & T & days & _ & _ & _ & _ & Hdays & ->).
  destruct (takewhile_days_spec _ _ _ _ _ Hdays) as (F & _ & S).
  exists days, T, w. split; [reflexivity|]. split; [apply last_last|].
  split; [|split; [exact Hdays | exact S]].
  eapply Forall2_right; [|exact F]. intros d sets [_ Hlt]. exact Hlt.
Qed.

(** [get_progression(10, 100)] under the reference logarithm. *)
Definition progression_10_100 : list (list Z) :=
  [[5; 6; 8; 6; 5]; [7; 7; 8; 7; 5]; [10; 8; 7; 7; 5];
   [7; 8; 11; 8; 7]; [9; 10; 11; 9; 7]; [14; 11; 10; 9; 7];
   [10; 11; 14; 11; 10]; [13; 14; 15; 13; 8]; [20; 15; 14; 13; 8];
   [14; 15; 19; 15; 14]; [17; 19; 21; 17; 13]; [27; 21; 19; 17; 11];
   [19; 21; 25; 21; 19]; [24; 26; 28; 24; 16]; [36; 29; 26; 23; 16];
   [26; 29; 33; 29; 26]; [32; 36; 39; 32; 23]; [50; 39; 36; 32; 21];
   [35; 39; 48; 39; 35]; [44; 49; 53; 44; 32]; [68; 54; 49; 44; 29];
   [48; 54; 64; 54; 48]; [61; 67; 73; 61; 41]; [93; 73; 67; 60; 40];
   [66; 73; 88; 73; 66]; [83; 91; 99; 83; 58]; [100]].

Lemma progression_10_100_run :
  get_progression RefLog.ref_log (PInt 10) 100 = Ok progression_10_100.
Proof. vm_compute. reflexivity. Qed.

Lemma goal_day_closes_progression_witness :
  exists days starting_total est_weeks,
    progression_10_100 = days ++ [[100]]
    /\ last progression_10_100 [] = [100]
    /\ Forall (fun sets => list_max sets < 100) days
    /\ takewhile_days N_SETS starting_total 100
         (range (DAYS_PER_WEEK * est_weeks)) = Ok days
    /\ forall d, nth_error (range (DAYS_PER_WEEK * est_weeks)) (length days)
                 = Some d ->
        exists sets, day_schedule N_SETS starting_total d = Ok sets
                     /\ 100 <= list_max sets.
Proof.
  apply (goal_day_closes_progression RefLog.ref_log (PInt 10) 100).
  vm_compute. reflexivity.
Defined.

(** C10 as stated fails: with a starting maximum near the top of the float
    range the starting total [round(starting_average * 5)] is infinite, and
    the planner raises instead of returning. *)
Lemma astronomic_start_overflows :
  get_progression RefLog.ref_log (PInt (2 ^ 1023)) (2 ^ 1023)
  = Err OverflowError.
Proof. vm_compute. reflexivity. Qed.

(** Every progression the planner returns is at most
    [DAYS_PER_WEEK * est_weeks] training days followed by the goal day: it
    looks at the candidate days [0 .. DAYS_PER_WEEK * est_weeks - 1] only. *)
Theorem returned_progression_bounded (libm_log : float -> float)
        (starting_max : pynum) (goal : Z) (l : list (list Z)) :
  get_progression libm_log starting_max goal = Ok l ->
  exists starting_average est_required_inc est_weeks days,
    (sa <- py_mul (PFloat RATIO_OF_MAX_FOR_N_SETS) starting_max ;; to_float sa)
      = Ok starting_average
    /\ py_truediv (PInt goal) (PFloat starting_average) = Ok est_required_inc
    /\ estimate_weeks libm_log est_required_inc = Ok est_weeks
    /\ l = days ++ [[goal]]
    /\ Z.of_nat (length days) <= Z.max 0 (DAYS_PER_WEEK * est_weeks).
Proof.
  intros H.
  destruct (get_progression_inv libm_log starting_max goal l H)
    as (sa & inc & w & T & days & Hsa & Hinc & Hw & _ & Hdays & ->).
  exists sa, inc, w, days. repeat split; try assumption.
  destruct (takewhile_days_spec _ _ _ _ _ Hdays) as (_ & L & _).
  rewrite range_length in L. lia.
Qed.

Lemma returned_progression_bounded_witness :
  exists starting_average est_required_inc est_weeks days,
    (sa <- py_mul (PFloat RATIO_OF_MAX_FOR_N_SETS) (PInt 10) ;; to_float sa)
      = Ok starting_average
    /\ py_truediv (PInt 100) (PFloat starting_average) = Ok est_required_inc
    /\ estimate_weeks RefLog.ref_log est_required_inc = Ok est_weeks
    /\ progression_10_100 = days ++ [[100]]
    /\ Z.of_nat (length days) <= Z.max 0 (DAYS_PER_WEEK * est_weeks).
Proof.
  apply (returned_progression_bounded RefLog.ref_log (PInt 10) 100).
  vm_compute. reflexivity.
Defined.

(** ** Degenerate inputs *)




(** * Day totals along a progression *)

(** The cumulative increase after [n + 1] days, as a float. *)
Definition growth (n : nat) : float :=
  fold_left mul (map day_rate (seq 1 n)) (day_rate 0).

(** [round(get_total_increase_after_days(day) * starting_total)] *)
Definition day_total (starting_total day : Z) : result Z :=
  increase <- get_total_increase_after_days day ;;
  scaled <- py_mul increase (PInt starting_total) ;;
  py_round scaled.

Lemma growth_S (n : nat) : growth (S n) = mul (growth n) (day_rate (S n)).
Proof. unfold growth. rewrite seq_S, map_app, fold_left_app. reflexivity. Qed.

Lemma repr_1 : repr (F2Q 1 0).
Proof. prove_repr. Qed.

(** Every daily rate is a float of value at least [1]. *)
Lemma day_rate_facts (i : nat) :
  exists r er, day_rate i = FFin r er /\ (1 <= F2Q r er)%Q.
Proof.
  assert (F : Forall (fun x => exists r er, x = FFin r er /\ (1 <= F2Q r er)%Q)
                     DAY_INCREASES).
  { repeat constructor; eexists _, _; (split; [vm_compute; reflexivity|]);
      vm_compute; discriminate. }
  rewrite Forall_forall in F. apply F. unfold day_rate. apply nth_In.
  apply Nat.mod_upper_bound. discriminate.
Qed.

Lemma mul_finite (x y : float) (m e : Z) :
  mul x y = FFin m e ->
  exists mx ex my ey, x = FFin mx ex /\ y = FFin my ey.
Proof.
  destruct x as [mx ex|sx|], y as [my ey|sy|]; simpl; intros H;
    try discriminate; eauto 6.
  - destruct mx; discriminate.
  - destruct my; discriminate.
Qed.

Lemma growth_facts (n : nat) (g ge : Z) :
  growth n = FFin g ge -> repr (F2Q g ge) /\ (1 <= F2Q g ge)%Q.
Proof.
  revert g ge; induction n as [|n IH]; intros g ge H.
  - unfold growth in H. simpl in H.
    destruct (day_rate_facts 0) as (r & er & E & V). rewrite E in H.
    inversion H; subst. split; [|exact V].
    unfold day_rate in E. simpl in E. now apply RN_repr in E.
  - rewrite growth_S in H.
    destruct (mul_finite _ _ _ _ H) as (g0 & ge0 & r & er & Eg & Er).
    destruct (IH _ _ Eg) as [_ V0].
    destruct (day_rate_facts (S n)) as (r' & er' & E' & Vr).
    rewrite Er in E'. inversion E'; subst r' er'.
    rewrite Eg, Er in H. cbn [mul] in H. split; [now apply RN_repr in H|].
    assert (K : fle (FFin 1 0) (RN (F2Q g0 ge0 * F2Q r er))).
    { apply RN_lower; [apply repr_1|]. change (F2Q 1 0) with 1%Q. nra. }
    rewrite H in K. simpl in K. exact K.
Qed.

Lemma growth_mono (n : nat) (g ge g' ge' : Z) :
  growth n = FFin g ge -> growth (S n) = FFin g' ge' ->
  (F2Q g ge <= F2Q g' ge')%Q.
Proof.
  intros H H'. destruct (growth_facts n g ge H) as [R V].
  destruct (day_rate_facts (S n)) as (r & er & Er & Vr).
  rewrite growth_S, H, Er in H'. cbn [mul] in H'.
  assert (K : fle (FFin g ge) (RN (F2Q g ge * F2Q r er))).
  { apply RN_lower; [exact R|]. nra. }
  rewrite H' in K. exact K.
Qed.

Lemma int_to_float_Ok (z : Z) (y : float) :
  int_to_float z = Ok y -> exists m e, y = FFin m e /\ RN (inject_Z z) = FFin m e.
Proof.
  unfold int_to_float, of_Z. destruct (RN (inject_Z z)) as [m e|s|] eqn:E;
    intros H; inversion H; subst; eauto.
  now apply RN_not_nan in E.
Qed.

Lemma day_total_0 (T : Z) : day_total T 0 = Ok T.
Proof. unfold day_total. simpl. f_equal. destruct T; reflexivity. Qed.

Lemma day_total_S (T : Z) (n : nat) :
  Z.of_nat (S n) <= sys_maxsize ->
  day_total T (Z.of_nat (S n))
  = (y <- int_to_float T ;; round_float (mul (growth n) y)).
Proof.
  intros Hn. unfold day_total. rewrite total_increase_after_nat by exact Hn.
  cbn [bind rate_product].
  fold (growth n). unfold py_mul. cbn [to_float bind].
  destruct (int_to_float T); reflexivity.
Qed.

(** Only day counts [islice] accepts have a total. *)
Lemma day_total_Ok (T d x : Z) : day_total T d = Ok x -> 0 <= d <= sys_maxsize.
Proof.
  unfold day_total. intros H. bind_inv H.
  now apply total_increase_Ok in Hv.
Qed.

(** From day 0 to day 1 the total does not go down. *)
Lemma first_step (T b : Z) : 0 <= T -> day_total T 1 = Ok b -> T <= b.
Proof.
  intros HT H. change 1 with (Z.of_nat 1) in H.
  rewrite day_total_S in H by (vm_compute; discriminate).
  bind_inv H. destruct (int_to_float_Ok _ _ Hv) as (tm & te & -> & ET).
  destruct (growth_facts 0 _ _ (eq_refl : growth 0 = FFin _ _)) as [_ V0].
  change (growth 0) with (FFin 5089067578928660 (-52)) in H.
  assert (G0 : (9 # 8 <= F2Q 5089067578928660 (-52))%Q) by (vm_compute; discriminate).
  set (v0 := F2Q 5089067578928660 (-52)) in *.
  cbn [mul] in H. fold v0 in H.
  assert (VT : (0 <= F2Q tm te)%Q).
  { pose proof (RN_nonneg (inject_Z T) ltac:(rewrite <- (Zle_Qle 0); lia)) as K.
    rewrite ET in K. simpl in K. now rewrite F2Q_0 in K. }
  destruct (Z.eq_dec T 0) as [->|NZ].
  - eapply round_float_nonneg; [|exact H]. apply RN_nonneg. nra.
  - assert (Q1 : (1 <= inject_Z T)%Q) by (rewrite <- (Zle_Qle 1); lia).
    pose proof (RN_rel_lower _ _ _ Q1 ET) as RT.
    destruct (RN (v0 * F2Q tm te)) as [p pe|s|] eqn:EP; try discriminate.
    rewrite round_float_FFin in H. inversion H; subst b.
    assert (Q2 : (1 <= v0 * F2Q tm te)%Q) by nra.
    pose proof (RN_rel_lower _ _ _ Q2 EP) as RP.
    apply Qrne_ge. nra.
Qed.

(** From day [n + 1] to day [n + 2] the total does not go down. *)
Lemma later_step (T : Z) (n : nat) (a b : Z) :
  0 <= T ->
  day_total T (Z.of_nat (S n)) = Ok a ->
  day_total T (Z.of_nat (S (S n))) = Ok b ->
  a <= b.
Proof.
  intros HT Ha Hb.
  pose proof (day_total_Ok _ _ _ Ha) as Ba. pose proof (day_total_Ok _ _ _ Hb) as Bb.
  rewrite day_total_S in Ha by lia. rewrite day_total_S in Hb by lia.
  bind_inv Ha. destruct (int_to_float_Ok _ _ Hv) as (tm & te & -> & ET).
  rewrite Hv in Hb. cbn [bind] in Hb.
  assert (VT : (0 <= F2Q tm te)%Q).
  { pose proof (RN_nonneg (inject_Z T) ltac:(rewrite <- (Zle_Qle 0); lia)) as K.
    rewrite ET in K. simpl in K. now rewrite F2Q_0 in K. }
  destruct (mul (growth n) (FFin tm te)) as [p pe|s|] eqn:EP; try discriminate.
  destruct (mul (growth (S n)) (FFin tm te)) as [p' pe'|s|] eqn:EP'; try discriminate.
  destruct (mul_finite _ _ _ _ EP) as (g & ge & _ & _ & Eg & _).
  destruct (mul_finite _ _ _ _ EP') as (g' & ge' & _ & _ & Eg' & _).
  pose proof (growth_mono n g ge g' ge' Eg Eg') as M.
  destruct (growth_facts n g ge Eg) as [_ V].
  eapply round_float_mono; [|exact Ha|exact Hb].
  rewrite <- EP, <- EP', Eg, Eg'. cbn [mul]. apply RN_mono. nra.
Qed.

Lemma schedule_by_shape_Ok_sum (f : float -> float) (n total : Z) (sets : list Z) :
  schedule_by_shape f (PInt n) (PInt total) = Ok sets ->
  0 <= total /\ sum sets = total.
Proof.
  unfold schedule_by_shape, py_le0, py_lt0.
  destruct (Z.leb_spec n 0) as [|Hn]; [discriminate|].
  destruct (Z.ltb_spec total 0) as [|Ht]; [discriminate|]. simpl. intros Hs.
  split; [assumption|]. now apply (schedule_ints_length_sum f n total sets).
Qed.

(** A day's sets sum to that day's total. *)
Lemma day_schedule_sum (n_sets T d : Z) (sets : list Z) :
  day_schedule n_sets T d = Ok sets ->
  exists total, day_total T d = Ok total /\ 0 <= total /\ sum sets = total.
Proof.
  unfold day_schedule, day_total. intros H.
  bind_inv H. bind_inv H. bind_inv H. rewrite Hv. cbn [bind]. rewrite Hv0.
  cbn [bind]. rewrite Hv1. exists v1. split; [reflexivity|].
  destruct (nth_error DAY_SCHEDULES _) as [fn|] eqn:E; [|discriminate].
  apply nth_error_In in E.
  destruct E as [<-|[<-|[<-|[]]]]; now apply schedule_by_shape_Ok_sum in H.
Qed.

Lemma firstn_seq_min (k a n : nat) :
  firstn k (seq a n) = seq a (Nat.min k n).
Proof.
  revert a n; induction k as [|k IH]; intros a [|n]; simpl; try reflexivity.
  now rewrite IH.
Qed.

Lemma firstn_range (k : nat) (N : Z) :
  firstn k (range N) = map Z.of_nat (seq 0 (Nat.min k (Z.to_nat N))).
Proof. unfold range. now rewrite firstn_map, firstn_seq_min. Qed.

Lemma consecutive_step (T : Z) (a : nat) (x y : Z) :
  0 <= T ->
  day_total T (Z.of_nat a) = Ok x -> day_total T (Z.of_nat (S a)) = Ok y ->
  x <= y.
Proof.
  intros HT Hx Hy. destruct a as [|a].
  - rewrite day_total_0 in Hx. inversion Hx; subst. now apply first_step.
  - now apply (later_step T a).
Qed.

Lemma totals_sorted (n_sets T goal : Z) (k a : nat) (days : list (list Z)) :
  0 <= T ->
  Forall2 (fun d sets => day_schedule n_sets T d = Ok sets
                         /\ list_max sets < goal)
          (map Z.of_nat (seq a k)) days ->
  Sorted Z.le (map sum days).
Proof.
  intros HT. revert a days; induction k as [|k IH]; intros a days F.
  - inversion F; subst. constructor.
  - simpl in F. inversion F as [|d s ds tl [Hs _] Ftl]; subst. simpl.
    constructor; [now apply (IH (S a))|].
    destruct k as [|k]; simpl in Ftl; inversion Ftl as [|d' s' ds' tl' [Hs' _] _];
      subst; simpl; constructor.
    destruct (day_schedule_sum _ _ _ _ Hs) as (x & Hx & _ & ->).
    destruct (day_schedule_sum _ _ _ _ Hs') as (y & Hy & _ & ->).
    now apply (consecutive_step T a).
Qed.

(** C3: the code breaks the claim, and what the repository's own test of
    it asserts, at [get_progression(1, 100)]: the first two training days
    are the same schedule, so their sums are both 3 and do not strictly
    increase. *)
Lemma equal_consecutive_totals :
  exists rest,
    get_progression RefLog.ref_log (PInt 1) 100
    = Ok ([1; 1; 1; 1; -1] :: [1; 1; 1; 1; -1] :: rest)
    /\ sum [1; 1; 1; 1; -1] = 3.
Proof. eexists. split; [vm_compute; reflexivity | reflexivity]. Qed.

(** Across the training days of any returned progression (all elements
    except the final goal day) the per-day sums never decrease: of two
    consecutive training days the later sums to at least as much as the
    earlier, whatever the starting maximum. *)
Theorem day_sums_never_decrease (libm_log : float -> float)
        (starting_max : pynum) (goal : Z) (l : list (list Z)) :
  get_progression libm_log starting_max goal = Ok l ->
  exists days, l = days ++ [[goal]] /\ Sorted Z.le (map sum days).
Proof.
  intros H.
  destruct (get_progression_inv libm_log starting_max goal l H)
    as (sa & inc & w & T & days & _ & _ & _ & _ & Hdays & ->).
  exists days. split; [reflexivity|].
  destruct (takewhile_days_spec _ _ _ _ _ Hdays) as (F & _ & _).
  rewrite firstn_range in F.
  destruct days as [|s days]; [constructor|].
  assert (HT : 0 <= T).
  { destruct (Nat.min _ _) as [|k]; simpl in F; inversion F as [|? ? ? ? [Hs _] _]; subst.
    destruct (day_schedule_sum _ _ _ _ Hs) as (x & Hx & H0 & _).
    rewrite (day_total_0 T) in Hx. inversion Hx; subst. exact H0. }
  eapply totals_sorted; eassumption.
Qed.

Lemma day_sums_never_decrease_witness :
  exists days, progression_10_100 = days ++ [[100]]
               /\ Sorted Z.le (map sum days).
Proof.
  apply (day_sums_never_decrease RefLog.ref_log (PInt 10) 100).
  vm_compute. reflexivity.
Defined.

(** * Further properties of the code *)

(** ** argmax *)

Lemma index_nth (v : Z) (l : list Z) : In v l -> nth (index v l) l 0 = v.
Proof.
  induction l as [|a l IH]; simpl; [tauto|]; intros H.
  destruct (Z.eqb_spec a v); [assumption|].
  destruct H as [H|H]; [congruence|]. now apply IH.
Qed.

Lemma index_first (v : Z) (l : list Z) (j : nat) :
  (j < index v l)%nat -> nth j l 0 <> v.
Proof.
  revert j; induction l as [|a l IH]; simpl; intros j H; [lia|].
  destruct (Z.eqb_spec a v); [lia|].
  destruct j as [|j]; [assumption|]. apply IH. lia.
Qed.

(** [argmax] of a non-empty list is a valid position, holds the maximum,
    and every earlier position holds a strictly smaller value. *)
Theorem argmax_first_maximum (values : list Z) :
  values <> [] ->
  (argmax values < length values)%nat
  /\ nth (argmax values) values 0 = list_max values
  /\ (forall x, In x values -> x <= list_max values)
  /\ (forall j, (j < argmax values)%nat -> nth j values 0 < list_max values).
Proof.
  intros Hne. pose proof (list_max_In values Hne) as Hin.
  split; [now apply argmax_lt|]. split; [now apply index_nth|].
  split; [apply list_max_upper|].
  intros j Hj. pose proof (index_first _ _ _ Hj) as Hneq.
  assert (Hlen : (j < length values)%nat).
  { pose proof (argmax_lt values Hne). lia. }
  pose proof (list_max_upper values _ (nth_In values 0 Hlen)). lia.
Qed.

Lemma argmax_first_maximum_witness :
  (argmax [20; 24; 24; 16]%Z < length [20; 24; 24; 16]%Z)%nat
  /\ nth (argmax [20; 24; 24; 16]%Z) [20; 24; 24; 16]%Z 0 = list_max [20; 24; 24; 16]%Z
  /\ (forall x, In x [20; 24; 24; 16]%Z -> x <= list_max [20; 24; 24; 16]%Z)
  /\ (forall j, (j < argmax [20; 24; 24; 16]%Z)%nat ->
      nth j [20; 24; 24; 16]%Z 0 < list_max [20; 24; 24; 16]%Z).
Proof. apply argmax_first_maximum. discriminate. Defined.

(** ** The three shape functions *)

Import Rounding.

Lemma leb_spec (m e k : Z) :
  if leb (FFin m e) (FFin k 0)
  then (F2Q m e <= inject_Z k)%Q else (inject_Z k < F2Q m e)%Q.
Proof.
  unfold leb, compare.
  assert (E : (F2Q k 0 == inject_Z k)%Q).
  { unfold F2Q. change (pow2Q 0) with 1%Q. apply Qmult_1_r. }
  revert E. generalize (F2Q m e), (F2Q k 0), (inject_Z k). intros a b c E.
  destruct (Qcompare_spec a b) as [H|H|H]; cbv beta iota; lra.
Qed.

Lemma ltb_spec (m e k : Z) :
  if ltb (FFin m e) (FFin k 0)
  then (F2Q m e < inject_Z k)%Q else (inject_Z k <= F2Q m e)%Q.
Proof.
  unfold ltb, compare.
  assert (E : (F2Q k 0 == inject_Z k)%Q).
  { unfold F2Q. change (pow2Q 0) with 1%Q. apply Qmult_1_r. }
  revert E. generalize (F2Q m e), (F2Q k 0), (inject_Z k). intros a b c E.
  destruct (Qcompare_spec a b) as [H|H|H]; cbv beta iota; lra.
Qed.

Lemma repr_2 : repr 2.
Proof. prove_repr. Qed.
Lemma repr_7 : repr 7.
Proof. prove_repr. Qed.

(** On the sampled interval [[0, 4]] every shape function returns a finite
    offset: within [[-2, 2]] for the first day's shape, [[-4, 4]] for the
    second and [[-4, 8]] for the third. *)
Theorem shape_offsets_bounded (x : float) :
  in_range 0 4 x ->
  in_range (- (2)) 2 (peak_in_middle_function x)
  /\ in_range (- (4)) 4 (peak_toward_front_function x)
  /\ in_range (- (4)) 8 (front_load_function x).
Proof.
  intros (m & e & -> & [L H]).
  split; [|split].
  - unfold peak_in_middle_function. cbv zeta.
    pose proof (leb_spec m e 2) as B. change (inject_Z 2) with 2%Q in B.
    destruct (leb (FFin m e) (FFin 2 0)).
    + assert (D : in_range 0 4 (mul F2 (FFin m e))).
      { apply (mul_in_range 2 2 0 2); auto using repr_0, repr_4.
        - apply (F_in_range 2).
        - exists m, e. split; [reflexivity|]. split; lra.
        - intros u v Hu Hv. split; nra. }
      apply (sub_in_range 0 4 2 2); auto using repr_m2, repr_2; try lra.
      apply (F_in_range 2).
    + assert (D : in_range 4 8 (mul F2 (FFin m e))).
      { apply (mul_in_range 2 2 2 4); auto using repr_4, repr_8.
        - apply (F_in_range 2).
        - exists m, e. split; [reflexivity|]. split; lra.
        - intros u v Hu Hv. split; nra. }
      apply (sub_in_range 6 6 4 8); auto using repr_m2, repr_2; try lra.
      apply (F_in_range 6).
  - unfold peak_toward_front_function. cbv zeta.
    pose proof (leb_spec m e 2) as B. change (inject_Z 2) with 2%Q in B.
    destruct (leb (FFin m e) (FFin 2 0)).
    + apply in_range_weaken with 0%Q 4%Q; try lra.
      apply (mul_in_range 2 2 0 2); auto using repr_0, repr_4.
      * apply (F_in_range 2).
      * exists m, e. split; [reflexivity|]. split; lra.
      * intros u v Hu Hv. split; nra.
    + assert (D : in_range 8 16 (mul F4 (FFin m e))).
      { apply (mul_in_range 4 4 2 4); auto using repr_8, repr_16.
        - apply (F_in_range 4).
        - exists m, e. split; [reflexivity|]. split; lra.
        - intros u v Hu Hv. split; nra. }
      apply (sub_in_range 12 12 8 16); auto using repr_m4, repr_4; try lra.
      apply (F_in_range 12).
  - unfold front_load_function. cbv zeta.
    pose proof (ltb_spec m e 1) as B. change (inject_Z 1) with 1%Q in B.
    destruct (ltb (FFin m e) (FFin 1 0)).
    + apply in_range_weaken with 7%Q 8%Q; try lra.
      apply (sub_in_range 8 8 0 1); auto using repr_7, repr_8; try lra.
      * apply (F_in_range 8).
      * exists m, e. split; [reflexivity|]. split; lra.
    + assert (D : in_range 2 8 (mul F2 (FFin m e))).
      { apply (mul_in_range 2 2 1 4); auto using repr_2, repr_8.
        - apply (F_in_range 2).
        - exists m, e. split; [reflexivity|]. split; lra.
        - intros u v Hu Hv. split; nra. }
      apply in_range_weaken with (- (4))%Q 2%Q; try lra.
      apply (sub_in_range 4 4 2 8); auto using repr_m4, repr_2; try lra.
      apply (F_in_range 4).
Qed.

Lemma shape_offsets_bounded_witness :
  in_range (- (2)) 2 (peak_in_middle_function (FFin 3 0))
  /\ in_range (- (4)) 4 (peak_toward_front_function (FFin 3 0))
  /\ in_range (- (4)) 8 (front_load_function (FFin 3 0)).
Proof.
  apply shape_offsets_bounded.
  exists 3, 0. split; [reflexivity|]. split; vm_compute; discriminate.
Defined.

(** ** A rest day: nothing to distribute *)

Lemma mapM_const {A B : Type} (g : A -> result B) (c : B) (l : list A) :
  (forall a, In a l -> g a = Ok c) -> mapM g l = Ok (repeat c (length l)).
Proof.
  induction l as [|a l IH]; simpl; intros H; [reflexivity|].
  rewrite (H a (or_introl eq_refl)), IH by auto. reflexivity.
Qed.

Lemma sum_repeat_0 (k : nat) : sum (repeat 0 k) = 0.
Proof. induction k as [|k IH]; [reflexivity|]. exact IH. Qed.

Lemma add_at_0 (i : nat) (l : list Z) : add_at i 0 l = l.
Proof.
  revert i; induction l as [|a l IH]; intros [|i]; simpl; auto.
  - now rewrite Z.add_0_r.
  - now rewrite IH.
Qed.

Lemma raw_count_zero (f : float -> float) (lo hi : Q) (x : float) :
  in_range lo hi (f x) -> raw_count f (FFin 0 0) (FFin 0 0) x = Ok 0.
Proof.
  intros (m & e & E & _). unfold raw_count. rewrite E. cbn [mul].
  rewrite (RN_zero (F2Q 0 0 * F2Q m e)) by reflexivity.
  reflexivity.
Qed.

Lemma int_truediv_zero (n : Z) : n <> 0 -> int_truediv 0 n = Ok (FFin 0 0).
Proof.
  intros Hn. unfold int_truediv. destruct (Z.eqb_spec n 0); [contradiction|].
  now rewrite (RN_zero (inject_Z 0 / inject_Z n)) by reflexivity.
Qed.

(** With a total of zero every built-in shape schedules [num_set] sets of
    zero repetitions, for every positive number of sets. *)
Theorem zero_total_gives_zeros (f : float -> float) (n : Z) :
  In f DISTRO_SHAPE_FUNCTIONS -> 0 < n ->
  schedule_by_shape f (PInt n) (PInt 0) = Ok (repeat 0 (Z.to_nat n)).
Proof.
  intros Hf Hn. rewrite schedule_by_shape_ints by lia.
  destruct (Z.eq_dec n 1) as [->|N1]; [reflexivity|].
  destruct (builtin_shapes_bounded f Hf) as (floor & [_ Hrange _]).
  destruct (mapM_total (fun i => int_truediv (i * 4) (n - 1)) (range n))
    as (xs & Hxs).
  { intros i Hi. apply range_In in Hi. apply sample_total; lia. }
  assert (Hsets : mapM (raw_count f (FFin 0 0) (FFin 0 0)) xs
                  = Ok (repeat 0 (length xs))).
  { apply mapM_const. intros x Hx.
    destruct (mapM_In _ _ _ _ Hxs Hx) as (i & Hi & Ex).
    apply range_In in Hi.
    apply (raw_count_zero f floor 12), Hrange.
    apply (sample_in_range n i); [lia | lia | exact Ex]. }
  rewrite (schedule_ints_fold f n 0 xs (FFin 0 0) (FFin 0 0) _ N1 Hxs
             (int_truediv_zero n ltac:(lia)) eq_refl Hsets).
  rewrite sum_repeat_0. change (0 - 0) with 0. change (0 <? 0) with false.
  cbv iota. rewrite add_at_0, (mapM_length _ _ _ Hxs), range_length. reflexivity.
Qed.

Lemma zero_total_gives_zeros_witness :
  schedule_by_shape front_load_function (PInt 4) (PInt 0) = Ok [0; 0; 0; 0].
Proof.
  apply (zero_total_gives_zeros front_load_function 4); [|lia].
  right; right; left; reflexivity.
Defined.

(** ** The cumulative increase *)

Lemma growth_cases (n : nat) :
  (exists g ge, growth n = FFin g ge /\ (1 <= F2Q g ge)%Q)
  \/ growth n = FInf false.
Proof.
  induction n as [|n IH].
  - left. destruct (day_rate_facts 0) as (r & er & E & V). now exists r, er.
  - destruct (day_rate_facts (S n)) as (r & er & Er & Vr).
    rewrite growth_S, Er.
    destruct IH as [(g & ge & E & V)|E]; rewrite E.
    + cbn [mul].
      assert (Hq : (0 < F2Q g ge * F2Q r er)%Q) by nra.
      destruct (RN_pos_cases _ Hq) as [(K & _)|(K & _)]; [left|now right].
      exists (mant (F2Q g ge * F2Q r er)), (cexp (F2Q g ge * F2Q r er)).
      split; [exact K|].
      assert (G : growth (S n) = FFin (mant (F2Q g ge * F2Q r er))
                                      (cexp (F2Q g ge * F2Q r er))).
      { rewrite growth_S, Er, E. exact K. }
      now apply growth_facts in G.
    + right. destruct r as [|r|r].
      * rewrite F2Q_0 in Vr. lra.
      * reflexivity.
      * exfalso. unfold F2Q in Vr.
        assert (P : (0 < pow2Q er)%Q) by apply pow2Q_pos.
        assert (N : (inject_Z (Z.neg r) < 0)%Q) by (rewrite <- (Zlt_Qlt _ 0); lia).
        nra.
Qed.

Lemma growth_step (n : nat) : fle (growth n) (growth (S n)).
Proof.
  destruct (growth_cases n) as [(g & ge & E & V)|E];
    destruct (growth_cases (S n)) as [(g' & ge' & E' & V')|E'].
  - rewrite E, E'. apply (growth_mono n); assumption.
  - rewrite E, E'. exact I.
  - exfalso. destruct (day_rate_facts (S n)) as (r & er & Er & Vr).
    rewrite growth_S, E, Er in E'. cbn [mul] in E'.
    destruct (is_zero (FFin r er)); discriminate.
  - rewrite E, E'. exact I.
Qed.

(** [get_total_increase_after_days] raises [ValueError] exactly when the
    day count is negative or above [sys.maxsize]; day 0 gives the integer 1;
    from day 1 up to [sys.maxsize] it returns a float that is at least 1
    and never smaller than the day before. *)
Theorem total_increase_never_shrinks :
  (forall d : Z, d < 0 \/ sys_maxsize < d ->
      get_total_increase_after_days d = Err ValueError)
  /\ (forall d : Z, 0 <= d <= sys_maxsize ->
      exists v, get_total_increase_after_days d = Ok v)
  /\ get_total_increase_after_days 0 = Ok (PInt 1)
  /\ (forall n : nat, Z.of_nat (S (S n)) <= sys_maxsize -> exists g g',
        get_total_increase_after_days (Z.of_nat (S n)) = Ok (PFloat g)
        /\ get_total_increase_after_days (Z.of_nat (S (S n))) = Ok (PFloat g')
        /\ fle (FFin 1 0) g /\ fle g g').
Proof.
  split; [|split; [|split]].
  - apply total_increase_rejects.
  - intros d Hd. exists (rate_product (Z.to_nat d)).
    rewrite <- (Z2Nat.id d) at 1 by lia.
    apply total_increase_after_nat. rewrite Z2Nat.id; lia.
  - reflexivity.
  - intros n Hn. exists (growth n), (growth (S n)).
    rewrite !total_increase_after_nat by lia.
    split; [reflexivity|]. split; [reflexivity|]. split; [|apply growth_step].
    destruct (growth_cases n) as [(g & ge & E & V)|E]; rewrite E; [|exact I].
    simpl. change (F2Q 1 0) with 1%Q. exact V.
Qed.

(** ** The training days of a progression *)

Lemma schedule_ints_last_min (f : float -> float) (floor : Q) (n t : Z) (l : list Z) :
  bounded_shape f floor -> 0 < n -> 0 <= t ->
  schedule_ints f n t = Ok l -> list_min l = last l 0.
Proof.
  intros Hb Hn Ht H. destruct (Z.eq_dec n 1) as [->|N1].
  - unfold schedule_ints in H. simpl in H. inversion H. reflexivity.
  - destruct (schedule_ints_unfold f n t l N1 H)
      as (xs & avg & scale & sets & Hxs & Havg & Hscale & Hsets & ->).
    destruct (raw_counts_last_min f floor n t xs avg scale sets Hb ltac:(lia) Ht
                Hxs Havg Hscale Hsets)
      as (sets' & s & -> & Hne & Hmin).
    exact (fix_keeps_last_min sets' s (t - sum (sets' ++ [s])) Hne Hmin).
Qed.

(** A day's schedule is the schedule of that weekday's shape for the day's
    rounded total. *)
Lemma day_schedule_inv (n_sets T d : Z) (sets : list Z) :
  0 <= d -> day_schedule n_sets T d = Ok sets ->
  exists f total,
    nth_error DISTRO_SHAPE_FUNCTIONS (Z.to_nat (d mod 3)) = Some f
    /\ day_total T d = Ok total
    /\ schedule_by_shape f (PInt n_sets) (PInt total) = Ok sets.
Proof.
  intros Hd H. unfold day_schedule in H. unfold day_total.
  bind_inv H. bind_inv H. bind_inv H. rewrite Hv. cbn [bind]. rewrite Hv0.
  cbn [bind]. rewrite Hv1.
  change DAYS_PER_WEEK with 3 in H.
  assert (K : d mod 3 = 0 \/ d mod 3 = 1 \/ d mod 3 = 2)
    by (pose proof (Z.mod_pos_bound d 3); lia).
  destruct K as [K|[K|K]]; rewrite K in *; simpl in H |- *; eauto.
Qed.

Lemma nth_error_range (N : Z) (i : nat) (d : Z) :
  nth_error (range N) i = Some d -> d = Z.of_nat i.
Proof.
  unfold range. rewrite nth_error_map. intros H.
  destruct (nth_error (seq 0 (Z.to_nat N)) i) as [k|] eqn:E; [|discriminate].
  inversion H; subst. f_equal.
  assert (L : (i < length (seq 0 (Z.to_nat N)))%nat)
    by (apply nth_error_Some; congruence).
  rewrite length_seq in L.
  rewrite (nth_error_nth' _ 0%nat) in E by (rewrite length_seq; exact L).
  rewrite seq_nth in E by exact L. inversion E. reflexivity.
Qed.

Lemma Forall2_nth_error {A B : Type} (P : A -> B -> Prop)
      (l : list A) (r : list B) (i : nat) (b : B) :
  Forall2 P l r -> nth_error r i = Some b ->
  exists a, nth_error l i = Some a /\ P a b.
Proof.
  intros F. revert i. induction F as [|a0 b0 l r H F IH]; intros [|i] E;
    simpl in *; try discriminate.
  - inversion E; subst. eauto.
  - now apply IH.
Qed.

Lemma nth_error_firstn_Some {A : Type} (k i : nat) (l : list A) (a : A) :
  nth_error (firstn k l) i = Some a -> nth_error l i = Some a.
Proof.
  revert i l. induction k as [|k IH]; intros [|i] [|x l]; simpl; 
    try discriminate; auto.
Qed.

(** In a returned progression, training day [i] (counted from 0) is the
    schedule of shape [i mod 3] for five sets and that day's total,
    [round(get_total_increase_after_days(i) * starting_total)]: it has
    five entries, they sum to that total, and its last entry is its
    smallest. *)
Theorem training_day_facts (libm_log : float -> float)
        (starting_max : pynum) (goal : Z) (l : list (list Z)) :
  get_progression libm_log starting_max goal = Ok l ->
  exists days starting_total,
    l = days ++ [[goal]]
    /\ forall (i : nat) (sets : list Z),
        nth_error days i = Some sets ->
        exists f,
          nth_error DISTRO_SHAPE_FUNCTIONS (i mod 3) = Some f
          /\ day_total starting_total (Z.of_nat i) = Ok (sum sets)
          /\ schedule_by_shape f (PInt N_SETS) (PInt (sum sets)) = Ok sets
          /\ length sets = 5%nat
          /\ list_min sets = last sets 0.
Proof.
  intros H.
  destruct (get_progression_inv libm_log starting_max goal l H)
    as (sa & inc & w & T & days & _ & _ & _ & _ & Hdays & ->).
  exists days, T. split; [reflexivity|]. intros i sets Hi.
  destruct (takewhile_days_spec _ _ _ _ _ Hdays) as (F & _ & _).
  destruct (Forall2_nth_error _ _ _ _ _ F Hi) as (d & Hd & Hs & _).
  apply nth_error_firstn_Some, nth_error_range in Hd. subst d.
  destruct (day_schedule_inv _ _ _ _ (Nat2Z.is_nonneg i) Hs)
    as (f & total & Hf & Htot & Hsch).
  destruct (schedule_by_shape_Ok_sum _ _ _ _ Hsch) as [Hpos Hsum].
  subst total. exists f.
  assert (E : Z.to_nat (Z.of_nat i mod 3) = (i mod 3)%nat).
  { change 3 with (Z.of_nat 3). rewrite <- Nat2Z.inj_mod. apply Nat2Z.id. }
  rewrite E in Hf. split; [exact Hf|]. split; [exact Htot|].
  split; [exact Hsch|].
  assert (Hin : In f DISTRO_SHAPE_FUNCTIONS) by (eapply nth_error_In; eauto).
  destruct (builtin_shapes_bounded f Hin) as (floor & Hb).
  rewrite schedule_by_shape_ints in Hsch by (unfold N_SETS; lia).
  split.
  - now destruct (schedule_ints_length_sum f N_SETS _ sets ltac:(unfold N_SETS; lia) Hsch).
  - apply (schedule_ints_last_min f floor N_SETS (sum sets)); auto.
    unfold N_SETS; lia.
Qed.

Lemma training_day_facts_witness :
  exists days starting_total,
    progression_10_100 = days ++ [[100]]
    /\ forall (i : nat) (sets : list Z),
        nth_error days i = Some sets ->
        exists f,
          nth_error DISTRO_SHAPE_FUNCTIONS (i mod 3) = Some f
          /\ day_total starting_total (Z.of_nat i) = Ok (sum sets)
          /\ schedule_by_shape f (PInt N_SETS) (PInt (sum sets)) = Ok sets
          /\ length sets = 5%nat
          /\ list_min sets = last sets 0.
Proof.
  apply (training_day_facts RefLog.ref_log (PInt 10) 100).
  vm_compute. reflexivity.
Defined.

(** ** When the daily totals grow strictly *)

Lemma Qrne_near_upper (x : Q) : (inject_Z (Qrne x) <= x + (1 # 2))%Q.
Proof.
  destruct x as [n d]. unfold Qrne; simpl.
  destruct (rne_spec n (Zpos d) ltac:(lia)) as [A _].
  set (r := rne n (Zpos d)) in *.
  unfold Qle, Qplus; cbn. lia.
Qed.

(** From [1] on, rounding adds less than a thousandth. *)
Lemma RN_rel_upper (q : Q) (m e : Z) :
  (1 <= q)%Q -> RN q = FFin m e -> (F2Q m e <= (1025 # 1024) * q)%Q.
Proof.
  intros H1 H. assert (Hq : (0 < q)%Q) by lra.
  pose proof (cexp_normal q H1) as Hn.
  destruct (cexp_bounds q Hq) as (_ & _ & L). specialize (L Hn).
  rewrite RN_unfold in H by (apply Qnum_pos in Hq; lia).
  destruct (emax <=? _); [discriminate|]. inversion H; subst. clear H.
  pose proof (scaled_spec q (cexp q)) as S. pose proof (pow2Q_pos (cexp q)) as P.
  rewrite pow2Q_add in L.
  assert (E52 : (pow2Q (prec - 1) == inject_Z (2 ^ 52))%Q) by reflexivity.
  assert (B : (512 <= inject_Z (2 ^ 52))%Q) by (vm_compute; discriminate).
  pose proof (Qrne_near_upper (scaled q (cexp q))) as K.
  unfold mant, F2Q.
  set (x := scaled q (cexp q)) in *. set (p := pow2Q (cexp q)) in *.
  set (c := inject_Z (2 ^ 52)) in *. set (r := inject_Z (Qrne x)) in *.
  rewrite E52 in L.
  assert (X : (c <= x)%Q) by nra.
  rewrite <- S. nra.
Qed.

(** Every daily rate is at least [1.1]. *)
Lemma day_rate_lower (i : nat) :
  exists r er, day_rate i = FFin r er /\ (11 # 10 <= F2Q r er)%Q.
Proof.
  assert (F : Forall (fun x => exists r er, x = FFin r er /\ (11 # 10 <= F2Q r er)%Q)
                     DAY_INCREASES).
  { repeat constructor; eexists _, _; (split; [vm_compute; reflexivity|]);
      vm_compute; discriminate. }
  rewrite Forall_forall in F. apply F. unfold day_rate. apply nth_In.
  apply Nat.mod_upper_bound. discriminate.
Qed.

Lemma growth_lower (n : nat) (g ge : Z) :
  growth n = FFin g ge -> (9 # 8 <= F2Q g ge)%Q.
Proof.
  revert g ge; induction n as [|n IH]; intros g ge H.
  - vm_compute in H. inversion H; subst. vm_compute. discriminate.
  - pose proof H as H'. rewrite growth_S in H'.
    destruct (mul_finite _ _ _ _ H') as (g0 & ge0 & _ & _ & E0 & _).
    pose proof (growth_mono n _ _ _ _ E0 H). specialize (IH _ _ E0). lra.
Qed.

Lemma total_float_lower (T tm te : Z) :
  10 <= T -> RN (inject_Z T) = FFin tm te -> (999 # 100 <= F2Q tm te)%Q.
Proof.
  intros HT ET.
  assert (Q10 : (10 <= inject_Z T)%Q) by (rewrite <- (Zle_Qle 10); lia).
  assert (Q1 : (1 <= inject_Z T)%Q) by lra.
  pose proof (RN_rel_lower _ _ _ Q1 ET). lra.
Qed.

Lemma first_step_strict (T b : Z) : 10 <= T -> day_total T 1 = Ok b -> T < b.
Proof.
  intros HT H. change 1 with (Z.of_nat 1) in H.
  rewrite day_total_S in H by (vm_compute; discriminate).
  bind_inv H. destruct (int_to_float_Ok _ _ Hv) as (tm & te & -> & ET).
  destruct (growth 0) as [g ge| |] eqn:Eg; try discriminate.
  pose proof (growth_lower 0 g ge Eg) as G0.
  cbn [mul] in H.
  assert (Q10 : (10 <= inject_Z T)%Q) by (rewrite <- (Zle_Qle 10); lia).
  assert (Q1 : (1 <= inject_Z T)%Q) by lra.
  pose proof (RN_rel_lower _ _ _ Q1 ET) as RT.
  destruct (RN (F2Q g ge * F2Q tm te)) as [p pe|s|] eqn:EP; try discriminate.
  rewrite round_float_FFin in H. inversion H; subst b.
  set (G := F2Q g ge) in *. set (Y := F2Q tm te) in *. set (t := inject_Z T) in *.
  assert (Q2 : (1 <= G * Y)%Q) by nra.
  pose proof (RN_rel_lower _ _ _ Q2 EP) as RP.
  pose proof (Qrne_near_lower (F2Q p pe)) as K.
  set (P := F2Q p pe) in *.
  assert (A1 : ((9 # 8) * Y <= G * Y)%Q) by nra.
  assert (A2 : (t + (1 # 2) < P)%Q) by lra.
  rewrite Zlt_Qlt. fold t. lra.
Qed.

Lemma later_step_strict (T : Z) (n : nat) (a b : Z) :
  10 <= T ->
  day_total T (Z.of_nat (S n)) = Ok a ->
  day_total T (Z.of_nat (S (S n))) = Ok b ->
  a < b.
Proof.
  intros HT Ha Hb.
  pose proof (day_total_Ok _ _ _ Ha) as Ba. pose proof (day_total_Ok _ _ _ Hb) as Bb.
  rewrite day_total_S in Ha by lia. rewrite day_total_S in Hb by lia.
  bind_inv Ha. destruct (int_to_float_Ok _ _ Hv) as (tm & te & -> & ET).
  rewrite Hv in Hb. cbn [bind] in Hb.
  pose proof (total_float_lower T tm te HT ET) as VT.
  destruct (mul (growth n) (FFin tm te)) as [p pe|s|] eqn:EP; try discriminate.
  destruct (mul (growth (S n)) (FFin tm te)) as [p' pe'|s|] eqn:EP'; try discriminate.
  destruct (mul_finite _ _ _ _ EP) as (g & ge & _ & _ & Eg & _).
  destruct (mul_finite _ _ _ _ EP') as (g' & ge' & _ & _ & Eg' & _).
  pose proof (growth_lower n g ge Eg) as V.
  destruct (day_rate_lower (S n)) as (r & er & Er & Vr).
  pose proof Eg' as Es. rewrite growth_S, Eg, Er in Es. cbn [mul] in Es.
  rewrite Eg in EP. rewrite Eg' in EP'. cbn [mul] in EP, EP'.
  rewrite round_float_FFin in Ha, Hb. inversion Ha; subst a. inversion Hb; subst b.
  set (G := F2Q g ge) in *. set (G' := F2Q g' ge') in *.
  set (Y := F2Q tm te) in *. set (R := F2Q r er) in *.
  assert (Q1 : (1 <= G * R)%Q) by nra.
  pose proof (RN_rel_lower _ _ _ Q1 Es) as L1. fold G' in L1.
  assert (Z11 : (11 <= G * Y)%Q) by nra.
  assert (Q2 : (1 <= G * Y)%Q) by lra.
  pose proof (RN_rel_upper _ _ _ Q2 EP) as U.
  assert (L2 : ((1023 # 1024) * ((11 # 10) * (G * Y)) <= G' * Y)%Q).
  { assert (X1 : ((11 # 10) * (G * Y) <= G * R * Y)%Q) by nra.
    assert (X2 : ((1023 # 1024) * (G * R) * Y <= G' * Y)%Q) by nra.
    lra. }
  assert (Q3 : (1 <= G' * Y)%Q) by lra.
  pose proof (RN_rel_lower _ _ _ Q3 EP') as L3.
  pose proof (Qrne_near_upper (F2Q p pe)) as Ka.
  pose proof (Qrne_near_lower (F2Q p' pe')) as Kb.
  set (P := F2Q p pe) in *. set (P' := F2Q p' pe') in *.
  set (Z := (G * Y)%Q) in *. set (Z' := (G' * Y)%Q) in *.
  rewrite Zlt_Qlt. lra.
Qed.

Lemma consecutive_step_strict (T : Z) (a : nat) (x y : Z) :
  10 <= T ->
  day_total T (Z.of_nat a) = Ok x -> day_total T (Z.of_nat (S a)) = Ok y ->
  x < y.
Proof.
  intros HT Hx Hy. destruct a as [|a].
  - rewrite day_total_0 in Hx. inversion Hx; subst. now apply first_step_strict.
  - now apply (later_step_strict T a).
Qed.

Lemma totals_strictly_sorted (n_sets T goal : Z) (k a : nat) (days : list (list Z)) :
  10 <= T ->
  Forall2 (fun d sets => day_schedule n_sets T d = Ok sets
                         /\ list_max sets < goal)
          (map Z.of_nat (seq a k)) days ->
  Sorted Z.lt (map sum days).
Proof.
  intros HT. revert a days; induction k as [|k IH]; intros a days F.
  - inversion F; subst. constructor.
  - simpl in F. inversion F as [|d s ds tl [Hs _] Ftl]; subst. simpl.
    constructor; [now apply (IH (S a))|].
    destruct k as [|k]; simpl in Ftl; inversion Ftl as [|d' s' ds' tl' [Hs' _] _];
      subst; simpl; constructor.
    destruct (day_schedule_sum _ _ _ _ Hs) as (x & Hx & _ & ->).
    destruct (day_schedule_sum _ _ _ _ Hs') as (y & Hy & _ & ->).
    now apply (consecutive_step_strict T a).
Qed.

Lemma progression_strict (T goal w : Z) (days : list (list Z)) :
  10 <= T ->
  takewhile_days N_SETS T goal (range (DAYS_PER_WEEK * w)) = Ok days ->
  Sorted Z.lt (map sum days).
Proof.
  intros HT Hdays.
  destruct (takewhile_days_spec _ _ _ _ _ Hdays) as (F & _ & _).
  rewrite firstn_range in F.
  eapply totals_strictly_sorted; eassumption.
Qed.

(** When the first day of a returned progression totals at least 10
    repetitions, the totals of the training days grow strictly from each
    day to the next. *)
Theorem day_sums_grow_strictly (libm_log : float -> float)
        (starting_max : pynum) (goal : Z) (l : list (list Z)) :
  get_progression libm_log starting_max goal = Ok l ->
  10 <= sum (hd [] l) ->
  exists days, l = days ++ [[goal]] /\ Sorted Z.lt (map sum days).
Proof.
  intros H H10.
  destruct (get_progression_inv libm_log starting_max goal l H)
    as (sa & inc & w & T & days & _ & _ & _ & _ & Hdays & ->).
  exists days. split; [reflexivity|].
  destruct days as [|s days]; [constructor|].
  apply (progression_strict T goal w); [|exact Hdays].
  destruct (takewhile_days_spec _ _ _ _ _ Hdays) as (F & _ & _).
  rewrite firstn_range in F.
  destruct (Nat.min _ _) as [|k]; simpl in F; inversion F as [|? ? ? ? [Hs _] _]; subst.
  destruct (day_schedule_sum _ _ _ _ Hs) as (x & Hx & _ & E).
  rewrite (day_total_0 T) in Hx. inversion Hx; subst. exact H10.
Qed.

Lemma day_sums_grow_strictly_witness :
  exists days, progression_10_100 = days ++ [[100]]
               /\ Sorted Z.lt (map sum days).
Proof.
  apply (day_sums_grow_strictly RefLog.ref_log (PInt 10) 100).
  - vm_compute. reflexivity.
  - vm_compute. discriminate.
Defined.

(** The starting total of an integer starting maximum of at least 4 is at
    least 10. *)
Lemma starting_total_lower (sm T : Z) (sa : float) :
  4 <= sm ->
  (x <- py_mul (PFloat RATIO_OF_MAX_FOR_N_SETS) (PInt sm) ;; to_float x) = Ok sa ->
  (scaled <- py_mul (PFloat sa) (PInt N_SETS) ;; py_round scaled) = Ok T ->
  10 <= T.
Proof.
  intros Hsm Hsa HT.
  assert (ER : exists rm re, RATIO_OF_MAX_FOR_N_SETS = FFin rm re
                             /\ (599 # 1000 <= F2Q rm re)%Q).
  { eexists _, _. split; [vm_compute; reflexivity | vm_compute; discriminate]. }
  destruct ER as (rm & re & ER & VR). rewrite ER in Hsa.
  unfold py_mul in Hsa, HT. cbn [to_float bind] in Hsa, HT.
  bind_inv Hsa. bind_inv Hv. inversion Hv; subst v; clear Hv.
  cbn [to_float] in Hsa. inversion Hsa; subst sa; clear Hsa.
  destruct (int_to_float_Ok _ _ Hv0) as (ym & ye & -> & EY). clear Hv0.
  assert (R5 : repr (inject_Z N_SETS)) by prove_repr.
  destruct R5 as (fm & fe & E5 & V5). change (inject_Z N_SETS) with 5%Q in V5.
  unfold int_to_float, of_Z in HT. rewrite E5 in HT. cbn [bind py_round] in HT.
  assert (Q4 : (4 <= inject_Z sm)%Q) by (rewrite <- (Zle_Qle 4); lia).
  assert (Q1 : (1 <= inject_Z sm)%Q) by lra.
  pose proof (RN_rel_lower _ _ _ Q1 EY) as LY.
  cbn [mul] in HT.
  destruct (RN (F2Q rm re * F2Q ym ye)) as [am ae|s|] eqn:EA;
    [|cbn [mul] in HT; destruct (is_zero (FFin fm fe)); discriminate
     |discriminate].
  cbn [mul] in HT.
  destruct (RN (F2Q am ae * F2Q fm fe)) as [pm pe|s|] eqn:EP; try discriminate.
  rewrite round_float_FFin in HT. inversion HT; subst T.
  rewrite (RN_compat _ (F2Q am ae * 5)) in EP by (now rewrite V5).
  set (Rr := F2Q rm re) in *. set (Y := F2Q ym ye) in *.
  set (A := F2Q am ae) in *. set (t := inject_Z sm) in *.
  assert (X1 : (2 <= Rr * Y)%Q) by nra.
  assert (X1' : (1 <= Rr * Y)%Q) by lra.
  pose proof (RN_rel_lower _ _ _ X1' EA) as LA. fold A in LA.
  assert (X2 : (1 <= A * 5)%Q) by lra.
  pose proof (RN_rel_lower _ _ _ X2 EP) as LP.
  apply Qrne_ge. set (P := F2Q pm pe) in *.
  assert (X3 : ((2396 # 1000) * (1023 # 1024) <= Rr * Y)%Q) by nra.
  change (inject_Z 10) with 10%Q. lra.
Qed.

(** With an integer starting maximum of at least 4, whatever logarithm the
    platform supplies, the training-day totals of a returned progression
    grow strictly from each day to the next, and the goal day closes the
    list. *)
Theorem int_start_grows_strictly (libm_log : float -> float)
        (starting_max goal : Z) (l : list (list Z)) :
  4 <= starting_max ->
  get_progression libm_log (PInt starting_max) goal = Ok l ->
  exists days, l = days ++ [[goal]] /\ Sorted Z.lt (map sum days).
Proof.
  intros Hsm H.
  destruct (get_progression_inv libm_log _ goal l H)
    as (sa & inc & w & T & days & Hsa & _ & _ & HT & Hdays & ->).
  exists days. split; [reflexivity|].
  apply (progression_strict T goal w); [|exact Hdays].
  exact (starting_total_lower starting_max T sa Hsm Hsa HT).
Qed.

Lemma int_start_grows_strictly_witness :
  exists days, progression_10_100 = days ++ [[100]]
               /\ Sorted Z.lt (map sum days).
Proof.
  apply (int_start_grows_strictly RefLog.ref_log 10 100).
  - lia.
  - vm_compute. reflexivity.
Defined.

(** ** Front-loaded days descend *)

Lemma mapM_StronglySorted {A B : Type} (RA : A -> A -> Prop) (RB : B -> B -> Prop)
      (g : A -> result B) (l : list A) (r : list B) :
  (forall a a' b b', In a l -> In a' l -> RA a a' ->
                     g a = Ok b -> g a' = Ok b' -> RB b b') ->
  StronglySorted RA l -> mapM g l = Ok r -> StronglySorted RB r.
Proof.
  intros Hg S. revert r. induction S as [|a l S IH Ha]; simpl; intros r H.
  - inversion H; subst. constructor.
  - bind_inv H. bind_inv H. inversion H; subst; clear H. constructor.
    + apply IH; [|assumption]. intros x x' y y' Hx Hx'. apply Hg; now right.
    + rewrite Forall_forall in *. intros b Hb.
      destruct (mapM_In _ _ _ _ Hv0 Hb) as (a' & Ha' & Eb).
      apply (Hg a a'); auto; [now left | now right].
Qed.

Lemma seq_increasing (a k : nat) :
  StronglySorted Z.le (map Z.of_nat (seq a k)).
Proof.
  revert a; induction k as [|k IH]; intros a; simpl; constructor; [apply IH|].
  rewrite Forall_forall. intros x Hx. apply in_map_iff in Hx.
  destruct Hx as (j & <- & Hj). apply in_seq in Hj. lia.
Qed.

Lemma sample_mono (n i j : Z) (x x' : float) :
  1 < n -> 0 <= i -> i <= j ->
  int_truediv (i * 4) (n - 1) = Ok x -> int_truediv (j * 4) (n - 1) = Ok x' ->
  fle x x'.
Proof.
  intros Hn Hi Hij Hx Hx'.
  apply int_truediv_Ok in Hx, Hx'. destruct Hx as [_ ->], Hx' as [_ ->].
  apply RN_mono. unfold Qdiv. apply Qmult_le_compat_r.
  - rewrite <- Zle_Qle. lia.
  - apply Qinv_le_0_compat. rewrite <- (Zle_Qle 0). lia.
Qed.

(** The third day's shape never rises on [[0, 4]]. *)
Lemma front_load_antitone (x x' : float) :
  in_range 0 4 x -> in_range 0 4 x' -> fle x x' ->
  fle (front_load_function x') (front_load_function x).
Proof.
  intros (m & e & -> & [L H]) (m' & e' & -> & [L' H']) Hle. simpl in Hle.
  unfold front_load_function. cbv zeta.
  pose proof (ltb_spec m e 1) as B. change (inject_Z 1) with 1%Q in B.
  pose proof (ltb_spec m' e' 1) as B'. change (inject_Z 1) with 1%Q in B'.
  assert (E8 : (F2Q 8 0 == 8)%Q) by reflexivity.
  assert (E4 : (F2Q 4 0 == 4)%Q) by reflexivity.
  assert (D : forall d ed, (1 <= F2Q d ed <= 4)%Q ->
                           in_range 2 8 (mul F2 (FFin d ed))).
  { intros d ed Hd. apply (mul_in_range 2 2 1 4); auto using repr_2, repr_8.
    - apply (F_in_range 2).
    - exists d, ed. split; [reflexivity|]. exact Hd.
    - intros u v Hu Hv. split; nra. }
  destruct (ltb (FFin m e) (FFin 1 0)), (ltb (FFin m' e') (FFin 1 0)).
  - unfold sub, F8. cbn [opp add]. apply RN_mono. rewrite !F2Q_opp. lra.
  - destruct (D m' e' ltac:(lra)) as (d & ed & Ed & Vd).
    apply fle_trans with (FFin 7 0).
    + apply fle_trans with (FFin 2 0); [|vm_compute; discriminate].
      unfold sub, F4. rewrite Ed. cbn [opp add].
      apply RN_upper; [apply (repr_compat 2); [reflexivity | apply repr_2]|].
      rewrite F2Q_opp, E4. change (F2Q 2 0) with 2%Q. lra.
    + unfold sub, F8. cbn [opp add].
      apply RN_lower; [apply (repr_compat 7); [reflexivity | apply repr_7]|].
      rewrite F2Q_opp, E8. change (F2Q 7 0) with 7%Q. lra.
  - exfalso. lra.
  - destruct (D m e ltac:(lra)) as (d & ed & Ed & Vd).
    destruct (D m' e' ltac:(lra)) as (d' & ed' & Ed' & Vd').
    assert (M : fle (mul F2 (FFin m e)) (mul F2 (FFin m' e'))).
    { unfold F2. cbn [mul]. apply RN_mono.
      assert ((0 <= F2Q 2 0)%Q) by (vm_compute; discriminate). nra. }
    rewrite Ed, Ed' in M. simpl in M.
    unfold sub, F4. rewrite Ed, Ed'. cbn [opp add]. apply RN_mono.
    rewrite !F2Q_opp. lra.
Qed.

(** A raw count follows the shape value: with a non-negative scale, a
    larger offset never gives a smaller count. *)
Lemma raw_count_follows_shape (f : float -> float) (lo hi : Q)
      (scale : float) (a ea : Z) (x x' : float) (s s' : Z) :
  fle (FFin 0 0) scale ->
  in_range lo hi (f x) -> in_range lo hi (f x') -> fle (f x) (f x') ->
  raw_count f scale (FFin a ea) x = Ok s ->
  raw_count f scale (FFin a ea) x' = Ok s' ->
  s <= s'.
Proof.
  intros H0 (m & e & E & _) (m' & e' & E' & _) Hle Hs Hs'.
  unfold raw_count in *. rewrite E in *. rewrite E' in *. simpl in Hle.
  destruct scale as [sc es|[|]|]; simpl in H0; try contradiction.
  - rewrite F2Q_0 in H0.
    eapply round_float_mono; [|exact Hs|exact Hs'].
    now apply add_mono_l, mul_mono_r.
  - destruct m; simpl in Hs; discriminate.
Qed.

Lemma descending_head_max (a : Z) (l : list Z) :
  StronglySorted Z.ge (a :: l) -> argmax (a :: l) = 0%nat.
Proof.
  intros S. inversion S as [|? ? _ F]; subst. rewrite Forall_forall in F.
  assert (E : list_max (a :: l) = a).
  { pose proof (list_max_In (a :: l) ltac:(discriminate)) as [K|K]; [now symmetry|].
    pose proof (list_max_upper (a :: l) a (or_introl eq_refl)).
    specialize (F _ K). lia. }
  unfold argmax. rewrite E. simpl. now rewrite Z.eqb_refl.
Qed.

Lemma descending_lower_last (l : list Z) (d : Z) :
  d <= 0 -> StronglySorted Z.ge l ->
  StronglySorted Z.ge (add_at (length l - 1) d l).
Proof.
  intros Hd Hs. induction Hs as [|a l Hs IH F]; [constructor|].
  destruct l as [|b l].
  - simpl. constructor; constructor.
  - replace (length (a :: b :: l) - 1)%nat with (S (length (b :: l) - 1))%nat
      by (simpl; lia).
    cbn [add_at]. constructor; [exact IH|].
    rewrite Forall_forall in *. intros x Hx.
    destruct (add_at_In _ _ _ _ Hx) as (y & Hy & [->| ->]);
      specialize (F _ Hy); lia.
Qed.

Lemma descending_fix (l : list Z) (err : Z) :
  StronglySorted Z.ge l ->
  StronglySorted Z.ge (if err <? 0 then add_at (length l - 1) err l
                       else add_at (argmax l) err l).
Proof.
  intros S. destruct (Z.ltb_spec err 0) as [Neg|Pos].
  - apply descending_lower_last; [lia | exact S].
  - destruct l as [|a l]; [destruct (argmax []); constructor|].
    rewrite (descending_head_max a l S). simpl.
    inversion S as [|? ? S' F]; subst. constructor; [exact S'|].
    rewrite Forall_forall in *. intros x Hx. specialize (F _ Hx). lia.
Qed.

(** Every schedule the third day's shape returns is in descending order:
    no set has more repetitions than an earlier one. *)
Theorem front_load_descends (n t : Z) (l : list Z) :
  day3_schedule (PInt n) (PInt t) = Ok l -> StronglySorted Z.ge l.
Proof.
  unfold day3_schedule. intros H.
  assert (Hg : 0 < n /\ 0 <= t).
  { unfold schedule_by_shape, py_le0, py_lt0 in H.
    destruct (Z.leb_spec n 0); [discriminate|].
    destruct (Z.ltb_spec t 0); [discriminate|]. lia. }
  destruct Hg as [Hn Ht]. rewrite schedule_by_shape_ints in H by assumption.
  destruct (Z.eq_dec n 1) as [->|N1].
  - unfold schedule_ints in H. simpl in H. inversion H. repeat constructor.
  - destruct (schedule_ints_unfold _ n t l N1 H)
      as (xs & avg & scale & sets & Hxs & Havg & Hscale & Hsets & ->).
    apply descending_fix.
    destruct (int_truediv_finite _ _ _ Havg) as (a & ea & ->).
    pose proof (average_nonneg t n a ea Hn Ht Havg) as Ha.
    pose proof (scale_nonneg a ea scale Ha Hscale) as Hsc0.
    assert (Rx : forall x, In x xs -> in_range 0 4 x).
    { intros x Hx. destruct (mapM_In _ _ _ _ Hxs Hx) as (i & Hi & Ex).
      apply range_In in Hi. apply (sample_in_range n i); [lia | lia | exact Ex]. }
    assert (Sx : StronglySorted fle xs).
    { apply (mapM_StronglySorted Z.le fle _ _ _) with (3 := Hxs);
        [|apply seq_increasing].
      intros i j x x' Hi Hj Hij Ex Ex'. apply range_In in Hi.
      apply (sample_mono n i j); auto; lia. }
    apply (mapM_StronglySorted fle Z.ge _ _ _) with (3 := Hsets); [|exact Sx].
    intros x x' s s' Hx Hx' Hle Es Es'. apply Z.le_ge.
    apply (raw_count_follows_shape front_load_function (- (4)) 12
             scale a ea x' x); auto using front_load_range.
    apply front_load_antitone; auto.
Qed.

Lemma front_load_descends_witness : StronglySorted Z.ge [28; 22; 20; 18; 12].
Proof.
  apply (front_load_descends 5 100). vm_compute. reflexivity.
Defined.

(** ** What the platform's logarithm can change *)

Lemma range_app (N N' : Z) : N <= N' -> exists rest, range N' = range N ++ rest.
Proof.
  intros H. unfold range.
  destruct (Z_le_gt_dec N 0) as [L|G].
  - replace (Z.to_nat N) with O by lia. simpl. eauto.
  - replace (Z.to_nat N') with (Z.to_nat N + Z.to_nat (N' - N))%nat by lia.
    rewrite seq_app, map_app. eauto.
Qed.

(** Lengthening the list of candidate days can only lengthen the result. *)
Lemma takewhile_days_prefix (n_sets T goal : Z) (cands rest : list Z)
      (d1 d2 : list (list Z)) :
  takewhile_days n_sets T goal cands = Ok d1 ->
  takewhile_days n_sets T goal (cands ++ rest) = Ok d2 ->
  d1 = firstn (length d1) d2.
Proof.
  revert d1 d2. induction cands as [|day cands IH]; simpl; intros d1 d2 H1 H2.
  - inversion H1; subst. reflexivity.
  - bind_inv H1. rewrite Hv in H2. cbn [bind] in H2.
    destruct (list_max v <? goal).
    + bind_inv H1. bind_inv H2. inversion H1; inversion H2; subst. simpl.
      f_equal. now apply IH.
    + inversion H1; subst. reflexivity.
Qed.

(** Candidate days past the one that stopped the loop are never computed:
    once the loop has stopped early, more candidates change nothing. *)
Lemma takewhile_days_stopped (n_sets T goal : Z) (cands rest : list Z)
      (days : list (list Z)) :
  takewhile_days n_sets T goal cands = Ok days ->
  (length days < length cands)%nat ->
  takewhile_days n_sets T goal (cands ++ rest) = Ok days.
Proof.
  revert days. induction cands as [|day cands IH]; simpl; intros days H L.
  - inversion H; subst. simpl in L. lia.
  - bind_inv H. rewrite Hv. cbn [bind].
    destruct (list_max v <? goal); [|exact H].
    bind_inv H. inversion H; subst. simpl in L.
    rewrite (IH v0 Hv0 ltac:(lia)). reflexivity.
Qed.

(** Two platforms whose logarithms differ return progressions that agree
    day for day: the logarithm only enters the estimate of how many weeks
    to try, so one list of training days is a prefix of the other, and
    both end with the goal day. *)
Theorem log_only_moves_cutoff (log1 log2 : float -> float)
        (starting_max : pynum) (goal : Z) (l1 l2 : list (list Z)) :
  get_progression log1 starting_max goal = Ok l1 ->
  get_progression log2 starting_max goal = Ok l2 ->
  exists days1 days2,
    l1 = days1 ++ [[goal]] /\ l2 = days2 ++ [[goal]]
    /\ (days1 = firstn (length days1) days2
        \/ days2 = firstn (length days2) days1).
Proof.
  intros H1 H2.
  destruct (get_progression_inv log1 starting_max goal l1 H1)
    as (sa & inc & w & T & days & Hsa & _ & _ & HT & Hdays & ->).
  destruct (get_progression_inv log2 starting_max goal l2 H2)
    as (sa' & inc' & w' & T' & days' & Hsa' & _ & _ & HT' & Hdays' & ->).
  rewrite Hsa in Hsa'. inversion Hsa'; subst sa'.
  rewrite HT in HT'. inversion HT'; subst T'.
  exists days, days'. split; [reflexivity|]. split; [reflexivity|].
  destruct (Z_le_gt_dec (DAYS_PER_WEEK * w) (DAYS_PER_WEEK * w')) as [L|G].
  - destruct (range_app _ _ L) as (rest & E). rewrite E in Hdays'.
    left. eapply takewhile_days_prefix; eassumption.
  - destruct (range_app (DAYS_PER_WEEK * w') (DAYS_PER_WEEK * w) ltac:(lia))
      as (rest & E).
    rewrite E in Hdays. right. eapply takewhile_days_prefix; eassumption.
Qed.

Lemma log_only_moves_cutoff_witness :
  exists days1 days2,
    progression_10_100 = days1 ++ [[100]]
    /\ [[5; 6; 8; 6; 5]; [7; 7; 8; 7; 5]; [10; 8; 7; 7; 5]; [100]]
       = days2 ++ [[100]]
    /\ (days1 = firstn (length days1) days2
        \/ days2 = firstn (length days2) days1).
Proof.
  apply (log_only_moves_cutoff RefLog.ref_log (fun _ => FFin 1 0) (PInt 10) 100).
  - vm_compute. reflexivity.
  - vm_compute. reflexivity.
Defined.

(** When the loop stopped before the estimated weeks ran out, any larger
    estimate gives the same training days. *)
Theorem overestimate_is_harmless (n_sets T goal N N' : Z)
        (days : list (list Z)) :
  takewhile_days n_sets T goal (range N) = Ok days ->
  (length days < Z.to_nat N)%nat -> N <= N' ->
  takewhile_days n_sets T goal (range N') = Ok days.
Proof.
  intros H L HN. destruct (range_app N N' HN) as (rest & ->).
  apply takewhile_days_stopped; [exact H|]. now rewrite range_length.
Qed.

Lemma overestimate_is_harmless_witness :
  takewhile_days 5 30 10 (range 9) = Ok [[5; 6; 8; 6; 5]; [7; 7; 8; 7; 5]].
Proof.
  apply (overestimate_is_harmless 5 30 10 3 9).
  - vm_compute. reflexivity.
  - vm_compute. lia.
  - lia.
Defined.

(** ** The planner returns *)

(** [q^n] by repeated multiplication. *)
Fixpoint qpow (q : Q) (n : nat) : Q :=
  match n with
  | O => 1%Q
  | S n' => (q * qpow q n')%Q
  end.

Lemma qpow_add (q : Q) (a b : nat) : (qpow q (a + b) == qpow q a * qpow q b)%Q.
Proof.
  induction a as [|a IH]; simpl; [ring|]. rewrite IH. ring.
Qed.

Lemma qpow_ge_1 (q : Q) (n : nat) : (1 <= q)%Q -> (1 <= qpow q n)%Q.
Proof.
  intros Hq. induction n as [|n IH]; simpl; [lra|]. nra.
Qed.

Lemma qpow_mono (q : Q) (a b : nat) :
  (1 <= q)%Q -> (a <= b)%nat -> (qpow q a <= qpow q b)%Q.
Proof.
  intros Hq Hab. replace b with ((b - a) + a)%nat by lia.
  rewrite qpow_add. pose proof (qpow_ge_1 q (b - a) Hq).
  pose proof (qpow_ge_1 q a Hq). nra.
Qed.

(** Twelve steps of [17/16] at least double. *)
Lemma qpow_doubles (k : nat) : (qpow 2 k <= qpow (17 # 16) (12 * k))%Q.
Proof.
  induction k as [|k IH]; [simpl; lra|].
  replace (12 * S k)%nat with (12 + 12 * k)%nat by lia.
  rewrite qpow_add. change (qpow 2 (S k)) with (2 * qpow 2 k)%Q.
  assert (D : (2 <= qpow (17 # 16) 12)%Q) by (vm_compute; discriminate).
  pose proof (qpow_ge_1 2 k ltac:(lra)). nra.
Qed.

(** The cumulative increase grows at least like [(17/16)^n]. *)
Lemma growth_exp_lower (n : nat) (g ge : Z) :
  growth n = FFin g ge -> (qpow (17 # 16) n <= F2Q g ge)%Q.
Proof.
  revert g ge; induction n as [|n IH]; intros g ge H.
  - pose proof (growth_lower 0 g ge H). simpl. lra.
  - pose proof H as H'. rewrite growth_S in H'.
    destruct (mul_finite _ _ _ _ H') as (g0 & ge0 & _ & _ & E0 & _).
    specialize (IH _ _ E0).
    destruct (day_rate_lower (S n)) as (r & er & Er & Vr).
    rewrite E0, Er in H'. cbn [mul] in H'.
    pose proof (growth_lower n _ _ E0) as G1.
    assert (Q1 : (1 <= F2Q g0 ge0 * F2Q r er)%Q) by nra.
    pose proof (RN_rel_lower _ _ _ Q1 H') as L.
    change (qpow (17 # 16) (S n)) with ((17 # 16) * qpow (17 # 16) n)%Q.
    set (G := F2Q g0 ge0) in *. set (R := F2Q r er) in *.
    set (p := qpow (17 # 16) n) in *.
    assert (X : ((11 # 10) * G <= G * R)%Q) by nra.
    lra.
Qed.

(** A finite cumulative increase below [2^996] is reached within 11952 days. *)
Lemma growth_day_bound (n : nat) (g ge : Z) :
  growth n = FFin g ge -> (F2Q g ge < inject_Z (2 ^ 996))%Q ->
  Z.of_nat n < 11952.
Proof.
  intros H B. pose proof (growth_exp_lower n g ge H) as L.
  destruct (Z_lt_ge_dec (Z.of_nat n) 11952) as [|Ge]; [assumption|exfalso].
  set (k := Z.to_nat 996).
  assert (Hk : (12 * k <= n)%nat) by (subst k; lia).
  assert (H1 : (1 <= 17 # 16)%Q) by lra.
  pose proof (qpow_mono (17 # 16) (12 * k) n H1 Hk) as M.
  pose proof (qpow_doubles k) as D.
  assert (E : (qpow 2 k == inject_Z (2 ^ 996))%Q) by (vm_compute; reflexivity).
  rewrite E in D. lra.
Qed.

Lemma repr_one : repr 1.
Proof. prove_repr. Qed.
Lemma repr_half : repr (1 # 2).
Proof. prove_repr. Qed.
Lemma repr_p990 : repr (inject_Z (2 ^ 990)).
Proof. prove_repr. Qed.
Lemma repr_p991 : repr (inject_Z (2 ^ 991)).
Proof. prove_repr. Qed.
Lemma repr_p993 : repr (inject_Z (2 ^ 993)).
Proof. prove_repr. Qed.
Lemma repr_p995 : repr (inject_Z (2 ^ 995)).
Proof. prove_repr. Qed.
Lemma repr_m990 : repr (/ inject_Z (2 ^ 990)).
Proof. prove_repr. Qed.

(** Every daily rate lies between [1.1] and [1.14]. *)
Lemma day_rate_bounds (i : nat) :
  exists r er, day_rate i = FFin r er /\ (11 # 10 <= F2Q r er <= 114 # 100)%Q.
Proof.
  assert (F : Forall (fun x => exists r er, x = FFin r er
                                 /\ (11 # 10 <= F2Q r er <= 114 # 100)%Q)
                     DAY_INCREASES).
  { repeat constructor; eexists _, _; (split; [vm_compute; reflexivity|]);
      split; vm_compute; discriminate. }
  rewrite Forall_forall in F. apply F. unfold day_rate. apply nth_In.
  apply Nat.mod_upper_bound. discriminate.
Qed.

Lemma float_of_total (T : Z) :
  1 <= T <= 2 ^ 993 ->
  exists tm te, int_to_float T = Ok (FFin tm te)
                /\ (1 <= F2Q tm te <= inject_Z (2 ^ 993))%Q.
Proof.
  intros HT.
  assert (B : (1 <= inject_Z T <= inject_Z (2 ^ 993))%Q).
  { split; [rewrite <- (Zle_Qle 1) | rewrite <- Zle_Qle]; lia. }
  destruct (RN_in_range 1 _ _ repr_one repr_p993 B) as (tm & te & E & V).
  exists tm, te. unfold int_to_float, of_Z. rewrite E. auto.
Qed.

(** A product between [1] and [2^995] rounds to a float and then to an int. *)
Lemma round_product (q : Q) :
  (1 <= q <= inject_Z (2 ^ 995))%Q ->
  exists y, round_float (RN q) = Ok y /\ 0 <= y <= 2 ^ 995.
Proof.
  intros B.
  destruct (RN_in_range 1 _ _ repr_one repr_p995 B) as (p & pe & E & V).
  rewrite E, round_float_FFin. eexists. split; [reflexivity|]. split.
  - apply Qrne_ge. change (inject_Z 0) with 0%Q. lra.
  - apply Qrne_le. lra.
Qed.

Lemma first_total (T : Z) :
  1 <= T <= 2 ^ 993 ->
  exists y, day_total T 1 = Ok y /\ 0 <= y <= 2 ^ 995.
Proof.
  intros HT. destruct (float_of_total T HT) as (tm & te & ET & VT).
  change 1 with (Z.of_nat 1).
  rewrite day_total_S by (vm_compute; discriminate). rewrite ET. cbn [bind].
  destruct (day_rate_bounds 0) as (r & er & Er & Vr).
  change (growth 0) with (day_rate 0). rewrite Er. cbn [mul].
  apply round_product.
  assert (E : (inject_Z (2 ^ 995) == 4 * inject_Z (2 ^ 993))%Q)
    by (vm_compute; reflexivity).
  rewrite E. set (K := inject_Z (2 ^ 993)) in *.
  set (R := F2Q r er) in *. set (Y := F2Q tm te) in *. split; nra.
Qed.

Lemma next_total (T : Z) (n : nat) (x : Z) :
  1 <= T <= 2 ^ 993 ->
  day_total T (Z.of_nat (S n)) = Ok x -> x <= 2 ^ 993 ->
  exists y, day_total T (Z.of_nat (S (S n))) = Ok y /\ 0 <= y <= 2 ^ 995.
Proof.
  intros HT Hx Bx. destruct (float_of_total T HT) as (tm & te & ET & VT).
  pose proof (day_total_Ok _ _ _ Hx) as Bn.
  rewrite day_total_S in Hx by lia. rewrite ET in Hx. cbn [bind] in Hx.
  destruct (mul (growth n) (FFin tm te)) as [p pe|s|] eqn:EP; try discriminate.
  destruct (mul_finite _ _ _ _ EP) as (g & ge & _ & _ & Eg & _).
  rewrite Eg in EP. cbn [mul] in EP.
  rewrite round_float_FFin in Hx. inversion Hx; subst x; clear Hx.
  pose proof (growth_lower n g ge Eg) as G1.
  destruct (day_rate_bounds (S n)) as (r & er & Er & Vr).
  pose proof (Qrne_near_lower (F2Q p pe)) as Kp.
  assert (Bq : (inject_Z (Qrne (F2Q p pe)) <= inject_Z (2 ^ 993))%Q)
    by (rewrite <- Zle_Qle; exact Bx).
  assert (E5 : (inject_Z (2 ^ 995) == 4 * inject_Z (2 ^ 993))%Q)
    by (vm_compute; reflexivity).
  assert (E6 : (inject_Z (2 ^ 996) == 8 * inject_Z (2 ^ 993))%Q)
    by (vm_compute; reflexivity).
  assert (K1 : (1 <= inject_Z (2 ^ 993))%Q) by (vm_compute; discriminate).
  set (K := inject_Z (2 ^ 993)) in *.
  set (G := F2Q g ge) in *. set (Y := F2Q tm te) in *.
  set (R := F2Q r er) in *. set (P := F2Q p pe) in *.
  set (X := inject_Z (Qrne P)) in *.
  assert (Q1 : (1 <= G * Y)%Q) by nra.
  pose proof (RN_rel_lower _ _ _ Q1 EP) as LP. fold P in LP.
  assert (GY : (G * Y <= 2 * K)%Q) by lra.
  assert (GK : (G <= 2 * K)%Q) by nra.
  (* the day index is far below [sys.maxsize] *)
  assert (Hn : Z.of_nat n < 11952).
  { apply (growth_day_bound n g ge Eg). fold G. rewrite E6. lra. }
  assert (Hm : Z.of_nat (S (S n)) <= sys_maxsize)
    by (unfold sys_maxsize; change (2 ^ 63 - 1) with 9223372036854775807; lia).
  rewrite day_total_S by exact Hm. rewrite ET. cbn [bind].
  rewrite growth_S, Eg, Er. cbn [mul].
  assert (Q2 : (1 <= G * R <= inject_Z (2 ^ 995))%Q) by (rewrite E5; split; nra).
  destruct (RN_in_range 1 _ _ repr_one repr_p995 Q2) as (g' & ge' & Eg' & Vg').
  fold G R. rewrite Eg'. cbn [mul].
  pose proof (RN_rel_upper _ _ _ (proj1 Q2) Eg') as Ug.
  set (G' := F2Q g' ge') in *.
  apply round_product. rewrite E5. fold Y.
  assert (X1 : (G' * Y <= (1025 # 1024) * (G * R) * Y)%Q) by nra.
  assert (X2 : (G * R * Y <= (114 # 100) * (G * Y))%Q) by nra.
  split; [nra | lra].
Qed.

(** A list sums to at most its length times its maximum. *)
Lemma sum_le_max (l : list Z) : sum l <= Z.of_nat (length l) * list_max l.
Proof.
  assert (G : forall m, (forall x, In x l -> x <= m) ->
                        sum l <= Z.of_nat (length l) * m).
  { intros m. induction l as [|a l IH]; intros H; [simpl; lia|].
    change (sum (a :: l)) with (a + sum l).
    pose proof (H a (or_introl eq_refl)).
    specialize (IH (fun x Hx => H x (or_intror Hx))).
    change (length (a :: l)) with (S (length l)). lia. }
  apply G. apply list_max_upper.
Qed.

(** A day whose total is defined and at most [2^1000] has a schedule. *)
Lemma day_schedule_returns (T d total : Z) :
  0 <= d -> day_total T d = Ok total -> 0 <= total <= 2 ^ 1000 ->
  exists sets, day_schedule N_SETS T d = Ok sets
               /\ sum sets = total /\ length sets = 5%nat.
Proof.
  intros Hd Ht Bt. unfold day_total in Ht. unfold day_schedule.
  bind_inv Ht. bind_inv Ht. rewrite Hv. cbn [bind]. rewrite Hv0. cbn [bind].
  rewrite Ht. cbn [bind].
  change DAYS_PER_WEEK with 3.
  assert (K : d mod 3 = 0 \/ d mod 3 = 1 \/ d mod 3 = 2)
    by (pose proof (Z.mod_pos_bound d 3); lia).
  assert (S5 : forall f, In f DISTRO_SHAPE_FUNCTIONS ->
             exists sets, schedule_by_shape f (PInt N_SETS) (PInt total) = Ok sets
                          /\ sum sets = total /\ length sets = 5%nat).
  { intros f Hf. destruct (builtin_shapes_bounded f Hf) as (floor & Hb).
    rewrite schedule_by_shape_ints by (unfold N_SETS; lia).
    destruct (schedule_ints_total f floor N_SETS total Hb) as (sets & Hs);
      [unfold N_SETS; lia | lia |].
    exists sets. split; [exact Hs|].
    destruct (schedule_ints_length_sum f N_SETS total sets) as [L S];
      [unfold N_SETS; lia | exact Hs |]. split; [exact S | exact L]. }
  destruct K as [K|[K|K]]; rewrite K; simpl nth_error; cbv beta iota.
  - apply (S5 peak_in_middle_function). left; reflexivity.
  - apply (S5 peak_toward_front_function). right; left; reflexivity.
  - apply (S5 front_load_function). right; right; left; reflexivity.
Qed.

(** What is known of the day before candidate day [a]. *)
Definition previous_day_low (T : Z) (a : nat) : Prop :=
  match a with
  | O => True
  | S p => exists x, day_total T (Z.of_nat p) = Ok x /\ x <= 2 ^ 993
  end.

Lemma candidate_total (T : Z) (a : nat) :
  1 <= T <= 2 ^ 993 -> previous_day_low T a ->
  exists y, day_total T (Z.of_nat a) = Ok y /\ 0 <= y <= 2 ^ 1000.
Proof.
  intros HT Hp.
  assert (B : 2 ^ 995 <= 2 ^ 1000) by (apply Z.pow_le_mono_r; lia).
  assert (B' : 2 ^ 993 <= 2 ^ 1000) by (apply Z.pow_le_mono_r; lia).
  destruct a as [|[|n]].
  - exists T. rewrite day_total_0. split; [reflexivity|lia].
  - destruct (first_total T HT) as (y & Hy & By). exists y. split; [exact Hy|lia].
  - destruct Hp as (x & Hx & Bx).
    destruct (next_total T n x HT Hx Bx) as (y & Hy & By).
    exists y. split; [exact Hy|lia].
Qed.

(** The loop over the candidate days returns: each day it reaches has a
    total of at most [2^1000], because the day before stayed below the goal. *)
Lemma takewhile_days_returns (T goal : Z) (k a : nat) :
  1 <= T <= 2 ^ 993 -> 1 <= goal <= 2 ^ 990 -> previous_day_low T a ->
  exists days,
    takewhile_days N_SETS T goal (map Z.of_nat (seq a k)) = Ok days.
Proof.
  intros HT Hg. revert a. induction k as [|k IH]; intros a Hp; simpl; [eauto|].
  destruct (candidate_total T a HT Hp) as (y & Hy & By).
  destruct (day_schedule_returns T (Z.of_nat a) y (Nat2Z.is_nonneg a) Hy By)
    as (sets & Hs & Hsum & Hlen).
  rewrite Hs. cbn [bind].
  destruct (Z.ltb_spec (list_max sets) goal) as [Lt|Ge]; [|eauto].
  destruct (IH (S a)) as (later & Hl).
  - exists y. split; [exact Hy|].
    pose proof (sum_le_max sets) as M. rewrite Hsum, Hlen in M.
    assert (5 * 2 ^ 990 <= 2 ^ 993)
      by (change (2 ^ 993) with (8 * 2 ^ 990); lia).
    nia.
  - rewrite Hl. cbn [bind]. eauto.
Qed.

Lemma F2Q_pos_mant (m e : Z) : (0 < F2Q m e)%Q -> 0 < m.
Proof.
  intros H. unfold F2Q in H. pose proof (pow2Q_pos e) as P.
  destruct (Z_lt_le_dec 0 m) as [|L]; [assumption|exfalso].
  assert ((inject_Z m <= inject_Z 0)%Q) by (rewrite <- Zle_Qle; exact L).
  change (inject_Z 0) with 0%Q in *. nra.
Qed.

(** The first lines of [get_progression] for a starting maximum between
    [1] and [2^990] and a goal between [1] and [2^990]: the starting
    average, the required increase (positive, so its logarithm is defined)
    and the starting total are all computed. *)
Lemma progression_setup (starting_max : pynum) (goal : Z) (y : float) :
  to_float starting_max = Ok y -> in_range 1 (inject_Z (2 ^ 990)) y ->
  1 <= goal <= 2 ^ 990 ->
  exists sa m e scaled T,
    py_mul (PFloat RATIO_OF_MAX_FOR_N_SETS) starting_max = Ok (PFloat sa)
    /\ py_truediv (PInt goal) (PFloat sa) = Ok (FFin m e) /\ 0 < m
    /\ py_mul (PFloat sa) (PInt N_SETS) = Ok scaled
    /\ py_round scaled = Ok T /\ 1 <= T <= 2 ^ 993.
Proof.
  intros Hy (ym & ye & -> & VY) Hg.
  assert (ER : exists rm re, RATIO_OF_MAX_FOR_N_SETS = FFin rm re
                             /\ (599 # 1000 <= F2Q rm re <= 6 # 10)%Q).
  { eexists _, _. split; [vm_compute; reflexivity|].
    split; vm_compute; discriminate. }
  destruct ER as (rm & re & ER & VR). rewrite ER.
  assert (K0 : (1 <= inject_Z (2 ^ 990))%Q) by (vm_compute; discriminate).
  assert (E1 : (inject_Z (2 ^ 991) == 2 * inject_Z (2 ^ 990))%Q)
    by (vm_compute; reflexivity).
  assert (E3 : (inject_Z (2 ^ 993) == 8 * inject_Z (2 ^ 990))%Q)
    by (vm_compute; reflexivity).
  assert (E5 : (inject_Z (2 ^ 995) == 32 * inject_Z (2 ^ 990))%Q)
    by (vm_compute; reflexivity).
  (* the starting average *)
  assert (QA : (1 # 2 <= F2Q rm re * F2Q ym ye <= inject_Z (2 ^ 990))%Q)
    by (split; nra).
  destruct (RN_in_range _ _ _ repr_half repr_p990 QA) as (am & ae & EA & VA).
  assert (Hmul : py_mul (PFloat (FFin rm re)) starting_max
                 = Ok (PFloat (FFin am ae))).
  { unfold py_mul. destruct starting_max as [z|f]; cbn [to_float bind] in *.
    - rewrite Hy. cbn [bind mul]. now rewrite EA.
    - inversion Hy; subst f. cbn [bind mul]. now rewrite EA. }
  (* the required increase *)
  assert (QG : (1 <= inject_Z goal <= inject_Z (2 ^ 990))%Q).
  { split; [rewrite <- (Zle_Qle 1) | rewrite <- Zle_Qle]; lia. }
  destruct (RN_in_range 1 _ _ repr_one repr_p990 QG) as (gm & ge & EG & VG).
  assert (Am : am <> 0).
  { intros ->. rewrite F2Q_0 in VA. lra. }
  assert (QI : (/ inject_Z (2 ^ 990) <= F2Q gm ge / F2Q am ae
                <= inject_Z (2 ^ 991))%Q).
  { set (K := inject_Z (2 ^ 990)) in *. set (G := F2Q gm ge) in *.
    set (A := F2Q am ae) in *. rewrite E1. split.
    - apply Qle_shift_div_l; [lra|].
      assert (X : (/ K * K == 1)%Q) by (field; lra).
      assert (P : (0 < / K)%Q) by (apply Qinv_lt_0_compat; lra). nra.
    - apply Qle_shift_div_r; [lra|]. nra. }
  destruct (RN_in_range _ _ _ repr_m990 repr_p991 QI) as (m & e & EI & VI).
  assert (Hinc : py_truediv (PInt goal) (PFloat (FFin am ae)) = Ok (FFin m e)).
  { unfold py_truediv. cbn [to_float]. unfold int_to_float, of_Z. rewrite EG.
    cbn [bind]. unfold float_truediv.
    replace (is_zero (FFin am ae)) with false
      by (destruct am; [contradiction | reflexivity | reflexivity]).
    cbn [div]. now rewrite EI. }
  assert (Hm : 0 < m).
  { apply (F2Q_pos_mant m e).
    assert (P : (0 < / inject_Z (2 ^ 990))%Q) by (apply Qinv_lt_0_compat; lra).
    lra. }
  (* the starting total *)
  assert (R5 : repr (inject_Z N_SETS)) by prove_repr.
  destruct R5 as (fm & fe & E5' & V5). change (inject_Z N_SETS) with 5%Q in V5.
  assert (QS : (1 <= F2Q am ae * F2Q fm fe <= inject_Z (2 ^ 995))%Q).
  { rewrite V5, E5. split; lra. }
  destruct (RN_in_range 1 _ _ repr_one repr_p995 QS) as (pm & pe & EP & VP).
  assert (VP' : (2 <= F2Q pm pe <= inject_Z (2 ^ 993))%Q).
  { assert (QS' : (2 <= F2Q am ae * F2Q fm fe <= inject_Z (2 ^ 993))%Q)
      by (rewrite V5, E3; split; lra).
    assert (repr 2) by prove_repr.
    destruct (RN_in_range 2 _ _ ltac:(assumption) repr_p993 QS')
      as (pm' & pe' & EP' & VP'').
    rewrite EP in EP'. inversion EP'; subst. exact VP''. }
  exists (FFin am ae), m, e, (PFloat (FFin pm pe)), (Qrne (F2Q pm pe)).
  split; [exact Hmul|]. split; [exact Hinc|]. split; [exact Hm|]. split.
  - unfold py_mul. cbn [to_float bind]. unfold int_to_float, of_Z.
    rewrite E5'. cbn [bind mul]. now rewrite EP.
  - cbn [py_round]. rewrite round_float_FFin. split; [reflexivity|]. split.
    + apply Qrne_ge. change (inject_Z 1) with 1%Q. lra.
    + apply Qrne_le. lra.
Qed.

(** The week estimate is defined as soon as the two logarithms have a
    finite quotient. *)
Lemma estimate_weeks_defined (libm_log : float -> float) (m e qm qe : Z) :
  0 < m ->
  is_zero (libm_log WEEKLY_INCREASE) = false ->
  div (libm_log (FFin m e)) (libm_log WEEKLY_INCREASE) = FFin qm qe ->
  exists est_weeks, estimate_weeks libm_log (FFin m e) = Ok est_weeks.
Proof.
  intros Hm Hz Hq. unfold estimate_weeks. cbn [math_log].
  destruct (Z.ltb_spec 0 m) as [_|]; [|lia]. cbn [bind].
  change (math_log libm_log WEEKLY_INCREASE)
    with (Ok (A := float) (libm_log WEEKLY_INCREASE)).
  cbn [bind]. unfold float_truediv. rewrite Hz. cbn [bind]. rewrite Hq.
  simpl. eauto.
Qed.

(** C10, amended: for a starting maximum between [1] and [2^990] (an int
    or a float) and a goal between [1] and [2^990], the starting average
    and the required increase are computed and the increase is positive, so
    its logarithm is defined.  Whenever the week estimate is then defined
    (it is as soon as the two logarithms have a finite quotient), the
    planner returns: at most [DAYS_PER_WEEK * est_weeks] training days
    followed by the goal day.  An error of the week estimate is the only
    error the planner can raise on these inputs. *)
Theorem progression_returns_bounded (libm_log : float -> float)
        (starting_max : pynum) (goal : Z) (y : float) :
  to_float starting_max = Ok y -> in_range 1 (inject_Z (2 ^ 990)) y ->
  1 <= goal <= 2 ^ 990 ->
  exists starting_average est_required_inc,
    (sa <- py_mul (PFloat RATIO_OF_MAX_FOR_N_SETS) starting_max ;; to_float sa)
      = Ok starting_average
    /\ py_truediv (PInt goal) (PFloat starting_average) = Ok est_required_inc
    /\ math_log libm_log est_required_inc = Ok (libm_log est_required_inc)
    /\ (forall qm qe,
          is_zero (libm_log WEEKLY_INCREASE) = false ->
          div (libm_log est_required_inc) (libm_log WEEKLY_INCREASE)
            = FFin qm qe ->
          exists est_weeks,
            estimate_weeks libm_log est_required_inc = Ok est_weeks)
    /\ (forall est_weeks,
          estimate_weeks libm_log est_required_inc = Ok est_weeks ->
          exists days,
            get_progression libm_log starting_max goal = Ok (days ++ [[goal]])
            /\ Z.of_nat (length days) <= Z.max 0 (DAYS_PER_WEEK * est_weeks))
    /\ (forall err,
          estimate_weeks libm_log est_required_inc = Err err ->
          get_progression libm_log starting_max goal = Err err).
Proof.
  intros Hy Ry Hg.
  destruct (progression_setup starting_max goal y Hy Ry Hg)
    as (sa & m & e & scaled & T & Hmul & Hinc & Hm & Hsc & HT & BT).
  exists sa, (FFin m e).
  split; [rewrite Hmul; reflexivity|]. split; [exact Hinc|]. split.
  { cbn [math_log]. destruct (Z.ltb_spec 0 m); [reflexivity|lia]. }
  split; [intros qm qe; now apply estimate_weeks_defined|]. split.
  - intros w Hw.
    destruct (takewhile_days_returns T goal (Z.to_nat (DAYS_PER_WEEK * w)) 0
                BT Hg I) as (days & Hdays).
    fold (range (DAYS_PER_WEEK * w)) in Hdays.
    exists days. split.
    + unfold get_progression. rewrite Hmul. cbn [bind to_float].
      rewrite Hinc. cbn [bind]. rewrite Hw. cbn [bind]. rewrite Hsc.
      cbn [bind]. rewrite HT. cbn [bind]. rewrite Hdays. reflexivity.
    + destruct (takewhile_days_spec _ _ _ _ _ Hdays) as (_ & L & _).
      rewrite range_length in L. lia.
  - intros err He. unfold get_progression. rewrite Hmul. cbn [bind to_float].
    rewrite Hinc. cbn [bind]. rewrite He. reflexivity.
Qed.

Lemma progression_returns_bounded_witness :
  exists starting_average est_required_inc,
    (sa <- py_mul (PFloat RATIO_OF_MAX_FOR_N_SETS) (PInt 10) ;; to_float sa)
      = Ok starting_average
    /\ py_truediv (PInt 100) (PFloat starting_average) = Ok est_required_inc
    /\ math_log RefLog.ref_log est_required_inc
       = Ok (RefLog.ref_log est_required_inc)
    /\ (forall qm qe,
          is_zero (RefLog.ref_log WEEKLY_INCREASE) = false ->
          div (RefLog.ref_log est_required_inc) (RefLog.ref_log WEEKLY_INCREASE)
            = FFin qm qe ->
          exists est_weeks,
            estimate_weeks RefLog.ref_log est_required_inc = Ok est_weeks)
    /\ (forall est_weeks,
          estimate_weeks RefLog.ref_log est_required_inc = Ok est_weeks ->
          exists days,
            get_progression RefLog.ref_log (PInt 10) 100 = Ok (days ++ [[100]])
            /\ Z.of_nat (length days) <= Z.max 0 (DAYS_PER_WEEK * est_weeks))
    /\ (forall err,
          estimate_weeks RefLog.ref_log est_required_inc = Err err ->
          get_progression RefLog.ref_log (PInt 10) 100 = Err err).
Proof.
  eapply (progression_returns_bounded RefLog.ref_log (PInt 10) 100).
  - vm_compute. reflexivity.
  - eexists _, _. split; [reflexivity|]. split; vm_compute; discriminate.
  - split; [lia|]. vm_compute. discriminate.
Defined.
